(** * A shallow embedding of the graph store, the search-state pool and the
    A* engine of aoc-lib (graph.ts, pool.ts, astar.ts), with its integer
    arithmetic (math.ts) and its ring buffer (ring.ts).

    Objects that the program shares by reference (Node, Link and
    NodeSearchState instances) live in explicit object stores and are named
    by their index there; maps and sets hold these references, as the
    program's Map and Set objects do. *)

From Stdlib Require Import ZArith.
From stdpp Require Import base decidable option list gmap strings pretty.

Local Open Scope string_scope.
Local Open Scope Z_scope.

(** ** Node identifiers

    [NodeId extends string | number].  Numeric identifiers are modelled by
    integers; NaN, infinities and fractions are outside the embedding. *)

Inductive NodeId :=
  | NumId (n : Z)
  | StrId (s : string).

#[global] Instance NodeId_eq_dec : EqDecision NodeId.
Proof. solve_decision. Defined.

#[global] Instance NodeId_countable : Countable NodeId.
Proof.
  refine (inj_countable'
    (λ i, match i with NumId n => inl n | StrId s => inr s end)
    (λ x, match x with inl n => NumId n | inr s => StrId s end) _).
  by intros [].
Defined.

(** Template-literal conversion of an identifier to a string. *)
Definition idString (i : NodeId) : string :=
  match i with
  | NumId n => pretty n
  | StrId s => s
  end.

(** JavaScript truthiness of an identifier: [0] and the empty string are
    falsy. *)
Definition falsy (i : NodeId) : bool :=
  match i with
  | NumId n => bool_decide (n = 0)
  | StrId s => bool_decide (s = "")
  end.

(** References into the object stores. *)
Abbreviation nref := nat.
Abbreviation lref := nat.
Abbreviation sref := nat.

(** ** Insertion-ordered maps and sets (JavaScript [Map] and [Set]) *)

Module JsMap.
Section jsmap.
Context {K V : Type} `{EqDecision K}.

Fixpoint get (k : K) (m : list (K * V)) : option V :=
  match m with
  | [] => None
  | (k', v) :: m' => if decide (k = k') then Some v else get k m'
  end.

Definition has (k : K) (m : list (K * V)) : bool :=
  match get k m with Some _ => true | None => false end.

(** An existing key keeps its position, a new key goes last. *)
Fixpoint set (k : K) (v : V) (m : list (K * V)) : list (K * V) :=
  match m with
  | [] => [(k, v)]
  | (k', v') :: m' =>
      if decide (k = k') then (k, v) :: m' else (k', v') :: set k v m'
  end.

Fixpoint delete (k : K) (m : list (K * V)) : list (K * V) :=
  match m with
  | [] => []
  | (k', v') :: m' =>
      if decide (k = k') then delete k m' else (k', v') :: delete k m'
  end.

Definition size (m : list (K * V)) : nat := length m.
Definition keys (m : list (K * V)) : list K := m.*1.
Definition values (m : list (K * V)) : list V := m.*2.
End jsmap.
End JsMap.

Module JsSet.
Section jsset.
Context {A : Type} `{EqDecision A}.

Definition add (x : A) (s : list A) : list A :=
  if bool_decide (x ∈ s) then s else s ++ [x].

Definition delete (x : A) (s : list A) : list A :=
  filter (λ y, y ≠ x) s.
End jsset.
End JsSet.

(** ** Nodes and links *)

Module Link.
Record t (LinkData : Type) := mk {
  fromId : NodeId;
  toId : NodeId;
  data : option LinkData;
  id : string;
}.
Arguments mk {LinkData}.
Arguments fromId {LinkData}.
Arguments toId {LinkData}.
Arguments data {LinkData}.
Arguments id {LinkData}.

Definition makeId (fromId toId : string) : string :=
  fromId +:+ "👉" +:+ toId.

Definition otherId {LinkData} (l : t LinkData) (i : NodeId) : NodeId :=
  if decide (fromId l = i) then toId l else fromId l.

Definition setData {LinkData} (d : option LinkData) (l : t LinkData) :
    t LinkData :=
  mk (fromId l) (toId l) d (id l).
End Link.

Module Node.
Record t (NodeData : Type) := mk {
  id : NodeId;
  links : option (list lref);
  data : option NodeData;
}.
Arguments mk {NodeData}.
Arguments id {NodeData}.
Arguments links {NodeData}.
Arguments data {NodeData}.

Definition setData {NodeData} (d : option NodeData) (n : t NodeData) :
    t NodeData :=
  mk (id n) (links n) d.

Definition setLinks {NodeData} (ls : option (list lref)) (n : t NodeData) :
    t NodeData :=
  mk (id n) ls (data n).

(** [Node.addLink]: the set is created on first use. *)
Definition addLink {NodeData} (link : lref) (n : t NodeData) : t NodeData :=
  match links n with
  | Some s => setLinks (Some (JsSet.add link s)) n
  | None => setLinks (Some [link]) n
  end.

(** [this.links?.delete(link)] *)
Definition deleteLink {NodeData} (link : lref) (n : t NodeData) :
    t NodeData :=
  match links n with
  | Some s => setLinks (Some (JsSet.delete link s)) n
  | None => n
  end.
End Node.

#[global] Instance Node_inhabited {ND} : Inhabited (Node.t ND) :=
  populate (Node.mk (NumId 0) None None).
#[global] Instance Link_inhabited {LD} : Inhabited (Link.t LD) :=
  populate (Link.mk (NumId 0) (NumId 0) None "").

(** ** Change records *)

Inductive ChangeType := CtAdd | CtUpdate | CtRemove.

Inductive Change :=
  | NodeChange (changeType : ChangeType) (node : nref)
  | LinkChange (changeType : ChangeType) (link : lref).

#[global] Instance ChangeType_eq_dec : EqDecision ChangeType.
Proof. solve_decision. Defined.
#[global] Instance Change_eq_dec : EqDecision Change.
Proof. solve_decision. Defined.


(** ** The graph store (class [Graph]) *)

Section graph.
Context {NodeData LinkData : Type}.

(** The private fields of [Graph], the stores of the Node and Link objects
    that exist ([nodeObjs], [linkObjs]), and [emitted]: what the 'changed'
    listeners have received so far, oldest first. *)
Record Graph := mkGraph {
  multigraph : bool;
  nodes : list (NodeId * nref);
  links : list (string * lref);
  multiEdges : gmap string nat;
  suspendEvents : Z;
  listening : bool;
  changes : list Change;
  nodeObjs : list (Node.t NodeData);
  linkObjs : list (Link.t LinkData);
  emitted : list (list Change);
}.

Definition set_nodes (x : list (NodeId * nref)) (g : Graph) : Graph :=
  mkGraph (multigraph g) x (links g) (multiEdges g) (suspendEvents g)
    (listening g) (changes g) (nodeObjs g) (linkObjs g) (emitted g).
Definition set_links (x : list (string * lref)) (g : Graph) : Graph :=
  mkGraph (multigraph g) (nodes g) x (multiEdges g) (suspendEvents g)
    (listening g) (changes g) (nodeObjs g) (linkObjs g) (emitted g).
Definition set_multiEdges (x : gmap string nat) (g : Graph) : Graph :=
  mkGraph (multigraph g) (nodes g) (links g) x (suspendEvents g)
    (listening g) (changes g) (nodeObjs g) (linkObjs g) (emitted g).
Definition set_suspendEvents (x : Z) (g : Graph) : Graph :=
  mkGraph (multigraph g) (nodes g) (links g) (multiEdges g) x
    (listening g) (changes g) (nodeObjs g) (linkObjs g) (emitted g).
Definition set_listening (x : bool) (g : Graph) : Graph :=
  mkGraph (multigraph g) (nodes g) (links g) (multiEdges g) (suspendEvents g)
    x (changes g) (nodeObjs g) (linkObjs g) (emitted g).
Definition set_changes (x : list Change) (g : Graph) : Graph :=
  mkGraph (multigraph g) (nodes g) (links g) (multiEdges g) (suspendEvents g)
    (listening g) x (nodeObjs g) (linkObjs g) (emitted g).
Definition set_nodeObjs (x : list (Node.t NodeData)) (g : Graph) : Graph :=
  mkGraph (multigraph g) (nodes g) (links g) (multiEdges g) (suspendEvents g)
    (listening g) (changes g) x (linkObjs g) (emitted g).
Definition set_linkObjs (x : list (Link.t LinkData)) (g : Graph) : Graph :=
  mkGraph (multigraph g) (nodes g) (links g) (multiEdges g) (suspendEvents g)
    (listening g) (changes g) (nodeObjs g) x (emitted g).
Definition set_emitted (x : list (list Change)) (g : Graph) : Graph :=
  mkGraph (multigraph g) (nodes g) (links g) (multiEdges g) (suspendEvents g)
    (listening g) (changes g) (nodeObjs g) (linkObjs g) x.

(** [new Graph({ multigraph })] *)
Definition newGraph (multi : bool) : Graph :=
  mkGraph multi [] [] ∅ 0 false [] [] [] [].

(** *** Methods as state transformers *)

Definition M (A : Type) : Type := Graph → A * Graph.

#[global] Instance M_ret : MRet M := λ A a g, (a, g).
#[global] Instance M_bind : MBind M :=
  λ A B k m g, k (m g).1 (m g).2.

Definition gets {A} (f : Graph → A) : M A := λ g, (f g, g).
Definition modify (f : Graph → Graph) : M unit := λ g, (tt, f g).

Fixpoint forEach {A B} (f : A → M B) (l : list A) : M unit :=
  match l with
  | [] => mret tt
  | x :: l' => f x ;; forEach f l'
  end.

(** Reading and updating the object behind a reference.  A reference held
    by the program is always live; the total lookup gives a default only
    at an index outside the store, which the maps and link sets of a graph
    built by public calls never hold ([reachable_nodesConsistent],
    [reachable_linksConsistent], [reachable_linkSetsLive]). *)
Definition nodeObj (r : nref) (g : Graph) : Node.t NodeData :=
  nodeObjs g !!! r.
Definition linkObj (r : lref) (g : Graph) : Link.t LinkData :=
  linkObjs g !!! r.
Definition updNode (r : nref) (f : Node.t NodeData → Node.t NodeData) :
    M unit :=
  modify (λ g, set_nodeObjs (alter f r (nodeObjs g)) g).
Definition updLink (r : lref) (f : Link.t LinkData → Link.t LinkData) :
    M unit :=
  modify (λ g, set_linkObjs (alter f r (linkObjs g)) g).

(** [new Node(id, data)] and [new Link(fromId, toId, data, id)] *)
Definition newNode (id : NodeId) (data : option NodeData) : M nref :=
  λ g, (length (nodeObjs g),
        set_nodeObjs (nodeObjs g ++ [Node.mk id None data]) g).
Definition newLink (fromId toId : NodeId) (data : option LinkData)
    (id : option string) : M lref :=
  λ g,
    let id' := default (Link.makeId (idString fromId) (idString toId)) id in
    (length (linkObjs g),
     set_linkObjs (linkObjs g ++ [Link.mk fromId toId data id']) g).

Definition enterModification : M unit :=
  modify (λ g, set_suspendEvents (suspendEvents g + 1) g).

(** Modelled from the spec: [emit('changed', changes)] is inherited from
    the [EventEmitter] of the @denosaurs/event package, which is not among
    the sources; it invokes the registered listeners once, with the ordered
    list of changes.  [emitted] keeps the list as the listeners see it when
    they are invoked. *)
Definition emit (cs : list Change) : M unit :=
  modify (λ g, set_emitted (emitted g ++ [cs]) g).

Definition exitModification : M unit :=
  λ g,
    let g := set_suspendEvents (suspendEvents g - 1) g in
    if bool_decide (suspendEvents g = 0) &&
       bool_decide (0 < length (changes g))%nat
    then (tt, set_changes [] (emit (changes g) g).2)
    else (tt, g).

Definition recordNodeChange (node : nref) (changeType : ChangeType) :
    M unit :=
  λ g,
    if listening g
    then (tt, set_changes (changes g ++ [NodeChange changeType node]) g)
    else (tt, g).

Definition recordLinkChange (link : lref) (changeType : ChangeType) :
    M unit :=
  λ g,
    if listening g
    then (tt, set_changes (changes g ++ [LinkChange changeType link]) g)
    else (tt, g).

Definition nodeCount (g : Graph) : nat := JsMap.size (nodes g).
Definition linkCount (g : Graph) : nat := JsMap.size (links g).

Definition getNode (nodeId : NodeId) (g : Graph) : option nref :=
  JsMap.get nodeId (nodes g).

Definition addNode (nodeId : NodeId) (data : option NodeData) : M nref :=
  enterModification ;;
  found ← gets (getNode nodeId);
  node ← match found with
         | Some node =>
             updNode node (Node.setData data) ;;
             recordNodeChange node CtUpdate ;;
             mret node
         | None =>
             node ← newNode nodeId data;
             recordNodeChange node CtAdd ;;
             modify (λ g, set_nodes (JsMap.set nodeId node (nodes g)) g) ;;
             mret node
         end;
  exitModification ;;
  mret node.

(** [this.getNode(id)?.links?.delete(link)] *)
Definition detachLink (id : NodeId) (link : lref) : M unit :=
  found ← gets (getNode id);
  match found with
  | Some node => updNode node (Node.deleteLink link)
  | None => mret tt
  end.

(** The parameter is a Link object, so the [!link] half of the guard never
    fires. *)
Definition removeLinkInstance (link : lref) : M bool :=
  l ← gets (linkObj link);
  found ← gets (λ g, JsMap.get (Link.id l) (links g));
  match found with
  | None => mret false
  | Some _ =>
      enterModification ;;
      modify (λ g, set_links (JsMap.delete (Link.id l) (links g)) g) ;;
      detachLink (Link.fromId l) link ;;
      detachLink (Link.toId l) link ;;
      recordLinkChange link CtRemove ;;
      exitModification ;;
      mret true
  end.

(** [prevLinks.forEach] visits the set while [removeLinkInstance] deletes
    from it; the only element such a call deletes is the one being visited,
    so the visit order is that of the set when the loop starts. *)
Definition removeNode (nodeId : NodeId) : M bool :=
  found ← gets (getNode nodeId);
  match found with
  | None => mret false
  | Some node =>
      enterModification ;;
      prevLinks ← gets (λ g, Node.links (nodeObj node g));
      match prevLinks with
      | Some ls =>
          forEach removeLinkInstance ls ;;
          updNode node (Node.setLinks None)
      | None => mret tt
      end ;;
      modify (λ g, set_nodes (JsMap.delete nodeId (nodes g)) g) ;;
      recordNodeChange node CtRemove ;;
      exitModification ;;
      mret true
  end.

Definition getLink (fromNodeId toNodeId : NodeId) (g : Graph) : option lref :=
  if falsy fromNodeId || falsy toNodeId then None
  else JsMap.get (Link.makeId (idString fromNodeId) (idString toNodeId))
         (links g).

Definition createSingleLink (fromId toId : NodeId) (data : option LinkData) :
    M lref :=
  let linkId := Link.makeId (idString fromId) (idString toId) in
  prevLink ← gets (λ g, JsMap.get linkId (links g));
  match prevLink with
  | Some prevLink => updLink prevLink (Link.setData data) ;; mret prevLink
  | None => newLink fromId toId data (Some linkId)
  end.

Definition createUniqueLink (fromId toId : NodeId) (data : option LinkData) :
    M lref :=
  let linkId := Link.makeId (idString fromId) (idString toId) in
  isMultiEdge ← gets (λ g, bool_decide (is_Some (multiEdges g !! linkId)));
  existing ← gets (getLink fromId toId);
  if isMultiEdge || bool_decide (is_Some existing) then
    (if isMultiEdge then mret tt
     else modify (λ g, set_multiEdges (<[linkId := 0%nat]> (multiEdges g)) g)) ;;
    modify (λ g, set_multiEdges (alter S linkId (multiEdges g)) g) ;;
    count ← gets (λ g, default 0%nat (multiEdges g !! linkId));
    let suffix := "@" +:+ pretty count in
    newLink fromId toId data
      (Some (Link.makeId (idString fromId +:+ suffix)
                         (idString toId +:+ suffix)))
  else newLink fromId toId data (Some linkId).

Definition createLink (fromId toId : NodeId) (data : option LinkData) :
    M lref :=
  λ g,
    if multigraph g then createUniqueLink fromId toId data g
    else createSingleLink fromId toId data g.

(** [this.getNode(id) ?? this.addNode(id)] *)
Definition getOrAddNode (id : NodeId) : M nref :=
  found ← gets (getNode id);
  match found with
  | Some node => mret node
  | None => addNode id None
  end.

Definition addLink (fromId toId : NodeId) (data : option LinkData) : M lref :=
  enterModification ;;
  fromNode ← getOrAddNode fromId;
  toNode ← getOrAddNode toId;
  link ← createLink fromId toId data;
  linkId ← gets (λ g, Link.id (linkObj link g));
  isUpdate ← gets (λ g, JsMap.has linkId (links g));
  modify (λ g, set_links (JsMap.set linkId link (links g)) g) ;;
  updNode fromNode (Node.addLink link) ;;
  (if decide (fromId ≠ toId) then updNode toNode (Node.addLink link)
   else mret tt) ;;
  recordLinkChange link (if (isUpdate : bool) then CtUpdate else CtAdd) ;;
  exitModification ;;
  mret link.

(** The two overloads of [removeLink]. *)
Inductive LinkArg :=
  | ByLink (link : lref)
  | ByEndpoints (fromNodeId toNodeId : NodeId).

(** How a call completes: with a value, or with a thrown [Error]. *)
Inductive Completion (A : Type) :=
  | Return (a : A)
  | Throw (message : string).
#[global] Arguments Return {A}.
#[global] Arguments Throw {A}.

Definition removeLink (arg : LinkArg) : M (Completion bool) :=
  link ← gets (λ g, match arg with
                    | ByLink link => Some link
                    | ByEndpoints f t => getLink f t g
                    end);
  match link with
  | None => mret (Throw "Unknown link")
  | Some link => b ← removeLinkInstance link; mret (Return b)
  end.

(** [on('changed', listener)] *)
Definition on : M unit := modify (set_listening true).

(** [getLinks(nodeId)], [nodes()] and [links()] in iteration order. *)
Definition getLinks (nodeId : NodeId) (g : Graph) : list lref :=
  match getNode nodeId g with
  | Some node => default ([] : list lref) (Node.links (nodeObj node g))
  | None => []
  end.
Definition nodesOf (g : Graph) : list nref := JsMap.values (nodes g).
Definition linksOf (g : Graph) : list lref := JsMap.values (links g).

(** A generator that yields some values and then either finishes or
    throws. *)
Definition Yields (A : Type) : Type := list A * option string.

Fixpoint nonOrientedLinks (g : Graph) (node : nref) (ls : list lref) :
    Yields (nref * lref * nref) :=
  match ls with
  | [] => ([], None)
  | link :: ls' =>
      let l := linkObj link g in
      let linkedNodeId :=
        if decide (Link.fromId l = Node.id (nodeObj node g))
        then Link.toId l else Link.fromId l in
      match getNode linkedNodeId g with
      | None => ([], Some "Invalid link")
      | Some otherNode =>
          let '(ys, e) := nonOrientedLinks g node ls' in
          ((node, link, otherNode) :: ys, e)
      end
  end.

Fixpoint orientedLinks (g : Graph) (node : nref) (ls : list lref) :
    Yields (nref * lref * nref) :=
  match ls with
  | [] => ([], None)
  | link :: ls' =>
      let l := linkObj link g in
      if decide (Link.fromId l = Node.id (nodeObj node g)) then
        match getNode (Link.toId l) g with
        | None => ([], Some "Invalid node state")
        | Some otherNode =>
            let '(ys, e) := orientedLinks g node ls' in
            ((node, link, otherNode) :: ys, e)
        end
      else orientedLinks g node ls'
  end.

Definition linkedNodes (nodeId : NodeId) (oriented : bool) (g : Graph) :
    Yields (nref * lref * nref) :=
  match getNode nodeId g with
  | Some node =>
      match Node.links (nodeObj node g) with
      | Some ls =>
          if oriented then orientedLinks g node ls
          else nonOrientedLinks g node ls
      | None => ([], None)
      end
  | None => ([], None)
  end.

(** [for (const node of this.nodes()) this.removeNode(node.id)].  The loop
    walks the map while [removeNode] deletes from it; each call deletes the
    entry being visited (a node is stored under its own identifier), so the
    nodes are visited in the order the map has when the loop starts. *)
Definition clear : M unit :=
  enterModification ;;
  ns ← gets nodesOf;
  forEach (λ node, id ← gets (λ g, Node.id (nodeObj node g)); removeNode id)
    ns ;;
  exitModification.

End graph.

Arguments Graph : clear implicits.
Arguments M : clear implicits.

(** ** Numbers of the search

    Distances and scores are integers or [+Infinity] (the initial value of
    [distanceToSource] and [fScore]); fractional values and NaN costs are
    outside the embedding.  A comparator returns the difference of two
    scores, which can also be [-Infinity] or NaN. *)

Inductive cost :=
  | Fin (z : Z)
  | Infinity.

#[global] Instance cost_eq_dec : EqDecision cost.
Proof. solve_decision. Defined.

Definition cost_add (a b : cost) : cost :=
  match a, b with
  | Fin x, Fin y => Fin (x + y)
  | _, _ => Infinity
  end.

(** [a >= b] and [a < b] *)
Definition cost_ge (a b : cost) : bool :=
  match a, b with
  | Infinity, _ => true
  | Fin _, Infinity => false
  | Fin x, Fin y => bool_decide (y ≤ x)%Z
  end.


Inductive num :=
  | Num (z : Z)
  | PosInf
  | NegInf
  | NaN.

(** [a - b] *)
Definition cost_sub (a b : cost) : num :=
  match a, b with
  | Fin x, Fin y => Num (x - y)
  | Infinity, Fin _ => PosInf
  | Fin _, Infinity => NegInf
  | Infinity, Infinity => NaN
  end.

(** [n < 0] and [n <= 0] *)
Definition lt0 (n : num) : bool :=
  match n with
  | Num z => bool_decide (z < 0)%Z
  | NegInf => true
  | PosInf | NaN => false
  end.

Definition le0 (n : num) : bool :=
  match n with
  | Num z => bool_decide (z ≤ 0)%Z
  | NegInf => true
  | PosInf | NaN => false
  end.

(** ** The search-state pool (pool.ts) *)

Module NodeSearchState.
Record t := mk {
  node : nref;
  parent : option sref;
  closed : bool;
  open : Z;
  distanceToSource : cost;
  fScore : cost;
  heapIndex : Z;
}.

(** [new NodeSearchState(node)] with its field initialisers. *)
Definition new (node : nref) : t :=
  mk node None false 0 Infinity Infinity (-1).

Definition set_node (x : nref) (s : t) : t :=
  mk x (parent s) (closed s) (open s) (distanceToSource s) (fScore s)
    (heapIndex s).
Definition set_parent (x : option sref) (s : t) : t :=
  mk (node s) x (closed s) (open s) (distanceToSource s) (fScore s)
    (heapIndex s).
Definition set_closed (x : bool) (s : t) : t :=
  mk (node s) (parent s) x (open s) (distanceToSource s) (fScore s)
    (heapIndex s).
Definition set_open (x : Z) (s : t) : t :=
  mk (node s) (parent s) (closed s) x (distanceToSource s) (fScore s)
    (heapIndex s).
Definition set_distanceToSource (x : cost) (s : t) : t :=
  mk (node s) (parent s) (closed s) (open s) x (fScore s) (heapIndex s).
Definition set_fScore (x : cost) (s : t) : t :=
  mk (node s) (parent s) (closed s) (open s) (distanceToSource s) x
    (heapIndex s).
Definition set_heapIndex (x : Z) (s : t) : t :=
  mk (node s) (parent s) (closed s) (open s) (distanceToSource s) (fScore s)
    x.
End NodeSearchState.

#[global] Instance NodeSearchState_inhabited : Inhabited NodeSearchState.t :=
  populate (NodeSearchState.new 0%nat).
#[global] Instance NodeSearchState_eq_dec : EqDecision NodeSearchState.t.
Proof. solve_decision. Defined.

Module StatePool.
Import NodeSearchState.

(** [#nodeCache] is an array indexed by the cursor; a state object is
    named by the slot that holds it. *)
Record t := mk {
  currentInCache : nat;
  nodeCache : gmap nat NodeSearchState.t;
}.

Definition new : t := mk 0 ∅.

Definition reset (p : t) : t := mk 0 (nodeCache p).

Definition newState (node : nref) (p : t) : sref * t :=
  let cursor := currentInCache p in
  let cache :=
    match nodeCache p !! cursor with
    | Some cached =>
        let cached := set_node node cached in
        let cached := set_parent None cached in
        let cached := set_closed false cached in
        let cached := set_open 0 cached in
        let cached := set_distanceToSource Infinity cached in
        let cached := set_fScore Infinity cached in
        let cached := set_heapIndex (-1) cached in
        <[cursor := cached]> (nodeCache p)
    | None =>
        <[cursor := NodeSearchState.new node]> (nodeCache p)
    end in
  (cursor, mk (S cursor) cache).

(** Reading and updating the state object in a slot. *)
Definition state (s : sref) (p : t) : NodeSearchState.t :=
  nodeCache p !!! s.
Definition update (s : sref) (f : NodeSearchState.t → NodeSearchState.t)
    (p : t) : t :=
  mk (currentInCache p) (alter f s (nodeCache p)).
End StatePool.

(** ** The frontier *)

(** Modelled from the spec: the frontier is a [BinaryHeap] of the
    @std/data-structures package, which is not among the sources; the spec
    describes a priority structure ordered by the comparator, from which
    [pop] takes the state the comparator orders first and onto which an
    improved state is pushed again (no decrease-key).  It is modelled as the
    array-backed binary heap of that package: [push] appends and sifts up,
    [pop] swaps the root with the last element, sifts the new root down
    over the shortened prefix and removes the last element.  The heap holds
    references to state objects, so the comparator reads their scores when
    it is called. *)

Module BinaryHeap.
Section heap.
Context (compare : sref → sref → num).

Definition swap (data : list sref) (a b : nat) : list sref :=
  let temp := data !!! a in
  <[b := temp]> (<[a := data !!! b]> data).

Definition getParentIndex (index : nat) : nat :=
  ((index + 1) / 2 - 1)%nat.

Fixpoint siftUp (fuel : nat) (data : list sref) (value : sref) (index : nat) :
    list sref :=
  match fuel with
  | O => data
  | S fuel =>
      let parent := getParentIndex index in
      if negb (bool_decide (index = 0%nat)) &&
         lt0 (compare value (data !!! parent))
      then siftUp fuel (swap data parent index) value parent
      else data
  end.

(** Modelled from the spec: [push(value)] of the external heap. *)
Definition push (value : sref) (data : list sref) : list sref :=
  siftUp (S (length data)) (data ++ [value]) value (length data).

Fixpoint siftDown (fuel : nat) (data : list sref) (size parent : nat) :
    list sref :=
  match fuel with
  | O => data
  | S fuel =>
      let right := (2 * (parent + 1))%nat in
      let left := (right - 1)%nat in
      if bool_decide (left < size)%nat then
        let greatestChild :=
          if bool_decide (right = size) ||
             le0 (compare (data !!! left) (data !!! right))
          then left else right in
        if lt0 (compare (data !!! greatestChild) (data !!! parent))
        then siftDown fuel (swap data parent greatestChild) size greatestChild
        else data
      else data
  end.

(** Modelled from the spec: [pop()] of the external heap; [undefined] on
    an empty heap. *)
Definition pop (data : list sref) : option sref * list sref :=
  match data with
  | [] => (None, [])
  | _ =>
      let size := (length data - 1)%nat in
      let data := swap data 0 size in
      let data := siftDown (length data) data size 0 in
      (last data, removelast data)
  end.
End heap.
End BinaryHeap.

(** ** The A* engine (astar.ts) *)

Section astar.
Context {NodeData LinkData : Type}.
Import NodeSearchState.

(** The callbacks receive the objects; they are given here the contents
    the objects have when the callback is called. *)
Record AstarOptions := mkOptions {
  blocked : Node.t NodeData → Node.t NodeData → Link.t LinkData → bool;
  blockedPath :
    NodeSearchState.t → NodeSearchState.t → Link.t LinkData → bool;
  heuristic : Node.t NodeData → Node.t NodeData → cost;
  distance : Node.t NodeData → Node.t NodeData → Link.t LinkData → cost;
  compare : NodeSearchState.t → NodeSearchState.t → num;
  oriented : bool;
}.

Definition defaultOptions : AstarOptions :=
  mkOptions
    (λ _ _ _, false)
    (λ _ _ _, false)
    (λ _ _, Fin 0)
    (λ _ _ _, Fin 1)
    (λ a b, cost_sub (fScore a) (fScore b))
    false.

(** What a call of [find] does: it returns an array of nodes or the
    [NO_PATH] symbol, or it throws.  [OutOfFuel] is the bound of the model's
    loops and has no counterpart in the program. *)
Inductive FindResult :=
  | Path (path : list nref)
  | NO_PATH
  | Error (message : string)
  | OutOfFuel.

(** The local variables of [find] that the loop changes, with the pool. *)
Record Search := mkSearch {
  pool : StatePool.t;
  openSet : list sref;
  nodeState : gmap NodeId sref;
}.

Definition compareStates (opts : AstarOptions) (p : StatePool.t)
    (a b : sref) : num :=
  compare opts (StatePool.state a p) (StatePool.state b p).

Definition goalReached (searchState : NodeSearchState.t) (targetNode : nref) :
    bool :=
  bool_decide (node searchState = targetNode).

Fixpoint reconstructFrom (fuel : nat) (p : StatePool.t)
    (parent : option sref) : option (list nref) :=
  match parent with
  | None => Some []
  | Some s =>
      match fuel with
      | O => None
      | S fuel =>
          let st := StatePool.state s p in
          (node st ::.) <$> reconstructFrom fuel p (NodeSearchState.parent st)
      end
  end.

(** The walk along [parent] visits each state object at most once, so the
    number of objects handed out bounds it. *)
Definition reconstructPath (p : StatePool.t) (searchState : sref) :
    option (list nref) :=
  let st := StatePool.state searchState p in
  (node st ::.) <$>
    reconstructFrom (StatePool.currentInCache p) p (NodeSearchState.parent st).

(** [nodeState.get(otherNode.id)], with a new state on a miss. *)
Definition stateOf (g : Graph NodeData LinkData) (otherNode : nref)
    (st : Search) : sref * Search :=
  let otherId := Node.id (nodeObj otherNode g) in
  match nodeState st !! otherId with
  | Some s => (s, st)
  | None =>
      let '(s, p) := StatePool.newState otherNode (pool st) in
      (s, mkSearch p (openSet st) (<[otherId := s]> (nodeState st)))
  end.

(** The body of the [for ... of linkedNodes(...)] loop.  The loop header
    [const [otherNode, link]] binds the first two components of the triple
    that [linkedNodes] yields. *)
Definition visit (g : Graph NodeData LinkData) (opts : AstarOptions)
    (to : nref) (cameFrom : sref) (st : Search)
    (yielded : nref * lref * nref) : Search :=
  let '(otherNode, link, _) := yielded in
  let '(otherSearchState, st) := stateOf g otherNode st in
  let other := StatePool.state otherSearchState (pool st) in
  let came := StatePool.state cameFrom (pool st) in
  if closed other then st
  else if blocked opts (nodeObj otherNode g) (nodeObj (node came) g)
            (linkObj link g) then st
  else if blockedPath opts came other (linkObj link g) then st
  else
    let tentativeDistance :=
      cost_add (distanceToSource came)
        (distance opts (nodeObj otherNode g) (nodeObj (node came) g)
           (linkObj link g)) in
    if cost_ge tentativeDistance (distanceToSource other) then st
    else
      let p := StatePool.update otherSearchState
                 (set_parent (Some cameFrom)) (pool st) in
      let p := StatePool.update otherSearchState
                 (set_distanceToSource tentativeDistance) p in
      let p := StatePool.update otherSearchState
                 (λ s, set_fScore
                         (cost_add tentativeDistance
                            (heuristic opts (nodeObj (node s) g)
                               (nodeObj to g))) s) p in
      mkSearch p
        (BinaryHeap.push (compareStates opts p) otherSearchState (openSet st))
        (nodeState st).

(** The [while (openSet.length > 0)] loop; [fuel] bounds the number of
    iterations. *)
Fixpoint expand (fuel : nat) (g : Graph NodeData LinkData)
    (opts : AstarOptions) (to : nref) (st : Search) :
    FindResult * StatePool.t :=
  if bool_decide (0 < length (openSet st))%nat then
    match fuel with
    | O => (OutOfFuel, pool st)
    | S fuel =>
        match BinaryHeap.pop (compareStates opts (pool st)) (openSet st) with
        | (None, _) => (Error "Where we came from?", pool st)
        | (Some cameFrom, rest) =>
            if goalReached (StatePool.state cameFrom (pool st)) to then
              (match reconstructPath (pool st) cameFrom with
               | Some path => Path path
               | None => OutOfFuel
               end, pool st)
            else
              let p := StatePool.update cameFrom (set_closed true) (pool st) in
              let st := mkSearch p rest (nodeState st) in
              let '(yielded, thrown) :=
                linkedNodes
                  (Node.id (nodeObj (node (StatePool.state cameFrom p)) g))
                  (oriented opts) g in
              let st := foldl (visit g opts to cameFrom) st yielded in
              match thrown with
              | Some message => (Error message, pool st)
              | None => expand fuel g opts to st
              end
        end
    end
  else (NO_PATH, pool st).

Definition find (fuel : nat) (g : Graph NodeData LinkData)
    (opts : AstarOptions) (fromId toId : NodeId) (p : StatePool.t) :
    FindResult * StatePool.t :=
  match getNode fromId g with
  | None => (Error (idString fromId +:+ " is not defined in this graph"), p)
  | Some from =>
      match getNode toId g with
      | None => (Error (idString toId +:+ " is not defined in this graph"), p)
      | Some to =>
          let p := StatePool.reset p in
          let '(startNode, p) := StatePool.newState from p in
          let nodeState : gmap NodeId sref := {[ fromId := startNode ]} in
          let p := StatePool.update startNode
                     (set_fScore (heuristic opts (nodeObj from g)
                                    (nodeObj to g))) p in
          let p := StatePool.update startNode
                     (set_distanceToSource (Fin 0)) p in
          let openSet :=
            BinaryHeap.push (compareStates opts p) startNode [] in
          let p := StatePool.update startNode (set_open 1) p in
          expand fuel g opts to (mkSearch p openSet nodeState)
      end
  end.

End astar.

Arguments AstarOptions : clear implicits.

(** ** Public calls and the graphs they build *)

Section calls.
Context {NodeData LinkData : Type}.

Local Abbreviation Graph := (Graph NodeData LinkData).
Local Abbreviation M := (M NodeData LinkData).

(** The calls a client can make on a graph; [NewLink] is a client's own
    [new Link(...)], which creates an object the graph does not know. *)
Inductive Call :=
  | AddNode (nodeId : NodeId) (data : option NodeData)
  | RemoveNode (nodeId : NodeId)
  | AddLink (fromId toId : NodeId) (data : option LinkData)
  | RemoveLink (arg : LinkArg)
  | RemoveLinkInstance (link : lref)
  | Clear
  | On
  | NewLink (fromId toId : NodeId) (data : option LinkData)
      (id : option string).

(** The graph after a call (a call that throws leaves it as it is). *)
Definition run (c : Call) (g : Graph) : Graph :=
  match c with
  | AddNode nodeId data => (addNode nodeId data g).2
  | RemoveNode nodeId => (removeNode nodeId g).2
  | AddLink fromId toId data => (addLink fromId toId data g).2
  | RemoveLink arg => (removeLink arg g).2
  | RemoveLinkInstance link => (removeLinkInstance link g).2
  | Clear => (clear g).2
  | On => (on g).2
  | NewLink fromId toId data id => (newLink fromId toId data id g).2
  end.

(** A Link argument is an object that exists. *)
Definition callOk (c : Call) (g : Graph) : Prop :=
  match c with
  | RemoveLink (ByLink link) | RemoveLinkInstance link =>
      (link < length (linkObjs g))%nat
  | _ => True
  end.

Definition runAll (cs : list Call) (g : Graph) : Graph :=
  foldl (λ g c, run c g) g cs.

Inductive reachable : Graph → Prop :=
  | reachable_new multi : reachable (newGraph multi)
  | reachable_run c g : reachable g → callOk c g → reachable (run c g).

(** *** Consistency of the maps with the objects they hold *)

Definition nodesConsistent (g : Graph) : Prop :=
  ∀ k r, JsMap.get k (nodes g) = Some r →
    ∃ n, nodeObjs g !! r = Some n ∧ Node.id n = k.

Definition linksConsistent (g : Graph) : Prop :=
  ∀ s r, JsMap.get s (links g) = Some r →
    ∃ l, linkObjs g !! r = Some l ∧ Link.id l = s.

(** Every link in the link set of a node object is a live reference. *)
Definition linkSetsLive (g : Graph) : Prop :=
  ∀ r n ls l, nodeObjs g !! r = Some n → Node.links n = Some ls → l ∈ ls →
    (l < length (linkObjs g))%nat.

(** No modification is in progress and no change waits for its batch. *)
Definition quiescent (g : Graph) : Prop :=
  suspendEvents g = 0 ∧ changes g = [].

(** Every neighbour enumeration runs to its end: each incident link of
    each node resolves its other endpoint. *)
Definition enumerable (oriented : bool) (g : Graph) : Prop :=
  ∀ k, (linkedNodes k oriented g).2 = None.

(** [connected g oriented a b]: node [b] can be reached from node [a] along
    the triples that [linkedNodes] yields. *)
Inductive connected (g : Graph) (oriented : bool) : nref → nref → Prop :=
  | connected_here n : connected g oriented n n
  | connected_step n link m k :
      (n, link, m) ∈ (linkedNodes (Node.id (nodeObj n g)) oriented g).1 →
      connected g oriented m k →
      connected g oriented n k.

(** [hops g oriented n a b]: [b] is within [n] links of [a]. *)
Fixpoint hops (g : Graph) (oriented : bool) (n : nat) (a b : nref) : bool :=
  bool_decide (a = b) ||
  match n with
  | O => false
  | S n =>
      existsb (λ y : nref * lref * nref, hops g oriented n y.2 b)
        (linkedNodes (Node.id (nodeObj a g)) oriented g).1
  end.

(** *** Notification bookkeeping *)

(** The graph as it is inside one more enclosing modification. *)
Definition hold (g : Graph) : Graph :=
  set_suspendEvents (suspendEvents g + 1) g.

(** Two runs of the same method, [g] at some nesting depth and [h] one
    level deeper, are compared through relations on their graphs:
    [related R R' m] says that [m] takes graphs related by [R] to the same
    result and to graphs related by [R']. *)
Definition related {A} (R R' : Graph → Graph → Prop) (m : M A) : Prop :=
  ∀ g h, R g h → (m g).1 = (m h).1 ∧ R' (m g).2 (m h).2.

(** Before a public call: [g] is at rest, [h] is [g] inside an enclosing
    modification; [E] is what the listeners have received. *)
Definition idle (E : list (list Change)) (g h : Graph) : Prop :=
  suspendEvents g = 0 ∧ changes g = [] ∧ emitted g = E ∧ h = hold g.

(** In the middle of a call, at depth [n]: nothing was emitted. *)
Definition held (n : Z) (E : list (list Change)) (g h : Graph) : Prop :=
  suspendEvents g = n ∧ emitted g = E ∧ h = hold g.

(** After the outermost [#exitModification]: [g] is [h] with its pending
    changes delivered. *)
Definition flushed (E : list (list Change)) (g h : Graph) : Prop :=
  suspendEvents h = 1 ∧ emitted h = E ∧ g = (exitModification h).2.

(** A step that neither reads nor writes the nesting depth and emits
    nothing. *)
Definition plain {A} (m : M A) : Prop :=
  ∀ g, suspendEvents (m g).2 = suspendEvents g ∧
       emitted (m g).2 = emitted g ∧
       m (hold g) = ((m g).1, hold (m g).2).

(** A public method: batched at rest, silent inside a modification. *)
Definition batched {A} (m : M A) : Prop :=
  (∀ E, related (idle E) (flushed E) m) ∧
  (∀ n E, 1 ≤ n → related (held n E) (held n E) m).

Definition sameNodes (g g' : Graph) : Prop :=
  nodes g' = nodes g ∧ nodeObjs g' = nodeObjs g.

Definition sameLinks (g g' : Graph) : Prop :=
  links g' = links g ∧ linkObjs g' = linkObjs g.

Definition preserves {A} (P : Graph → Prop) (m : M A) : Prop :=
  ∀ g, P g → P (m g).2.

Definition hoare {A} (P : Graph → Prop) (m : M A) (Q : A → Graph → Prop) :
    Prop :=
  ∀ g, P g → Q (m g).1 (m g).2.

End calls.

Arguments Call : clear implicits.

(** ** Graphs used as examples *)

Section call_sequences.
Context {NodeData LinkData : Type}.

Fixpoint callsOk (cs : list (Call NodeData LinkData))
    (g : Graph NodeData LinkData) : Prop :=
  match cs with
  | [] => True
  | c :: cs => callOk c g ∧ callsOk cs (run c g)
  end.
End call_sequences.

(** Nodes 1, 2, 3 and the links (1,2) and (2,3). *)
Definition chain : Graph string string :=
  runAll [AddLink (NumId 1) (NumId 2) None;
          AddLink (NumId 2) (NumId 3) None] (newGraph false).

(** A multigraph to which the pair (0,5) is added twice. *)
Definition doubled : Graph string string :=
  runAll [AddLink (NumId 0) (NumId 5) (Some "first");
          AddLink (NumId 0) (NumId 5) (Some "second")] (newGraph true).

(** ... from which node 0 is then removed, and node 7 added. *)
Definition stranded : Graph string string :=
  runAll [RemoveNode (NumId 0); AddNode (NumId 7) None] doubled.

(** An empty graph with a listener. *)
Definition watched : Graph string string :=
  run On (newGraph false).

(** A graph without listener that holds node 1 with a payload. *)
Definition unwatched : Graph string string :=
  run (AddNode (NumId 1) (Some "hello")) (newGraph false).



(** ** Further notions used in the properties *)

(** [parentChain p s path]: [path] lists the nodes of the states met by
    following [parent] from the state [s] up to a state without parent. *)
Inductive parentChain (p : StatePool.t) : sref → list nref → Prop :=
  | parentChain_root s :
      NodeSearchState.parent (StatePool.state s p) = None →
      parentChain p s [NodeSearchState.node (StatePool.state s p)]
  | parentChain_step s s' path :
      NodeSearchState.parent (StatePool.state s p) = Some s' →
      parentChain p s' path →
      parentChain p s (NodeSearchState.node (StatePool.state s p) :: path).

(** A pool in which state 2 came from state 1, and state 1 from state 0. *)
Definition threeStates : StatePool.t :=
  StatePool.mk 3
    {[ 0%nat := NodeSearchState.mk 10 None true 1 (Fin 0) (Fin 0) (-1);
       1%nat := NodeSearchState.mk 11 (Some 0%nat) true 1 (Fin 1) (Fin 1) (-1);
       2%nat := NodeSearchState.mk 12 (Some 1%nat) false 1 (Fin 2) (Fin 2) 0 ]}.

(** [avoids c s]: the character [c] does not occur in [s]. *)
Fixpoint avoids (c : Ascii.ascii) (s : string) : Prop :=
  match s with
  | EmptyString => True
  | String c' s' => c' ≠ c ∧ avoids c s'
  end.


Section structure.
Context {NodeData LinkData : Type}.
Implicit Types (g : Graph NodeData LinkData).

(** The keys of the node map are pairwise different. *)
Definition nodeKeysUnique g : Prop :=
  NoDup (JsMap.keys (nodes g)).

(** The keys of the link map are pairwise different. *)
Definition linkKeysUnique g : Prop :=
  NoDup (JsMap.keys (links g)).

(** No link set holds a link twice. *)
Definition linkSetsUnique g : Prop :=
  ∀ r n ls, nodeObjs g !! r = Some n → Node.links n = Some ls → NoDup ls.

(** As long as no listener is registered, no change is recorded and
    nothing is emitted. *)
Definition silent g : Prop :=
  listening g = false → changes g = [] ∧ emitted g = [].

Definition sameEvents g g' : Prop :=
  listening g' = listening g ∧ changes g' = changes g ∧
  emitted g' = emitted g.

(** The link [link] is in the link set of the node stored under [k]. *)
Definition attachedAt g (link : lref) (k : NodeId) : Prop :=
  ∃ n, getNode k g = Some n ∧
       link ∈ default ([] : list lref) (Node.links (nodeObj n g)).

(** Every link of the link map is in the link sets of the nodes stored
    under its two endpoints. *)
Definition attached g : Prop :=
  ∀ s link, JsMap.get s (links g) = Some link →
    attachedAt g link (Link.fromId (linkObj link g)) ∧
    attachedAt g link (Link.toId (linkObj link g)).

(** The maps agree with the objects they hold, and the link map with the
    link sets. *)
Definition wellFormed g : Prop :=
  nodesConsistent g ∧ linksConsistent g ∧ attached g.

(** [g'] has the node map of [g], and every node object has the
    identifier it has in [g]. *)
Definition keepsNodes g g' : Prop :=
  nodes g' = nodes g ∧ ∀ r, Node.id (nodeObj r g') = Node.id (nodeObj r g).

(** [g'] keeps the nodes of [g] and what their link sets hold, and the
    Link objects of [g] with their endpoints. *)
Definition extends g g' : Prop :=
  (∀ k n, getNode k g = Some n → getNode k g' = Some n) ∧
  (∀ n, is_Some (nodeObjs g !! n) →
     is_Some (nodeObjs g' !! n) ∧
     ∀ l, l ∈ default [] (Node.links (nodeObj n g)) →
          l ∈ default [] (Node.links (nodeObj n g'))) ∧
  (∀ r, is_Some (linkObjs g !! r) →
     is_Some (linkObjs g' !! r) ∧
     Link.fromId (linkObj r g') = Link.fromId (linkObj r g) ∧
     Link.toId (linkObj r g') = Link.toId (linkObj r g)).

(** The link sets of [g'] hold what those of [g] hold, without [link]. *)
Definition detached (link : lref) g g' : Prop :=
  ∀ n l,
    (l ∈ default [] (Node.links (nodeObj n g')) →
     l ∈ default [] (Node.links (nodeObj n g))) ∧
    (l ≠ link → l ∈ default [] (Node.links (nodeObj n g)) →
     l ∈ default [] (Node.links (nodeObj n g'))).
End structure.

(** ** Integer arithmetic (math.ts)

    The functions of math.ts are generic in [number | bigint]; they are
    embedded at the type [bigint], whose values are the integers: [x / y]
    rounds toward zero and [x % y] has the sign of [x] ([Z.quot] and
    [Z.rem]), and both throw a RangeError when [y] is [0n].  A loop runs on
    [fuel]; [None] says that the fuel ran out. *)

Module Math.

(** [mod(x, y)] *)
Definition mod_ (x y : Z) : Completion Z :=
  if bool_decide (y = 0) then Throw "Division by zero"
  else Return (Z.rem (Z.rem x y + y) y).

(** [x / y] on bigints. *)
Definition quotient (x y : Z) : Completion Z :=
  if bool_decide (y = 0) then Throw "Division by zero"
  else Return (Z.quot x y).

(** [div(x, y)] *)
Definition div (x y : Z) : Completion Z :=
  match quotient x y with
  | Throw message => Throw message
  | Return q =>
      match mod_ x y with
      | Throw message => Throw message
      | Return r =>
          if bool_decide (q < 0) && bool_decide (r > 0)
          then Return (q - 1) else Return q
      end
  end.

(** [divmod(x, y)] *)
Definition divmod (x y : Z) : Completion (Z * Z) :=
  match quotient x y with
  | Throw message => Throw message
  | Return q =>
      match mod_ x y with
      | Throw message => Throw message
      | Return r =>
          if bool_decide (q < 0) && bool_decide (r > 0)
          then Return (q - 1, r) else Return (q, r)
      end
  end.

Definition abs (a : Z) : Z := if bool_decide (a < 0) then - a else a.

Definition sign (a : Z) : Z :=
  if bool_decide (a = 0) then 0
  else if bool_decide (a < 0) then -1 else 1.

(** The [while (b != 0)] loop of [egcd]. *)
Fixpoint egcdLoop (fuel : nat) (a b s0 s1 t0 t1 : Z) :
    option (Completion (Z * Z * Z)) :=
  if bool_decide (b ≠ 0) then
    match fuel with
    | O => None
    | S fuel =>
        match divmod a b with
        | Throw message => Some (Throw message)
        | Return (q, r) =>
            egcdLoop fuel b r s1 (s0 - q * s1) t1 (t0 - q * t1)
        end
    end
  else Some (Return (a, s1, t1)).

(** [egcd(a, b)] *)
Definition egcd (fuel : nat) (a b : Z) : option (Completion (Z * Z * Z)) :=
  let '(s0, s1) := (1, 0) in
  let '(t0, t1) := (s1, s0) in
  if bool_decide (a = 0) then Some (Return (b, s1, t1))
  else
    let sa := sign a in
    let sb := sign b in
    match egcdLoop fuel (abs a) (abs b) s0 s1 t0 t1 with
    | Some (Return (a, s1, t1)) => Some (Return (a, sa * s1, sb * t1))
    | other => other
    end.

(** The [while (b != 0)] loop of [gcd]. *)
Fixpoint gcdLoop (fuel : nat) (a b : Z) : option (Completion Z) :=
  if bool_decide (b ≠ 0) then
    match fuel with
    | O => None
    | S fuel =>
        match mod_ a b with
        | Throw message => Some (Throw message)
        | Return r => gcdLoop fuel b r
        end
    end
  else Some (Return a).

(** [gcd(...n)]; [reduce] without initial value starts from the first
    element. *)
Definition gcd (fuel : nat) (n : list Z) : option (Completion Z) :=
  match n with
  | [] => Some (Throw "Invalid input")
  | [a] => Some (Return a)
  | [a; b] => gcdLoop fuel a b
  | first :: rest =>
      foldl (λ acc v,
               match acc with
               | Some (Return t) => gcdLoop fuel t v
               | other => other
               end)
        (Some (Return first)) rest
  end.

(** [lcm(...n)] *)
Definition lcm (fuel : nat) (n : list Z) : option (Completion Z) :=
  foldl (λ acc v,
           match acc with
           | Some (Return t) =>
               match gcd fuel [t; v] with
               | Some (Return g) => Some (quotient (t * v) g)
               | other => other
               end
           | other => other
           end)
    (Some (Return 1)) n.

End Math.

(** The pairs on which the quotient that [div] and [divmod] compute is
    not the floor of [x / y]. *)
Definition offFloor (x y : Z) : bool :=
  (bool_decide (0 < y) && bool_decide (- y < x < 0)) ||
  (bool_decide (y < 0) && bool_decide (0 < x) &&
   bool_decide (x `mod` y ≠ 0)).

(** ** The ring buffer (ring.ts)

    [length] is a natural number.  A slot of [#buf] that was never written
    holds [undefined], modelled by [None]. *)

Module Ring.
Section ring.
Context {T : Type}.

Record t := mk {
  length : nat;
  buf : list (option T);
  count : nat;
}.

(** [new Ring(length)] *)
Definition new (length : nat) : t :=
  mk length (replicate length None) 0.

(** [push(val)].  With [length] 0 the index [count % 0] is NaN and the
    assignment leaves the elements of the array as they are. *)
Definition push (val : T) (r : t) : t :=
  mk (length r)
     (if bool_decide (length r = 0%nat) then buf r
      else <[(count r `mod` length r)%nat := Some val]> (buf r))
     (S (count r)).

(** [get()].  With [length] 0, [pos] is NaN: [slice(NaN)] is the whole
    array and [slice(0, NaN)] is empty. *)
Definition get (r : t) : list (option T) :=
  if bool_decide (count r < length r)%nat then take (count r) (buf r)
  else if bool_decide (length r = 0%nat)
  then (drop 0 (buf r) ++ take 0 (buf r))%list
  else
    let pos := (count r `mod` length r)%nat in
    if bool_decide (pos = 0%nat) then buf r
    else (drop pos (buf r) ++ take pos (buf r))%list.

Definition size (r : t) : nat :=
  if bool_decide (length r < count r)%nat then length r else count r.

Definition full (r : t) : bool :=
  bool_decide (length r ≤ count r)%nat.
End ring.
Arguments t : clear implicits.
End Ring.

(** * Properties *)

(** ** Maps and sets *)

Section jsmap_facts.
Context {K V : Type} `{EqDecision K}.
Implicit Types (m : list (K * V)) (k : K) (v : V).

Lemma get_set_eq m k v : JsMap.get k (JsMap.set k v m) = Some v.
Proof.
  induction m as [|[k' v'] m IH]; simpl.
  - by rewrite decide_True.
  - destruct (decide (k = k')) as [->|Hne]; simpl.
    + by rewrite decide_True.
    + by rewrite decide_False.
Qed.

Lemma get_set_ne m k k' v :
  k ≠ k' → JsMap.get k' (JsMap.set k v m) = JsMap.get k' m.
Proof.
  intros Hne. induction m as [|[k0 v0] m IH]; simpl.
  - by rewrite decide_False.
  - destruct (decide (k = k0)) as [->|Hne0]; simpl.
    + by rewrite !decide_False.
    + by rewrite IH.
Qed.

Lemma get_delete_eq m k : JsMap.get k (JsMap.delete k m) = None.
Proof.
  induction m as [|[k' v'] m IH]; simpl; [done|].
  destruct (decide (k = k')) as [->|Hne]; simpl; [done|].
  by rewrite decide_False.
Qed.

Lemma get_delete_ne m k k' :
  k ≠ k' → JsMap.get k' (JsMap.delete k m) = JsMap.get k' m.
Proof.
  intros Hne. induction m as [|[k0 v0] m IH]; simpl; [done|].
  destruct (decide (k = k0)) as [->|Hne0]; simpl.
  - by rewrite decide_False.
  - by rewrite IH.
Qed.

Lemma get_delete_Some m k k' v :
  JsMap.get k' (JsMap.delete k m) = Some v → JsMap.get k' m = Some v.
Proof.
  destruct (decide (k = k')) as [->|Hne].
  - by rewrite get_delete_eq.
  - by rewrite get_delete_ne.
Qed.

Lemma size_set_present m k v :
  is_Some (JsMap.get k m) → JsMap.size (JsMap.set k v m) = JsMap.size m.
Proof.
  unfold JsMap.size. induction m as [|[k' v'] m IH]; simpl.
  - by intros [? ?].
  - destruct (decide (k = k')); simpl; [done|]. intros ?. by rewrite IH.
Qed.

Lemma size_set_absent m k v :
  JsMap.get k m = None → JsMap.size (JsMap.set k v m) = S (JsMap.size m).
Proof.
  unfold JsMap.size. induction m as [|[k' v'] m IH]; simpl; [done|].
  destruct (decide (k = k')); simpl; [done|]. intros ?. by rewrite IH.
Qed.

Lemma has_get m k : JsMap.has k m = bool_decide (is_Some (JsMap.get k m)).
Proof.
  unfold JsMap.has. destruct (JsMap.get k m).
  - by rewrite bool_decide_eq_true_2.
  - rewrite bool_decide_eq_false_2; [done|]. by intros [? ?].
Qed.
End jsmap_facts.

Lemma JsSet_delete_elem {A} `{EqDecision A} (x y : A) (s : list A) :
  y ∈ JsSet.delete x s ↔ y ≠ x ∧ y ∈ s.
Proof. unfold JsSet.delete. by rewrite list_elem_of_filter. Qed.

Lemma JsSet_delete_not_elem {A} `{EqDecision A} (x : A) (s : list A) :
  x ∉ JsSet.delete x s.
Proof. intros [Hne _]%JsSet_delete_elem. by apply Hne. Qed.

(** ** Numbers *)


Lemma cost_ge_refl a : cost_ge a a = true.
Proof. destruct a; simpl; [|done]. by rewrite bool_decide_eq_true_2. Qed.

(** ** The pool *)

Lemma newState_state node p :
  StatePool.state (StatePool.newState node p).1 (StatePool.newState node p).2
  = NodeSearchState.mk node None false 0 Infinity Infinity (-1).
Proof.
  unfold StatePool.newState, StatePool.state. simpl.
  destruct (StatePool.nodeCache p !! StatePool.currentInCache p);
    by rewrite lookup_total_insert_eq.
Qed.


Lemma state_update_ne s s' f p :
  s ≠ s' → StatePool.state s' (StatePool.update s f p) = StatePool.state s' p.
Proof.
  intros Hne. unfold StatePool.state, StatePool.update. simpl.
  by rewrite !lookup_total_alt, lookup_alter_ne.
Qed.


Lemma newState_eq node p :
  StatePool.newState node p =
  (StatePool.currentInCache p,
   StatePool.mk (S (StatePool.currentInCache p))
     (<[StatePool.currentInCache p := NodeSearchState.new node]>
        (StatePool.nodeCache p))).
Proof. unfold StatePool.newState. by destruct (_ !! _). Qed.

(** ** The search *)

Section search_facts.
Context {NodeData LinkData : Type}.
Implicit Types (g : Graph NodeData LinkData).
Implicit Types (opts : AstarOptions NodeData LinkData).
Import NodeSearchState.

Lemma nonOrientedLinks_first g node ls :
  Forall (λ y, y.1.1 = node) (nonOrientedLinks g node ls).1.
Proof.
  induction ls as [|l ls IH]; simpl; [constructor|].
  destruct (getNode _ g); simpl; [|constructor].
  destruct (nonOrientedLinks g node ls) as [ys e]; simpl in *.
  by constructor.
Qed.

Lemma orientedLinks_first g node ls :
  Forall (λ y, y.1.1 = node) (orientedLinks g node ls).1.
Proof.
  induction ls as [|l ls IH]; simpl; [constructor|].
  case_decide; [|done].
  destruct (getNode _ g); simpl; [|constructor].
  destruct (orientedLinks g node ls) as [ys e]; simpl in *.
  by constructor.
Qed.

Lemma linkedNodes_first g k oriented node :
  getNode k g = Some node →
  Forall (λ y, y.1.1 = node) (linkedNodes k oriented g).1.
Proof.
  intros Hk. unfold linkedNodes. rewrite Hk.
  destruct (Node.links _); [|constructor].
  destruct oriented; [apply orientedLinks_first|apply nonOrientedLinks_first].
Qed.

(** A neighbour whose state is closed is skipped. *)
Lemma visit_closed g opts to cameFrom st otherNode link third s :
  nodeState st !! Node.id (nodeObj otherNode g) = Some s →
  closed (StatePool.state s (pool st)) = true →
  visit g opts to cameFrom st (otherNode, link, third) = st.
Proof.
  intros Hs Hc. unfold visit, stateOf. rewrite Hs. simpl. by rewrite Hc.
Qed.

Lemma foldl_visit_closed g opts to cameFrom st ys node s :
  Forall (λ y, y.1.1 = node) ys →
  nodeState st !! Node.id (nodeObj node g) = Some s →
  closed (StatePool.state s (pool st)) = true →
  foldl (visit g opts to cameFrom) st ys = st.
Proof.
  intros Hys Hs Hc. induction Hys as [|[[n l] t] ys Hy _ IH]; [done|].
  simpl in Hy. subst n. cbn [foldl].
  by rewrite (visit_closed _ _ _ _ _ _ _ _ s).
Qed.

Lemma nodeObj_consistent g k r :
  nodesConsistent g → getNode k g = Some r → Node.id (nodeObj r g) = k.
Proof.
  intros Hg Hk. destruct (Hg k r Hk) as (n & Hn & Hid).
  unfold nodeObj. by rewrite (list_lookup_total_correct _ _ _ Hn).
Qed.

(** The result of [find] when both identifiers name nodes. *)
Lemma find_result fuel g opts a b p ra rb :
  nodesConsistent g → getNode a g = Some ra → getNode b g = Some rb →
  (find (S fuel) g opts a b p).1 =
    if decide (ra = rb) then Path [ra]
    else match (linkedNodes a (oriented opts) g).2 with
         | Some message => Error message
         | None => NO_PATH
         end.
Proof.
  intros Hg Ha Hb. unfold find. rewrite Ha, Hb, newState_eq. simpl.
  unfold StatePool.update, StatePool.reset. simpl.
  rewrite !alter_insert_eq. simpl.
  unfold BinaryHeap.pop. simpl.
  unfold goalReached, StatePool.state. simpl.
  rewrite lookup_total_insert_eq. simpl.
  destruct (decide (ra = rb)) as [->|Hne].
  - rewrite bool_decide_eq_true_2 by done.
    unfold reconstructPath, StatePool.state. simpl.
    by rewrite lookup_total_insert_eq.
  - rewrite bool_decide_eq_false_2 by done.
    rewrite lookup_total_insert_eq. simpl.
    rewrite (nodeObj_consistent g a ra) by done.
    pose proof (linkedNodes_first g a (oriented opts) ra Ha) as Hfirst.
    destruct (linkedNodes a (oriented opts) g) as [ys thrown]. simpl in *.
    rewrite (foldl_visit_closed _ _ _ _ _ _ ra 0%nat Hfirst).
    + destruct thrown; [done|]. by destruct fuel.
    + simpl. rewrite (nodeObj_consistent g a ra) by done.
      apply lookup_singleton_eq.
    + unfold StatePool.state. simpl. by rewrite lookup_total_insert_eq.
Qed.

End search_facts.

(** ** The graph store: invariants of the public calls *)

Section graph_facts.
Context {NodeData LinkData : Type}.
Local Abbreviation Graph := (Graph NodeData LinkData).
Local Abbreviation M := (M NodeData LinkData).
Implicit Types (g : Graph).

Lemma preserves_bind {A B} (P : Graph → Prop) (m : M A) (k : A → M B) :
  preserves P m → (∀ a, preserves P (k a)) → preserves P (m ≫= k).
Proof. intros Hm Hk g HP. apply Hk, Hm, HP. Qed.

Lemma preserves_ret {A} (P : Graph → Prop) (a : A) :
  preserves P (mret a : M A).
Proof. by intros g HP. Qed.

Lemma preserves_gets {A} (P : Graph → Prop) (f : Graph → A) :
  preserves P (gets f).
Proof. by intros g HP. Qed.

Lemma preserves_forEach {A B} (P : Graph → Prop) (f : A → M B) l :
  (∀ x, preserves P (f x)) → preserves P (forEach f l).
Proof.
  intros Hf. induction l as [|x l IH]; simpl.
  - apply preserves_ret.
  - apply preserves_bind; [apply Hf|by intros _].
Qed.

Lemma nodesConsistent_same g g' :
  sameNodes g g' → nodesConsistent g → nodesConsistent g'.
Proof. intros [Hn Ho] Hg k r. rewrite Hn, Ho. apply Hg. Qed.

Lemma same_enter g : sameNodes g (enterModification g).2.
Proof. done. Qed.

Lemma same_exit g : sameNodes g (exitModification g).2.
Proof. unfold exitModification. by case_match. Qed.

Lemma same_recordNode node ct g : sameNodes g (recordNodeChange node ct g).2.
Proof. unfold recordNodeChange. by case_match. Qed.

Lemma same_recordLink link ct g : sameNodes g (recordLinkChange link ct g).2.
Proof. unfold recordLinkChange. by case_match. Qed.

Lemma nodesConsistent_updNode r f :
  (∀ n, Node.id (f n) = Node.id n) →
  preserves nodesConsistent (updNode r f : M unit).
Proof.
  intros Hf g Hg k r' Hk. simpl in *.
  destruct (Hg k r' Hk) as (n & Hn & Hid).
  destruct (decide (r = r')) as [->|Hne].
  - exists (f n). by rewrite list_lookup_alter_eq, Hn, Hf.
  - exists n. by rewrite list_lookup_alter_ne.
Qed.

Lemma nodesConsistent_delete k :
  preserves nodesConsistent
    (modify (λ g, set_nodes (JsMap.delete k (nodes g)) g) : M unit).
Proof. intros g Hg k' r Hk. simpl in *. eapply Hg, get_delete_Some, Hk. Qed.

Lemma nodesConsistent_newNode nodeId data :
  preserves nodesConsistent
    (node ← newNode nodeId data;
     recordNodeChange node CtAdd ;;
     modify (λ g, set_nodes (JsMap.set nodeId node (nodes g)) g) ;;
     mret node : M nref).
Proof.
  intros g Hg k r. unfold mbind, M_bind, mret, M_ret, modify. simpl.
  destruct (same_recordNode (length (nodeObjs g)) CtAdd
              (set_nodeObjs (nodeObjs g ++ [Node.mk nodeId None data]) g))
    as [-> ->]. simpl.
  destruct (decide (nodeId = k)) as [->|Hne].
  - rewrite get_set_eq. intros [= <-].
    exists (Node.mk k None data). split; [|done].
    by rewrite lookup_app_r, Nat.sub_diag.
  - rewrite get_set_ne by done. intros Hk.
    destruct (Hg k r Hk) as (n & Hn & Hid). exists n. split; [|done].
    by apply lookup_app_l_Some.
Qed.

Lemma nodesConsistent_frame {A} (m : M A) :
  (∀ g, sameNodes g (m g).2) → preserves nodesConsistent m.
Proof. intros Hm g. apply nodesConsistent_same, Hm. Qed.

(** One step of a proof that a method preserves [nodesConsistent], chosen
    by the head of the method's code. *)
Ltac preserves_step known :=
  lazymatch goal with
  | |- preserves _ (newNode _ _ ≫= _) => apply nodesConsistent_newNode
  | |- preserves _ (_ ≫= _) => apply preserves_bind; [|intros ?]
  | |- preserves _ (mret _) => apply preserves_ret
  | |- preserves _ (gets _) => apply preserves_gets
  | |- preserves _ (forEach _ _) =>
      apply preserves_forEach; intros ?; cbv beta
  | |- preserves _ (match ?x with _ => _ end) => destruct x
  | |- preserves _ enterModification =>
      apply nodesConsistent_frame; intros ?; apply same_enter
  | |- preserves _ exitModification =>
      apply nodesConsistent_frame; intros ?; apply same_exit
  | |- preserves _ (recordNodeChange _ _) =>
      apply nodesConsistent_frame; intros ?; apply same_recordNode
  | |- preserves _ (recordLinkChange _ _) =>
      apply nodesConsistent_frame; intros ?; apply same_recordLink
  | |- preserves _ (updNode _ _) =>
      apply nodesConsistent_updNode; by intros [? [?|] ?]
  | |- preserves _ (modify (λ g, set_nodes (JsMap.delete _ _) _)) =>
      apply nodesConsistent_delete
  | |- preserves _ (modify _) =>
      apply nodesConsistent_frame; intros ?; done
  | |- _ => known
  end.

Lemma nodesConsistent_addNode nodeId data :
  preserves nodesConsistent (addNode nodeId data : M nref).
Proof.
  unfold addNode. repeat preserves_step idtac.
Qed.

Lemma nodesConsistent_removeLinkInstance link :
  preserves nodesConsistent (removeLinkInstance link : M bool).
Proof.
  unfold removeLinkInstance, detachLink. repeat preserves_step idtac.
Qed.

Lemma nodesConsistent_removeNode nodeId :
  preserves nodesConsistent (removeNode nodeId : M bool).
Proof.
  unfold removeNode.
  repeat preserves_step ltac:(apply nodesConsistent_removeLinkInstance).
Qed.

Lemma same_createLink fromId toId data g :
  sameNodes g (createLink (NodeData:=NodeData) fromId toId data g).2.
Proof.
  unfold createLink, createUniqueLink, createSingleLink.
  unfold mbind, M_bind, mret, M_ret, gets, modify, updLink, newLink.
  simpl. repeat case_match; done.
Qed.

Lemma nodesConsistent_addLink fromId toId data :
  preserves nodesConsistent (addLink fromId toId data : M lref).
Proof.
  unfold addLink, getOrAddNode.
  repeat preserves_step
    ltac:(first [ apply nodesConsistent_addNode
                | apply nodesConsistent_frame; intros ?;
                  apply same_createLink ]).
Qed.

Lemma nodesConsistent_clear : preserves nodesConsistent (clear : M unit).
Proof.
  unfold clear.
  repeat preserves_step ltac:(apply nodesConsistent_removeNode).
Qed.

Lemma nodesConsistent_run c g :
  nodesConsistent g → nodesConsistent (run c g).
Proof.
  destruct c; simpl.
  - apply nodesConsistent_addNode.
  - apply nodesConsistent_removeNode.
  - apply nodesConsistent_addLink.
  - assert (preserves nodesConsistent (removeLink arg : M _)) as H;
      [|apply H].
    unfold removeLink.
    repeat preserves_step ltac:(apply nodesConsistent_removeLinkInstance).
  - apply nodesConsistent_removeLinkInstance.
  - apply nodesConsistent_clear.
  - by apply nodesConsistent_same.
  - by apply nodesConsistent_same.
Qed.

(** The same for the map of links. *)

Lemma hoare_bind {A B} (P : Graph → Prop) (Q : A → Graph → Prop)
    (R : B → Graph → Prop) (m : M A) (k : A → M B) :
  hoare P m Q → (∀ a, hoare (Q a) (k a) R) → hoare P (m ≫= k) R.
Proof. intros Hm Hk g HP. apply Hk, Hm, HP. Qed.

Lemma hoare_preserves {A} (P : Graph → Prop) (m : M A) :
  preserves P m → hoare P m (λ _, P).
Proof. done. Qed.

Lemma linksConsistent_same g g' :
  sameLinks g g' → linksConsistent g → linksConsistent g'.
Proof. intros [Hn Ho] Hg k r. rewrite Hn, Ho. apply Hg. Qed.

Lemma linksConsistent_frame {A} (m : M A) :
  (∀ g, sameLinks g (m g).2) → preserves linksConsistent m.
Proof. intros Hm g. apply linksConsistent_same, Hm. Qed.

Lemma linksConsistent_updLink r f :
  (∀ l, Link.id (f l) = Link.id l) →
  preserves linksConsistent (updLink r f : M unit).
Proof.
  intros Hf g Hg k r' Hk. simpl in *.
  destruct (Hg k r' Hk) as (l & Hl & Hid).
  destruct (decide (r = r')) as [->|Hne].
  - exists (f l). by rewrite list_lookup_alter_eq, Hl, Hf.
  - exists l. by rewrite list_lookup_alter_ne.
Qed.

Lemma linksConsistent_delete f :
  preserves linksConsistent
    (modify (λ g, set_links (JsMap.delete (f g) (links g)) g) : M unit).
Proof. intros g Hg k' r Hk. simpl in *. eapply Hg, get_delete_Some, Hk. Qed.

Lemma linksConsistent_newLink fromId toId data id :
  hoare linksConsistent (newLink fromId toId data id : M lref)
    (λ link g, linksConsistent g ∧ is_Some (linkObjs g !! link)).
Proof.
  intros g Hg. simpl. split.
  - intros k r Hk. destruct (Hg k r Hk) as (l & Hl & Hid).
    exists l. split; [|done]. by apply lookup_app_l_Some.
  - rewrite lookup_app_r, Nat.sub_diag by done. by eexists.
Qed.

Lemma same_exit_links g : sameLinks g (exitModification g).2.
Proof. unfold exitModification. by case_match. Qed.

Lemma same_recordNode_links node ct g :
  sameLinks g (recordNodeChange node ct g).2.
Proof. unfold recordNodeChange. by case_match. Qed.

Lemma same_recordLink_links link ct g :
  sameLinks g (recordLinkChange link ct g).2.
Proof. unfold recordLinkChange. by case_match. Qed.

Ltac links_step known :=
  lazymatch goal with
  | |- preserves _ (_ ≫= _) => apply preserves_bind; [|intros ?]
  | |- preserves _ (mret _) => apply preserves_ret
  | |- preserves _ (gets _) => apply preserves_gets
  | |- preserves _ (forEach _ _) =>
      apply preserves_forEach; intros ?; cbv beta
  | |- preserves _ (match ?x with _ => _ end) => destruct x
  | |- preserves _ exitModification =>
      apply linksConsistent_frame; intros ?; apply same_exit_links
  | |- preserves _ (recordNodeChange _ _) =>
      apply linksConsistent_frame; intros ?; apply same_recordNode_links
  | |- preserves _ (recordLinkChange _ _) =>
      apply linksConsistent_frame; intros ?; apply same_recordLink_links
  | |- preserves _ (updLink _ _) =>
      apply linksConsistent_updLink; by intros []
  | |- preserves _ (modify (λ g, set_links (JsMap.delete _ _) _)) =>
      apply (linksConsistent_delete (λ _, _))
  | |- preserves _ (modify (λ g, set_links _ _)) => known
  | |- preserves _ (modify _) =>
      apply linksConsistent_frame; intros ?; done
  | |- preserves _ enterModification =>
      apply linksConsistent_frame; intros ?; done
  | |- preserves _ (updNode _ _) =>
      apply linksConsistent_frame; intros ?; done
  | |- preserves _ (newNode _ _) =>
      apply linksConsistent_frame; intros ?; done
  | |- _ => known
  end.

Lemma linksConsistent_addNode nodeId data :
  preserves linksConsistent (addNode nodeId data : M nref).
Proof. unfold addNode. repeat links_step idtac. Qed.

Lemma linksConsistent_removeLinkInstance link :
  preserves linksConsistent (removeLinkInstance link : M bool).
Proof.
  unfold removeLinkInstance, detachLink. repeat links_step idtac.
Qed.

Lemma linksConsistent_removeNode nodeId :
  preserves linksConsistent (removeNode nodeId : M bool).
Proof.
  unfold removeNode.
  repeat links_step ltac:(apply linksConsistent_removeLinkInstance).
Qed.

Lemma linksConsistent_clear : preserves linksConsistent (clear : M unit).
Proof.
  unfold clear. repeat links_step ltac:(apply linksConsistent_removeNode).
Qed.

Lemma linksConsistent_removeLink arg :
  preserves linksConsistent (removeLink arg : M (Completion bool)).
Proof.
  unfold removeLink.
  repeat links_step ltac:(apply linksConsistent_removeLinkInstance).
Qed.

(** [createLink] returns a link object that exists. *)
Lemma linksConsistent_createLink fromId toId data :
  hoare linksConsistent (createLink fromId toId data : M lref)
    (λ link g, linksConsistent g ∧ is_Some (linkObjs g !! link)).
Proof.
  intros g Hg. unfold createLink.
  destruct (multigraph g).
  - unfold createUniqueLink.
    eapply (hoare_bind _ (λ _, linksConsistent)); [by intros ? ?| |done].
    intros isMultiEdge.
    eapply (hoare_bind _ (λ _, linksConsistent)); [by intros ? ?|].
    intros existing. case_match; [|apply linksConsistent_newLink].
    eapply (hoare_bind _ (λ _, linksConsistent)).
    { apply hoare_preserves. destruct isMultiEdge; repeat links_step idtac. }
    intros _. eapply (hoare_bind _ (λ _, linksConsistent)).
    { apply hoare_preserves. repeat links_step idtac. }
    intros _. eapply (hoare_bind _ (λ _, linksConsistent)); [by intros ? ?|].
    intros count. apply linksConsistent_newLink.
  - unfold createSingleLink. unfold mbind, M_bind, gets. cbn.
    destruct (JsMap.get _ (links g)) as [prev|] eqn:Hprev.
    + destruct (Hg _ _ Hprev) as (l & Hl & Hid). split.
      * by apply (linksConsistent_updLink prev (Link.setData data)).
      * cbn. rewrite list_lookup_alter_eq, Hl. by eexists.
    + by apply linksConsistent_newLink.
Qed.

Lemma linksConsistent_addLink fromId toId data :
  preserves linksConsistent (addLink fromId toId data : M lref).
Proof.
  unfold addLink, getOrAddNode.
  apply preserves_bind; [links_step idtac|intros _].
  apply preserves_bind;
    [repeat links_step ltac:(apply linksConsistent_addNode)|intros fromNode].
  apply preserves_bind;
    [repeat links_step ltac:(apply linksConsistent_addNode)|intros toNode].
  refine (hoare_bind _ _ (λ _, linksConsistent) _ _
            (linksConsistent_createLink _ _ _) _).
  intros link g [Hg [l Hl]].
  assert (∀ g', links g' =
            JsMap.set (Link.id (linkObj link g)) link (links g) →
          linkObjs g' = linkObjs g → linksConsistent g') as Hset.
  { intros g' Hlinks Hobjs k r. rewrite Hlinks, Hobjs.
    destruct (decide (Link.id (linkObj link g) = k)) as [<-|Hne].
    - rewrite get_set_eq. intros [= <-]. exists l. split; [done|].
      unfold linkObj. by rewrite (list_lookup_total_correct _ _ _ Hl).
    - rewrite get_set_ne by done. apply Hg. }
  unfold mbind, M_bind, gets, modify, updNode, mret, M_ret. cbn.
  apply (linksConsistent_same _ _ (same_exit_links _)).
  apply (linksConsistent_same _ _ (same_recordLink_links _ _ _)).
  apply Hset; by case_decide.
Qed.

Lemma linksConsistent_run c g :
  linksConsistent g → linksConsistent (run c g).
Proof.
  destruct c; simpl.
  - apply linksConsistent_addNode.
  - apply linksConsistent_removeNode.
  - apply linksConsistent_addLink.
  - apply linksConsistent_removeLink.
  - apply linksConsistent_removeLinkInstance.
  - apply linksConsistent_clear.
  - by apply linksConsistent_same.
  - apply linksConsistent_newLink.
Qed.

Lemma reachable_linksConsistent g : reachable g → linksConsistent g.
Proof.
  induction 1 as [multi|c g _ IH _].
  - by intros k r.
  - by apply linksConsistent_run.
Qed.

(** The link sets hold live references. *)

Lemma linkSetsLive_mono g g' :
  nodeObjs g' = nodeObjs g →
  (length (linkObjs g) ≤ length (linkObjs g'))%nat →
  linkSetsLive g → linkSetsLive g'.
Proof.
  intros Ho Hl Hg r n ls l. rewrite Ho. intros Hn Hls Hin.
  specialize (Hg r n ls l Hn Hls Hin). lia.
Qed.

Lemma linkSetsLive_frame {A} (m : M A) :
  (∀ g, nodeObjs (m g).2 = nodeObjs g ∧
        (length (linkObjs g) ≤ length (linkObjs (m g).2))%nat) →
  preserves linkSetsLive m.
Proof. intros Hm g. destruct (Hm g). by apply linkSetsLive_mono. Qed.

Lemma linkSetsLive_updNode r f :
  (∀ n ls l, Node.links (f n) = Some ls → l ∈ ls →
     ∃ ls', Node.links n = Some ls' ∧ l ∈ ls') →
  preserves linkSetsLive (updNode r f : M unit).
Proof.
  intros Hf g Hg r' n ls l. cbn. rewrite list_lookup_alter.
  case_decide; [subst r'|by apply Hg].
  destruct (nodeObjs g !! r) as [n0|] eqn:Hn0; [|done].
  intros [= <-] Hls Hin. destruct (Hf _ _ _ Hls Hin) as (ls' & Hls' & Hin').
  by apply (Hg r n0 ls' l).
Qed.

Lemma linkSetsLive_attach r link :
  hoare (λ g, linkSetsLive g ∧ (link < length (linkObjs g))%nat)
    (updNode r (Node.addLink link) : M unit)
    (λ _ g, linkSetsLive g ∧ (link < length (linkObjs g))%nat).
Proof.
  intros g [Hg Hlink]. split; [|done]. intros r' n ls l. cbn.
  rewrite list_lookup_alter.
  case_decide; [subst r'|by apply Hg].
  destruct (nodeObjs g !! r) as [[i o d]|] eqn:Hn0; [|done].
  intros [= <-]. unfold Node.addLink, JsSet.add. cbn.
  destruct o as [s|]; cbn.
  - case_bool_decide; intros [= <-] Hin.
    + by apply (Hg r _ s l Hn0).
    + apply elem_of_app in Hin as [Hin|Hin%list_elem_of_singleton].
      * by apply (Hg r _ s l Hn0).
      * by subst.
  - intros [= <-] Hin%list_elem_of_singleton. by subst.
Qed.

Lemma linkSetsLive_newNode nodeId data :
  preserves linkSetsLive (newNode nodeId data : M nref).
Proof.
  intros g Hg r n ls l. cbn. intros [Hn|[_ Hn]]%lookup_app_Some.
  - apply (Hg r n ls l Hn).
  - apply list_lookup_singleton_Some in Hn as [_ <-]. done.
Qed.

Lemma exit_objs g :
  nodeObjs (exitModification g).2 = nodeObjs g ∧
  (length (linkObjs g) ≤ length (linkObjs (exitModification g).2))%nat.
Proof. unfold exitModification. by case_match. Qed.

Lemma recordNode_objs node ct g :
  nodeObjs (recordNodeChange node ct g).2 = nodeObjs g ∧
  (length (linkObjs g) ≤ length (linkObjs (recordNodeChange node ct g).2))%nat.
Proof. unfold recordNodeChange. by case_match. Qed.

Lemma recordLink_objs link ct g :
  nodeObjs (recordLinkChange link ct g).2 = nodeObjs g ∧
  (length (linkObjs g) ≤ length (linkObjs (recordLinkChange link ct g).2))%nat.
Proof. unfold recordLinkChange. by case_match. Qed.

Lemma createLink_objs fromId toId data g :
  nodeObjs (createLink (NodeData:=NodeData) fromId toId data g).2
  = nodeObjs g ∧
  (length (linkObjs g) ≤
   length (linkObjs (createLink fromId toId data g).2))%nat.
Proof.
  unfold createLink, createUniqueLink, createSingleLink.
  unfold mbind, M_bind, mret, M_ret, gets, modify, updLink, newLink.
  simpl. repeat case_match; simpl;
    rewrite ?length_alter, ?length_app; split; (done || lia).
Qed.

Ltac live_step known :=
  lazymatch goal with
  | |- preserves _ (_ ≫= _) => apply preserves_bind; [|intros ?]
  | |- preserves _ (mret _) => apply preserves_ret
  | |- preserves _ (gets _) => apply preserves_gets
  | |- preserves _ (forEach _ _) =>
      apply preserves_forEach; intros ?; cbv beta
  | |- preserves _ (match ?x with _ => _ end) => destruct x
  | |- preserves _ exitModification =>
      apply linkSetsLive_frame; intros ?; apply exit_objs
  | |- preserves _ (recordNodeChange _ _) =>
      apply linkSetsLive_frame; intros ?; apply recordNode_objs
  | |- preserves _ (recordLinkChange _ _) =>
      apply linkSetsLive_frame; intros ?; apply recordLink_objs
  | |- preserves _ (newNode _ _) => apply linkSetsLive_newNode
  | |- preserves _ (updNode _ (Node.addLink _)) => known
  | |- preserves _ (updNode _ (Node.deleteLink _)) =>
      apply linkSetsLive_updNode; intros [? [?|] ?] ? ?; cbn;
      [intros [= <-] [_ ?]%JsSet_delete_elem; by eexists|done]
  | |- preserves _ (updNode _ _) =>
      apply linkSetsLive_updNode; intros [? ? ?] ? ?; cbn;
      first [done | by eexists]
  | |- preserves _ (modify _) =>
      apply linkSetsLive_frame; intros ?; done
  | |- preserves _ enterModification =>
      apply linkSetsLive_frame; intros ?; done
  | |- _ => known
  end.

Lemma linkSetsLive_addNode nodeId data :
  preserves linkSetsLive (addNode nodeId data : M nref).
Proof. unfold addNode. repeat live_step idtac. Qed.

Lemma linkSetsLive_removeLinkInstance link :
  preserves linkSetsLive (removeLinkInstance link : M bool).
Proof.
  unfold removeLinkInstance, detachLink. repeat live_step idtac.
Qed.

Lemma linkSetsLive_removeNode nodeId :
  preserves linkSetsLive (removeNode nodeId : M bool).
Proof.
  unfold removeNode.
  repeat live_step ltac:(apply linkSetsLive_removeLinkInstance).
Qed.

Lemma linkSetsLive_clear : preserves linkSetsLive (clear : M unit).
Proof.
  unfold clear. repeat live_step ltac:(apply linkSetsLive_removeNode).
Qed.

Lemma linkSetsLive_removeLink arg :
  preserves linkSetsLive (removeLink arg : M (Completion bool)).
Proof.
  unfold removeLink.
  repeat live_step ltac:(apply linkSetsLive_removeLinkInstance).
Qed.

Lemma linkSetsLive_addLink fromId toId data g :
  linksConsistent g → linkSetsLive g →
  linkSetsLive (addLink fromId toId data g).2.
Proof.
  intros Hc Hg.
  set (g1 := (enterModification g).2).
  set (g2 := (getOrAddNode fromId g1).2).
  set (g3 := (getOrAddNode toId g2).2).
  assert (∀ id, preserves linkSetsLive (getOrAddNode id : M nref)) as Hlive.
  { intros id. unfold getOrAddNode.
    repeat live_step ltac:(apply linkSetsLive_addNode). }
  assert (∀ id, preserves linksConsistent (getOrAddNode id : M nref))
    as Hcons.
  { intros id. unfold getOrAddNode.
    repeat links_step ltac:(apply linksConsistent_addNode). }
  assert (linkSetsLive g3 ∧ linksConsistent g3) as [Hg3 Hc3].
  { split.
    - by apply Hlive, Hlive.
    - by apply Hcons, Hcons. }
  set (c := createLink fromId toId data g3).
  assert (linkSetsLive c.2 ∧ (c.1 < length (linkObjs c.2))%nat) as Hc4.
  { split.
    - by apply (linkSetsLive_frame _ (createLink_objs fromId toId data)).
    - apply lookup_lt_is_Some.
      by apply (linksConsistent_createLink fromId toId data g3). }
  set (g5 := set_links
               (JsMap.set (Link.id (linkObj c.1 c.2)) c.1 (links c.2)) c.2).
  assert (linkSetsLive g5 ∧ (c.1 < length (linkObjs g5))%nat) as Hg5 by done.
  assert (∀ n1 n2,
    linkSetsLive
      ((if decide (fromId ≠ toId)
        then updNode n2 (Node.addLink c.1) else mret tt)
         (updNode n1 (Node.addLink c.1) g5).2).2) as Hg7.
  { intros n1 n2. pose proof (linkSetsLive_attach n1 c.1 g5 Hg5) as Hg6.
    case_decide; [|apply Hg6].
    by apply (linkSetsLive_attach n2 c.1 _ Hg6). }
  match goal with |- linkSetsLive ?x =>
    assert (∃ n1 n2 ct,
      x = (exitModification
             (recordLinkChange c.1 ct
                ((if decide (fromId ≠ toId)
                  then updNode n2 (Node.addLink c.1) else mret tt)
                   (updNode n1 (Node.addLink c.1) g5).2).2).2).2)
      as (n1 & n2 & ct & ->)
  end.
  { eexists _, _, _. reflexivity. }
  apply (linkSetsLive_frame _ exit_objs).
  apply (linkSetsLive_frame _ (recordLink_objs _ _)).
  apply Hg7.
Qed.

Lemma linkSetsLive_run c g :
  linksConsistent g → linkSetsLive g → linkSetsLive (run c g).
Proof.
  intros Hc. destruct c; simpl.
  - apply linkSetsLive_addNode.
  - apply linkSetsLive_removeNode.
  - by apply linkSetsLive_addLink.
  - apply linkSetsLive_removeLink.
  - apply linkSetsLive_removeLinkInstance.
  - apply linkSetsLive_clear.
  - by apply linkSetsLive_mono.
  - apply linkSetsLive_mono; [done|]. cbn. rewrite length_app. lia.
Qed.

Lemma reachable_linkSetsLive g : reachable g → linkSetsLive g.
Proof.
  induction 1 as [multi|c g Hg IH _].
  - by intros r n ls l.
  - apply linkSetsLive_run; [|done]. by apply reachable_linksConsistent.
Qed.

Lemma reachable_nodesConsistent g : reachable g → nodesConsistent g.
Proof.
  induction 1 as [multi|c g _ IH _].
  - by intros k r.
  - by apply nodesConsistent_run.
Qed.

End graph_facts.

(** ** The graph store: batching of change notifications *)

Section event_facts.
Context {NodeData LinkData : Type}.
Local Abbreviation Graph := (Graph NodeData LinkData).
Local Abbreviation M := (M NodeData LinkData).
Implicit Types (g h : Graph) (E : list (list Change)).

Ltac graph_simpl :=
  cbv [held idle flushed quiescent hold enterModification emit modify mret
       M_ret set_nodes set_links set_multiEdges set_suspendEvents
       set_listening set_changes set_nodeObjs set_linkObjs set_emitted];
  cbn.

Lemma related_bind {A B} (R R1 R2 : Graph → Graph → Prop) (m : M A)
    (k : A → M B) :
  related R R1 m → (∀ a, related R1 R2 (k a)) → related R R2 (m ≫= k).
Proof.
  intros Hm Hk g h HR. destruct (Hm g h HR) as [H1 H2].
  unfold mbind, M_bind. rewrite <- H1. by apply Hk.
Qed.

Lemma related_ret {A} (R : Graph → Graph → Prop) (a : A) :
  related R R (mret a : M A).
Proof. by intros g h HR. Qed.

Lemma related_forEach {A B} (R : Graph → Graph → Prop) (f : A → M B) l :
  (∀ x, related R R (f x)) → related R R (forEach f l).
Proof.
  intros Hf. induction l as [|x l IH]; cbn.
  - apply related_ret.
  - eapply related_bind; [apply Hf|by intros _].
Qed.

Lemma held_ret {A} n n' E (a : A) :
  n = n' → related (held n E) (held n' E) (mret a : M A).
Proof. intros <-. apply related_ret. Qed.

Lemma held_plain {A} n E (m : M A) :
  plain m → related (held n E) (held n E) m.
Proof.
  intros Hm g h (Hs & He & ->). destruct (Hm g) as (Hs' & He' & Hh).
  rewrite Hh. cbn. split; [done|]. split; [congruence|].
  split; [congruence|done].
Qed.

Lemma idle_plain {A} E (m : M A) :
  plain m → (∀ g, changes (m g).2 = changes g) →
  related (idle E) (idle E) m.
Proof.
  intros Hm Hc g h (Hs & Hch & He & ->). destruct (Hm g) as (Hs' & He' & Hh).
  rewrite Hh. cbn. split; [done|]. split; [congruence|].
  split; [by rewrite Hc|]. split; [congruence|done].
Qed.

Lemma idle_flushed E g h : idle E g h → flushed E g h.
Proof.
  intros (Hs & Hc & He & ->). split; [graph_simpl; lia|]. split; [done|].
  destruct g. cbn in *. subst. reflexivity.
Qed.

Lemma idle_ret {A} E (a : A) : related (idle E) (flushed E) (mret a : M A).
Proof. intros g h HR. split; [done|]. by apply idle_flushed. Qed.

Lemma idle_enter E : related (idle E) (held 1 E) (enterModification : M unit).
Proof.
  intros g h (Hs & Hc & He & ->). split; [done|]. graph_simpl.
  split; [lia|]. by split.
Qed.

Lemma held_enter n E :
  related (held n E) (held (n + 1) E) (enterModification : M unit).
Proof.
  intros g h (Hs & He & ->). split; [done|]. graph_simpl.
  split; [lia|]. by split.
Qed.

Lemma exit_deep g :
  suspendEvents g ≠ 1 →
  exitModification g = (tt, set_suspendEvents (suspendEvents g - 1) g).
Proof.
  intros Hs. unfold exitModification. graph_simpl.
  rewrite (bool_decide_eq_false_2 (suspendEvents g - 1 = 0)) by lia. done.
Qed.

Lemma held_exit n E :
  2 ≤ n → related (held n E) (held (n - 1) E) (exitModification : M unit).
Proof.
  intros Hn g h (Hs & He & ->).
  rewrite (exit_deep g), (exit_deep (hold g)) by (graph_simpl; lia).
  graph_simpl. split; [done|]. split; [lia|]. split; [done|].
  f_equal. lia.
Qed.

Lemma held_exit' n n' E :
  2 ≤ n → n' = n - 1 →
  related (held n E) (held n' E) (exitModification : M unit).
Proof. intros Hn ->. by apply held_exit. Qed.

Lemma held_exit_top E :
  related (held 1 E) (flushed E) (exitModification : M unit).
Proof.
  intros g h (Hs & He & ->).
  assert ((exitModification (hold g)).2 = g) as Hh.
  { rewrite exit_deep by (graph_simpl; lia). graph_simpl.
    destruct g. cbn in *. subst. reflexivity. }
  split; [by destruct (exitModification g).1, (exitModification (hold g)).1|].
  rewrite Hh. by split.
Qed.

Lemma plain_recordNodeChange node ct :
  plain (recordNodeChange node ct : M unit).
Proof. intros g. unfold recordNodeChange. cbn. by destruct (listening g). Qed.

Lemma plain_recordLinkChange link ct :
  plain (recordLinkChange link ct : M unit).
Proof. intros g. unfold recordLinkChange. cbn. by destruct (listening g). Qed.

Lemma plain_createLink fromId toId data :
  plain (createLink fromId toId data : M lref).
Proof.
  intros g. unfold createLink, createUniqueLink, createSingleLink.
  unfold mbind, M_bind, mret, M_ret, gets, modify, updLink, newLink, getLink.
  destruct g. graph_simpl. repeat case_match; by repeat split.
Qed.

(** One step of a proof that relates two runs of a method, chosen by the
    head of the method's code. *)
Ltac related_step known :=
  lazymatch goal with
  | |- related _ _ (_ ≫= _) => eapply related_bind; [|intros ?]
  | |- related _ _ (match ?x with _ => _ end) => destruct x
  | |- related (idle _) (flushed _) (mret _) => apply idle_ret
  | |- related _ _ (mret _) =>
      first [apply related_ret | apply held_ret; lia]
  | |- related (idle _) _ enterModification => apply idle_enter
  | |- related (held _ _) _ enterModification => apply held_enter
  | |- related (held 1 _) _ exitModification => apply held_exit_top
  | |- related (held _ _) _ exitModification =>
      first [apply held_exit; lia | apply held_exit'; lia]
  | |- related _ _ (forEach _ _) => apply related_forEach; intros ?; cbv beta
  | |- related (held _ _) _ (recordNodeChange _ _) =>
      apply held_plain, plain_recordNodeChange
  | |- related (held _ _) _ (recordLinkChange _ _) =>
      apply held_plain, plain_recordLinkChange
  | |- related (held _ _) _ (createLink _ _ _) =>
      apply held_plain, plain_createLink
  | |- related (idle _) _ (gets _) => apply idle_plain; by intros ?
  | |- related (idle _) _ (modify _) => apply idle_plain; by intros ?
  | |- related (held _ _) _ (gets _) => apply held_plain; by intros ?
  | |- related (held _ _) _ (modify _) => apply held_plain; by intros ?
  | |- related (held _ _) _ (updNode _ _) => apply held_plain; by intros ?
  | |- related (held _ _) _ (newNode _ _) => apply held_plain; by intros ?
  | |- _ => known
  end.

Ltac batched_by known :=
  split; [intros E|intros n E Hn]; repeat related_step known.

Lemma batched_addNode nodeId data : batched (addNode nodeId data : M nref).
Proof. unfold addNode. batched_by idtac. Qed.

Lemma batched_removeLinkInstance link :
  batched (removeLinkInstance link : M bool).
Proof. unfold removeLinkInstance, detachLink. batched_by idtac. Qed.

Lemma batched_removeNode nodeId : batched (removeNode nodeId : M bool).
Proof.
  unfold removeNode.
  batched_by ltac:(apply (proj2 (batched_removeLinkInstance _)); lia).
Qed.

Lemma batched_addLink fromId toId data :
  batched (addLink fromId toId data : M lref).
Proof.
  unfold addLink, getOrAddNode.
  batched_by ltac:(apply (proj2 (batched_addNode _ _)); lia).
Qed.

Lemma batched_clear : batched (clear : M unit).
Proof.
  unfold clear.
  batched_by ltac:(apply (proj2 (batched_removeNode _)); lia).
Qed.

Lemma batched_removeLink arg : batched (removeLink arg : M (Completion bool)).
Proof.
  unfold removeLink. split; [intros E|intros n E Hn].
  - eapply related_bind; [apply idle_plain; by intros ?|].
    intros [link|]; [|apply idle_ret].
    eapply related_bind; [apply (proj1 (batched_removeLinkInstance _))|].
    intros ?. apply related_ret.
  - repeat related_step
      ltac:(apply (proj2 (batched_removeLinkInstance _)); lia).
Qed.

Lemma batched_on : batched (on : M unit).
Proof.
  split; [intros E|intros n E Hn].
  - intros g h HR. split; [done|].
    apply idle_flushed. destruct HR as (? & ? & ? & ->). by repeat split.
  - by apply held_plain.
Qed.

Lemma batched_newLink fromId toId data id :
  batched (newLink fromId toId data id : M lref).
Proof.
  split; [intros E|intros n E Hn].
  - intros g h HR. destruct HR as (? & ? & ? & ->). split; [done|].
    apply idle_flushed. by repeat split.
  - by apply held_plain.
Qed.

(** Every call delivers its changes at its end, in one batch: the graph
    after the call is the graph the call leaves inside an enclosing
    modification, with that modification closed. *)
Lemma run_flushed c g :
  quiescent g →
  suspendEvents (run c (hold g)) = 1 ∧
  emitted (run c (hold g)) = emitted g ∧
  run c g = (exitModification (run c (hold g))).2.
Proof.
  intros [Hs Hc].
  assert (idle (emitted g) g (hold g)) as HR by done.
  destruct c; cbn.
  - apply (proj1 (batched_addNode nodeId data) _ _ _ HR).
  - apply (proj1 (batched_removeNode nodeId) _ _ _ HR).
  - apply (proj1 (batched_addLink fromId toId data) _ _ _ HR).
  - apply (proj1 (batched_removeLink arg) _ _ _ HR).
  - apply (proj1 (batched_removeLinkInstance link) _ _ _ HR).
  - apply (proj1 batched_clear _ _ _ HR).
  - apply (proj1 batched_on _ _ _ HR).
  - apply (proj1 (batched_newLink fromId toId data id) _ _ _ HR).
Qed.

Lemma exit_top_quiescent g :
  suspendEvents g = 1 → quiescent (exitModification g).2.
Proof.
  intros Hs. unfold exitModification, quiescent. graph_simpl.
  rewrite (bool_decide_eq_true_2 (suspendEvents g - 1 = 0)) by lia. cbn.
  destruct (changes g) as [|c cs] eqn:Hc.
  - rewrite bool_decide_eq_false_2 by (cbn; lia). cbn. split; [lia|done].
  - rewrite bool_decide_eq_true_2 by (cbn; lia). cbn. split; [lia|done].
Qed.

Lemma exit_top_emitted g :
  suspendEvents g = 1 →
  emitted (exitModification g).2 =
    (emitted g ++ if decide (changes g = []) then [] else [changes g])%list.
Proof.
  intros Hs. unfold exitModification. graph_simpl.
  rewrite (bool_decide_eq_true_2 (suspendEvents g - 1 = 0)) by lia. cbn.
  destruct (changes g) as [|c cs] eqn:Hc.
  - rewrite bool_decide_eq_false_2 by (cbn; lia). cbn.
    by rewrite app_nil_r.
  - rewrite bool_decide_eq_true_2 by (cbn; lia). done.
Qed.

Lemma run_quiescent c g : quiescent g → quiescent (run c g).
Proof.
  intros Hg. destruct (run_flushed c g Hg) as (Hs & _ & ->).
  by apply exit_top_quiescent.
Qed.

Lemma reachable_quiescent g : reachable g → quiescent g.
Proof.
  induction 1 as [multi|c g _ IH _]; [done|]. by apply run_quiescent.
Qed.

End event_facts.

(** * Results *)

Lemma reachable_runAll {NodeData LinkData} (cs : list (Call NodeData LinkData))
    (g : Graph NodeData LinkData) :
  reachable g → callsOk cs g → reachable (runAll cs g).
Proof.
  revert g. induction cs as [|c cs IH]; intros g Hg Hcs; [done|].
  destruct Hcs as [Hc Hcs]. apply IH; [|done]. by constructor.
Qed.

Lemma reachable_chain : reachable chain.
Proof. apply reachable_runAll; [constructor|by vm_compute]. Qed.

Lemma reachable_doubled : reachable doubled.
Proof. apply reachable_runAll; [constructor|by vm_compute]. Qed.

Lemma reachable_stranded : reachable stranded.
Proof. apply reachable_runAll; [apply reachable_doubled|by vm_compute]. Qed.


Lemma reachable_unwatched : reachable unwatched.
Proof. by repeat constructor. Qed.


(** C1.  On the graph with nodes 1, 2, 3 and links (1,2), (2,3), node 3 is
    two links away from node 1 (and not one), yet [find(1, 3)] with the
    default options returns [NO_PATH] instead of an array with two edges:
    the loop of [find] takes the first component of each yielded triple,
    the node being expanded, for the neighbour. *)
Theorem find_chain_no_path :
  getNode (NumId 1) chain = Some 0%nat ∧
  getNode (NumId 3) chain = Some 2%nat ∧
  hops chain false 2 0 2 = true ∧
  hops chain false 1 0 2 = false ∧
  ∀ fuel p,
    (find (S fuel) chain defaultOptions (NumId 1) (NumId 3) p).1 = NO_PATH.
Proof.
  repeat split; try by vm_compute.
  intros fuel p.
  rewrite (find_result _ _ _ _ _ _ 0%nat 2%nat);
    [by vm_compute|apply reachable_nodesConsistent, reachable_chain|done..].
Qed.

Lemma find_absent {NodeData LinkData} fuel (g : Graph NodeData LinkData)
    opts a b p :
  getNode a g = None ∨ getNode b g = None →
  ∃ message, (find fuel g opts a b p).1 = Error message.
Proof.
  unfold find. intros [Ha|Hb].
  - rewrite Ha. by eexists.
  - destruct (getNode a g); rewrite ?Hb; by eexists.
Qed.

Lemma find_pool_independent {NodeData LinkData} fuel
    (g : Graph NodeData LinkData) opts a b p p' :
  reachable g →
  (find (S fuel) g opts a b p).1 = (find (S fuel) g opts a b p').1.
Proof.
  intros Hg%reachable_nodesConsistent.
  destruct (getNode a g) as [ra|] eqn:Ha; [|by unfold find; rewrite Ha].
  destruct (getNode b g) as [rb|] eqn:Hb; [|by unfold find; rewrite Ha, Hb].
  by rewrite !(find_result _ _ _ _ _ _ ra rb).
Qed.

(** C2, as stated, fails: both identifiers name nodes of [stranded], a
    graph built by public calls only, and [find] throws. *)
Lemma find_raises_on_known_ids :
  reachable stranded ∧
  is_Some (getNode (NumId 5) stranded) ∧
  is_Some (getNode (NumId 7) stranded) ∧
  (find 1 stranded defaultOptions (NumId 5) (NumId 7) StatePool.new).1
  = Error "Invalid link".
Proof.
  split; [apply reachable_stranded|].
  split; [by exists 1%nat|]. split; [by exists 2%nat|]. by vm_compute.
Qed.

(** C2, amended.  On every graph built by public calls, a call of [find]
    comes to an end.  It throws when [fromId] or [toId] names no node.  When
    both name nodes, it throws only an error that the neighbour enumeration
    of some node of the graph throws (a link whose other endpoint is not in
    the node map); on a graph where every enumeration runs to its end it
    returns an array or [NO_PATH], and [NO_PATH] when no path exists.
    [NO_PATH] differs from every array and from an error. *)
Theorem find_raises {NodeData LinkData} (g : Graph NodeData LinkData)
    opts a b fuel p :
  reachable g →
  let r := (find (S fuel) g opts a b p).1 in
  r ≠ OutOfFuel ∧
  (getNode a g = None ∨ getNode b g = None → ∃ message, r = Error message) ∧
  (∀ ra rb, getNode a g = Some ra → getNode b g = Some rb →
     (∀ message, r = Error message →
        ∃ k, is_Some (getNode k g) ∧
             (linkedNodes k (oriented opts) g).2 = Some message) ∧
     (enumerable (oriented opts) g → r = NO_PATH ∨ ∃ path, r = Path path) ∧
     (enumerable (oriented opts) g →
      ¬ connected g (oriented opts) ra rb → r = NO_PATH)) ∧
  (∀ path, NO_PATH ≠ Path path) ∧
  (∀ message, NO_PATH ≠ Error message).
Proof.
  intros Hg r. pose proof (reachable_nodesConsistent g Hg) as Hc.
  split; [|split; [|split; [|done]]].
  - destruct (getNode a g) as [ra|] eqn:Ha.
    + destruct (getNode b g) as [rb|] eqn:Hb.
      * subst r. rewrite (find_result _ _ _ _ _ _ ra rb) by done.
        repeat case_match; done.
      * destruct (find_absent (S fuel) g opts a b p) as [m Hm]; [by right|].
        subst r. by rewrite Hm.
    + destruct (find_absent (S fuel) g opts a b p) as [m Hm]; [by left|].
      subst r. by rewrite Hm.
  - apply find_absent.
  - intros ra rb Ha Hb. subst r.
    rewrite (find_result _ _ _ _ _ _ ra rb) by done.
    split; [|split].
    + intros message. case_decide; [done|].
      destruct (linkedNodes a (oriented opts) g).2 eqn:Hl; [|done].
      intros [= <-]. exists a. by rewrite Ha.
    + intros He. case_decide; [right; by eexists|].
      rewrite (He a). by left.
    + intros He Hn. case_decide as Heq.
      * subst rb. destruct Hn. constructor.
      * by rewrite (He a).
Qed.

Lemma find_raises_witness :
  let r := (find 1 chain defaultOptions (NumId 1) (NumId 3) StatePool.new).1 in
  r ≠ OutOfFuel ∧
  (getNode (NumId 1) chain = None ∨ getNode (NumId 3) chain = None →
   ∃ message, r = Error message) ∧
  (∀ ra rb, getNode (NumId 1) chain = Some ra →
     getNode (NumId 3) chain = Some rb →
     (∀ message, r = Error message →
        ∃ k, is_Some (getNode k chain) ∧
             (linkedNodes k false chain).2 = Some message) ∧
     (enumerable false chain → r = NO_PATH ∨ ∃ path, r = Path path) ∧
     (enumerable false chain → ¬ connected chain false ra rb → r = NO_PATH)) ∧
  (∀ path, NO_PATH ≠ Path path) ∧
  (∀ message, NO_PATH ≠ Error message).
Proof.
  exact (find_raises chain defaultOptions (NumId 1) (NumId 3) 0
           StatePool.new reachable_chain).
Defined.

(** C7.  The state that [newState(node)] returns, from a new object or
    from a recycled slot, has every field reinitialised; and the result of
    a [find] that follows another [find] on the same engine is the result
    the same call gives on a new engine. *)
Theorem pool_reuse {NodeData LinkData} (g : Graph NodeData LinkData)
    opts a b c d fuel fuel' p node q :
  reachable g →
  StatePool.state (StatePool.newState node q).1 (StatePool.newState node q).2
  = NodeSearchState.mk node None false 0 Infinity Infinity (-1) ∧
  (find (S fuel') g opts c d (find (S fuel) g opts a b p).2).1
  = (find (S fuel') g opts c d StatePool.new).1.
Proof.
  intros Hg. split; [apply newState_state|by apply find_pool_independent].
Qed.

Lemma pool_reuse_witness :
  StatePool.state
    (StatePool.newState 7
       (find 1 chain defaultOptions (NumId 1) (NumId 3) StatePool.new).2).1
    (StatePool.newState 7
       (find 1 chain defaultOptions (NumId 1) (NumId 3) StatePool.new).2).2
  = NodeSearchState.mk 7 None false 0 Infinity Infinity (-1) ∧
  (find 1 chain defaultOptions (NumId 2) (NumId 2)
     (find 1 chain defaultOptions (NumId 1) (NumId 3) StatePool.new).2).1
  = (find 1 chain defaultOptions (NumId 2) (NumId 2) StatePool.new).1.
Proof.
  exact (pool_reuse chain defaultOptions (NumId 1) (NumId 3) (NumId 2)
           (NumId 2) 0 0 StatePool.new 7%nat _ reachable_chain).
Defined.



(** C9.  [getLink] returns [undefined] whenever one of its arguments is
    falsy (the number 0, the empty string), whatever the store holds; so
    the by-endpoint [removeLink] throws for such a pair and removes
    nothing. *)
Theorem getLink_falsy {NodeData LinkData} (g : Graph NodeData LinkData)
    fromNodeId toNodeId :
  falsy fromNodeId = true ∨ falsy toNodeId = true →
  getLink fromNodeId toNodeId g = None ∧
  removeLink (ByEndpoints fromNodeId toNodeId) g = (Throw "Unknown link", g).
Proof.
  intros Hfalsy.
  assert (getLink fromNodeId toNodeId g = None) as Hget.
  { unfold getLink. by destruct Hfalsy as [-> | ->]; rewrite ?orb_true_r. }
  split; [done|]. unfold removeLink, mbind, M_bind, gets. simpl.
  by rewrite Hget.
Qed.

Lemma getLink_falsy_witness :
  JsMap.get (Link.makeId "0" "5") (links doubled) = Some 1%nat ∧
  getLink (NumId 0) (NumId 5) doubled = None ∧
  removeLink (ByEndpoints (NumId 0) (NumId 5)) doubled
  = (Throw "Unknown link", doubled).
Proof.
  split; [by vm_compute|].
  apply (getLink_falsy doubled (NumId 0) (NumId 5)). left. reflexivity.
Defined.

Section notification.
Context {NodeData LinkData : Type}.
Implicit Types (g : Graph NodeData LinkData).









End notification.




(** ** Removal *)

Section removal.
Context {NodeData LinkData : Type}.
Implicit Types (g : Graph NodeData LinkData).

Lemma removeNode_absent g nodeId :
  getNode nodeId g = None → removeNode nodeId g = (false, g).
Proof.
  intros Hn. unfold removeNode, mbind, M_bind, gets. cbn. by rewrite Hn.
Qed.

Lemma links_alter_deleteLink (objs : list (Node.t NodeData)) link r k :
  Node.links (alter (Node.deleteLink link) r objs !!! k) =
    if decide (r = k) then JsSet.delete link <$> Node.links (objs !!! k)
    else Node.links (objs !!! k).
Proof.
  rewrite !list_lookup_total_alt, list_lookup_alter.
  case_decide; [subst|done].
  destruct (objs !! k) as [[i [s|] d]|]; done.
Qed.

(** What [removeLinkInstance] leaves when the store knows the link's
    identifier. *)
Lemma removeLinkInstance_registered g link :
  is_Some (JsMap.get (Link.id (linkObj link g)) (links g)) →
  let l := linkObj link g in
  let r := removeLinkInstance link g in
  r.1 = true ∧
  nodes r.2 = nodes g ∧
  links r.2 = JsMap.delete (Link.id l) (links g) ∧
  linkObjs r.2 = linkObjs g ∧
  (link ∉ getLinks (Link.fromId l) r.2) ∧
  (link ∉ getLinks (Link.toId l) r.2).
Proof.
  intros [x Hx] l r.
  assert (∃ X, r = (true, (exitModification
                             (recordLinkChange link CtRemove X).2).2) ∧
               nodes X = nodes g ∧
               links X = JsMap.delete (Link.id l) (links g) ∧
               linkObjs X = linkObjs g ∧
               (link ∉ getLinks (Link.fromId l) X) ∧
               (link ∉ getLinks (Link.toId l) X))
    as (X & -> & Hn & Hl & Ho & Hf & Ht).
  { change (JsMap.get (Link.id l) (links g) = Some x) in Hx. subst r.
    unfold removeLinkInstance, detachLink, mbind, M_bind, gets, mret, M_ret.
    cbn [fst snd]. fold l. rewrite Hx. clearbody l.
    eexists. split; [reflexivity|].
    unfold getLinks, getNode, nodeObj, updNode, modify. cbn.
    destruct (JsMap.get (Link.fromId l) (nodes g)) as [rf|] eqn:Hrf;
      destruct (JsMap.get (Link.toId l) (nodes g)) as [rt|] eqn:Hrt;
      cbn; rewrite ?Hrf, ?Hrt; cbn;
      repeat split; try done;
      rewrite ?Hrf, ?Hrt; cbn; rewrite ?links_alter_deleteLink;
      repeat match goal with
      | |- context [decide ?P] => destruct (decide P)
      end;
      repeat match goal with
      | |- context [Node.links ?n] => destruct (Node.links n); cbn
      end;
      rewrite ?JsSet_delete_elem;
      first [done | by intros [? ?] | by intros ?%elem_of_nil]. }
  cbn.
  pose proof (same_exit_links (recordLinkChange link CtRemove X).2)
    as [He1 He2].
  pose proof (same_recordLink_links link CtRemove X) as [Hr1 Hr2].
  pose proof (same_exit (recordLinkChange link CtRemove X).2) as [He3 He4].
  pose proof (same_recordLink link CtRemove X) as [Hr3 Hr4].
  unfold getLinks, getNode, nodeObj in *.
  rewrite He1, He2, He3, He4, Hr1, Hr2, Hr3, Hr4. done.
Qed.

Lemma removeLinkInstance_unregistered g link :
  JsMap.get (Link.id (linkObj link g)) (links g) = None →
  removeLinkInstance link g = (false, g).
Proof.
  intros Hx. unfold removeLinkInstance, mbind, M_bind, gets. cbn.
  by rewrite Hx.
Qed.

End removal.

(** C4.  On the multigraph [doubled], whose two links for the pair (0,5)
    carry the same identifier, [removeNode(0)] returns true and removes
    node 0, but node 5 still holds a link whose [fromId] is 0, and the
    neighbour enumeration of node 5 throws. *)
Theorem removeNode_leaves_link :
  reachable doubled ∧
  getLinks (NumId 0) doubled = [0; 1]%nat ∧
  (removeNode (NumId 0) doubled).1 = true ∧
  let g' := (removeNode (NumId 0) doubled).2 in
  getNode (NumId 0) g' = None ∧
  getLinks (NumId 5) g' = [1%nat] ∧
  Link.fromId (linkObj 1 g') = NumId 0 ∧
  (linkedNodes (NumId 5) false g').2 = Some "Invalid link".
Proof. split; [apply reachable_doubled|]. by vm_compute. Qed.

(** C5.  In a multigraph, a second [addLink(0, 5, data)] creates a second
    Link object with the identifier of the first: [linkCount] stays 1 and
    the two coexisting links do not have distinct identities.
    [createUniqueLink] asks [getLink] whether the pair has a link, and
    [getLink] answers [undefined] for the falsy identifier 0. *)
Theorem addLink_multigraph_same_id :
  let g1 : Graph string string :=
    run (AddLink (NumId 0) (NumId 5) (Some "first")) (newGraph true) in
  let r := addLink (NumId 0) (NumId 5) (Some "second") g1 in
  multigraph g1 = true ∧
  linkCount g1 = 1%nat ∧
  linkCount r.2 = 1%nat ∧
  r.1 = 1%nat ∧
  getLinks (NumId 0) r.2 = [0; 1]%nat ∧
  Link.id (linkObj 0 r.2) = Link.id (linkObj 1 r.2) ∧
  Link.data (linkObj 0 r.2) = Some "first" ∧
  Link.data (linkObj 1 r.2) = Some "second".
Proof. by vm_compute. Qed.




(** C10, as stated, fails on a graph without listener: [addNode(1)]
    overwrites the payload of node 1 but records no change, at rest or
    inside a modification. *)
Lemma addNode_unwatched_records_nothing :
  reachable unwatched ∧
  getNode (NumId 1) unwatched = Some 0%nat ∧
  Node.data (nodeObj 0 unwatched) = Some "hello" ∧
  Node.data (nodeObj 0 (addNode (NumId 1) None unwatched).2) = None ∧
  changes (addNode (NumId 1) None (hold unwatched)).2 = [] ∧
  changes (addNode (NumId 1) None unwatched).2 = [] ∧
  emitted (addNode (NumId 1) None unwatched).2 = [].
Proof. split; [apply reachable_unwatched|]. by vm_compute. Qed.

(** C10, amended.  On a graph that holds a node with identifier [nodeId]
    and a payload, [addNode(nodeId)] without data returns that same node
    object, leaves it in the map under [nodeId], sets its payload to
    [undefined] and keeps its identifier and its link set.  When a listener
    is registered the call records one 'update' change for the node and
    delivers it; without a listener it records nothing. *)
Theorem addNode_again_overwrites {NodeData LinkData}
    (g : Graph NodeData LinkData) nodeId node payload :
  reachable g →
  getNode nodeId g = Some node →
  Node.data (nodeObj node g) = Some payload →
  let r := addNode nodeId None g in
  r.1 = node ∧
  nodes r.2 = nodes g ∧
  getNode nodeId r.2 = Some node ∧
  Node.data (nodeObj node r.2) = None ∧
  Node.id (nodeObj node r.2) = Node.id (nodeObj node g) ∧
  Node.links (nodeObj node r.2) = Node.links (nodeObj node g) ∧
  changes r.2 = [] ∧
  emitted r.2 =
    (emitted g ++
     if listening g then [[NodeChange CtUpdate node]] else [])%list.
Proof.
  intros [Hs Hc]%reachable_quiescent Hn Hd r.
  assert (∃ x, nodeObjs g !! node = Some x) as [x Hx].
  { unfold nodeObj in Hd. rewrite list_lookup_total_alt in Hd.
    destruct (nodeObjs g !! node); [by eexists|done]. }
  assert (r = (node, (exitModification
                 (recordNodeChange node CtUpdate
                    (set_nodeObjs
                       (alter (Node.setData None) node (nodeObjs g))
                       (enterModification g).2)).2).2)) as ->.
  { subst r. unfold addNode, mbind, M_bind, gets, mret, M_ret. cbn.
    unfold getNode in Hn. by rewrite Hn. }
  cbn [fst snd].
  match goal with |- context [exitModification ?y] => set (Y := y) end.
  assert (nodes Y = nodes g ∧
          nodeObjs Y = alter (Node.setData None) node (nodeObjs g) ∧
          suspendEvents Y = 1 ∧ emitted Y = emitted g ∧
          changes Y = if listening g then [NodeChange CtUpdate node] else [])
    as (HYn & HYo & HYs & HYe & HYc).
  { subst Y. unfold recordNodeChange. cbn.
    destruct (listening g); cbn; rewrite Hs, ?Hc; done. }
  destruct (same_exit Y) as [He1 He2].
  pose proof (exit_top_quiescent Y HYs) as [_ Hq].
  pose proof (exit_top_emitted Y HYs) as Hem.
  clearbody Y. unfold getNode, nodeObj.
  rewrite He1, He2, HYn, HYo, Hq, Hem, HYe, HYc.
  rewrite !list_lookup_total_alt, list_lookup_alter_eq, Hx. cbn.
  repeat split; try done.
  by destruct (listening g).
Qed.

Lemma addNode_again_overwrites_witness :
  let r := addNode (NumId 1) None (run On unwatched) in
  r.1 = 0%nat ∧
  nodes r.2 = nodes (run On unwatched) ∧
  getNode (NumId 1) r.2 = Some 0%nat ∧
  Node.data (nodeObj 0 r.2) = None ∧
  Node.id (nodeObj 0 r.2) = Node.id (nodeObj 0 (run On unwatched)) ∧
  Node.links (nodeObj 0 r.2) = Node.links (nodeObj 0 (run On unwatched)) ∧
  changes r.2 = [] ∧
  emitted r.2 = [[NodeChange CtUpdate 0]].
Proof.
  apply (addNode_again_overwrites (run On unwatched) (NumId 1) 0%nat "hello").
  - apply reachable_run; [apply reachable_unwatched|done].
  - reflexivity.
  - reflexivity.
Defined.

(** ** Re-adding a link *)

Section readd.
Context {NodeData LinkData : Type}.
Implicit Types (g : Graph NodeData LinkData).

Lemma exit_links g :
  links (exitModification g).2 = links g ∧
  linkObjs (exitModification g).2 = linkObjs g ∧
  multigraph (exitModification g).2 = multigraph g.
Proof. unfold exitModification. by case_match. Qed.

Lemma recordNode_links node ct g :
  links (recordNodeChange node ct g).2 = links g ∧
  linkObjs (recordNodeChange node ct g).2 = linkObjs g ∧
  multigraph (recordNodeChange node ct g).2 = multigraph g.
Proof. unfold recordNodeChange. by case_match. Qed.

Lemma recordLink_links link ct g :
  links (recordLinkChange link ct g).2 = links g ∧
  linkObjs (recordLinkChange link ct g).2 = linkObjs g ∧
  multigraph (recordLinkChange link ct g).2 = multigraph g.
Proof. unfold recordLinkChange. by case_match. Qed.

Lemma addNode_links nodeId data g :
  links (addNode nodeId data g).2 = links g ∧
  linkObjs (addNode nodeId data g).2 = linkObjs g ∧
  multigraph (addNode nodeId data g).2 = multigraph g.
Proof.
  unfold addNode, mbind, M_bind, gets, mret, M_ret. cbn [fst snd].
  match goal with |- context [exitModification ?x] =>
    destruct (exit_links x) as (-> & -> & ->) end.
  unfold getNode, enterModification, modify, updNode, newNode. cbn.
  destruct (JsMap.get nodeId (nodes g)); cbn;
    match goal with |- context [recordNodeChange ?n ?c ?x] =>
      destruct (recordNode_links n c x) as (-> & -> & ->) end; done.
Qed.

Lemma getOrAddNode_links id g :
  links (getOrAddNode id g).2 = links g ∧
  linkObjs (getOrAddNode id g).2 = linkObjs g ∧
  multigraph (getOrAddNode id g).2 = multigraph g.
Proof.
  unfold getOrAddNode, mbind, M_bind, gets. cbn.
  destruct (getNode id g); [done|apply addNode_links].
Qed.

(** [addLink] on a graph that is not a multigraph: the link is stored
    under the identifier of the pair, carries the payload, and is the link
    that was stored there, if any. *)
Lemma addLink_single g fromId toId data :
  multigraph g = false → linksConsistent g →
  let r := addLink fromId toId data g in
  let key := Link.makeId (idString fromId) (idString toId) in
  multigraph r.2 = false ∧
  JsMap.get key (links r.2) = Some r.1 ∧
  Link.data (linkObj r.1 r.2) = data ∧
  (∀ prev, JsMap.get key (links g) = Some prev →
     r.1 = prev ∧ linkCount r.2 = linkCount g) ∧
  (JsMap.get key (links g) = None → linkCount r.2 = S (linkCount g)).
Proof.
  intros Hm Hc r key.
  set (g3 := (getOrAddNode toId
                (getOrAddNode fromId (enterModification g).2).2).2).
  assert (links g3 = links g ∧ linkObjs g3 = linkObjs g ∧
          multigraph g3 = multigraph g) as (H1 & H2 & H3).
  { subst g3.
    destruct (getOrAddNode_links toId
      (getOrAddNode fromId (enterModification g).2).2) as (-> & -> & ->).
    by destruct (getOrAddNode_links fromId (enterModification g).2)
      as (-> & -> & ->). }
  set (c := createSingleLink fromId toId data g3).
  assert (r.1 = c.1 ∧
          links r.2 = JsMap.set (Link.id (linkObj c.1 c.2)) c.1 (links c.2) ∧
          linkObjs r.2 = linkObjs c.2 ∧
          multigraph r.2 = multigraph c.2) as (Hr1 & Hr2 & Hr3 & Hr4).
  { assert (createLink fromId toId data g3 = c) as Hcreate.
    { unfold createLink. by rewrite H3, Hm. }
    subst r. unfold addLink, mbind, M_bind, gets, mret, M_ret.
    cbn [fst snd]. fold g3. rewrite Hcreate.
    match goal with |- context [exitModification ?x] =>
      destruct (exit_links x) as (-> & -> & ->) end.
    match goal with |- context [recordLinkChange ?n ?ct ?x] =>
      destruct (recordLink_links n ct x) as (-> & -> & ->) end.
    unfold updNode, modify. by case_decide. }
  clearbody r g3. rewrite Hr1. unfold linkCount, linkObj.
  rewrite Hr2, Hr3, Hr4. clear Hr1 Hr2 Hr3 Hr4 r.
  subst c. unfold createSingleLink, mbind, M_bind, gets, mret, M_ret.
  cbn [fst snd]. rewrite H1. fold key.
  destruct (JsMap.get key (links g)) as [prev|] eqn:Hprev.
  - destruct (Hc _ _ Hprev) as (l & Hl & Hid).
    unfold updLink, modify. cbn. rewrite H1, H2, H3.
    rewrite !list_lookup_total_alt, list_lookup_alter_eq, Hl. cbn.
    rewrite Hid, get_set_eq.
    repeat split; try done; [congruence|].
    apply (size_set_present (links g)). by eexists.
  - unfold newLink. cbn. rewrite H1, H2, H3.
    rewrite !list_lookup_total_alt, lookup_app_r, Nat.sub_diag by done.
    cbn. rewrite get_set_eq. repeat split; try done.
    intros _. by apply size_set_absent.
Qed.

(** The half of C5 about graphs that are not multigraphs: a second
    [addLink] for the same ordered pair returns the link of the first,
    leaves [linkCount] as it is and replaces the payload. *)
Lemma addLink_again_replaces g fromId toId data1 data2 :
  reachable g → multigraph g = false →
  let r1 := addLink fromId toId data1 g in
  let r2 := addLink fromId toId data2 r1.2 in
  r2.1 = r1.1 ∧
  linkCount r2.2 = linkCount r1.2 ∧
  Link.data (linkObj r2.1 r2.2) = data2.
Proof.
  intros Hg Hm r1 r2.
  destruct (addLink_single g fromId toId data1 Hm
              (reachable_linksConsistent g Hg)) as (Hm1 & Hget & _).
  assert (reachable r1.2) as Hg1.
  { apply (reachable_run (AddLink fromId toId data1) g Hg I). }
  destruct (addLink_single r1.2 fromId toId data2 Hm1
              (reachable_linksConsistent _ Hg1)) as (_ & _ & Hd & Hprev & _).
  destruct (Hprev _ Hget) as [H1 H2]. done.
Qed.

End readd.

(** ** Further consequences and checks *)

(** The only array [find] ever returns is the one-element array of a
    search whose two identifiers name the same node. *)
Lemma find_only_trivial_paths {NodeData LinkData}
    (g : Graph NodeData LinkData) opts a b fuel p path :
  reachable g →
  (find (S fuel) g opts a b p).1 = Path path →
  ∃ r, getNode a g = Some r ∧ getNode b g = Some r ∧ path = [r].
Proof.
  intros Hg%reachable_nodesConsistent.
  destruct (getNode a g) as [ra|] eqn:Ha;
    [|by unfold find; rewrite Ha].
  destruct (getNode b g) as [rb|] eqn:Hb;
    [|by unfold find; rewrite Ha, Hb].
  rewrite (find_result _ _ _ _ _ _ ra rb) by done.
  case_decide as Heq; [|by case_match].
  intros [= <-]. subst rb. by exists ra.
Qed.

(** [find(x, x)] returns the array that holds only [x]. *)
Example find_same_node :
  (find 1 chain defaultOptions (NumId 2) (NumId 2) StatePool.new).1
  = Path [1%nat].
Proof. by vm_compute. Qed.

(** Two nodes and no link: [NO_PATH]. *)
Example find_unlinked :
  (find 1 (runAll [AddNode (NumId 1) None; AddNode (NumId 2) None]
             (newGraph false : Graph string string))
     defaultOptions (NumId 1) (NumId 2) StatePool.new).1
  = NO_PATH.
Proof. by vm_compute. Qed.

(** Three links for the pair (1,2) in a multigraph coexist under three
    identifiers. *)
Example multigraph_three_links :
  let g : Graph string string :=
    runAll [AddLink (NumId 1) (NumId 2) (Some "first");
            AddLink (NumId 1) (NumId 2) (Some "second");
            AddLink (NumId 1) (NumId 2) (Some "third")] (newGraph true) in
  linkCount g = 3%nat ∧
  JsMap.keys (links g) = ["1👉2"; "1@1👉2@1"; "1@2👉2@2"].
Proof. by vm_compute. Qed.

(** [addLink] on new endpoints is delivered as node, node, link. *)
Example addLink_batch :
  emitted (run (AddLink (NumId 1) (NumId 2) None) watched)
  = [[NodeChange CtAdd 0; NodeChange CtAdd 1; LinkChange CtAdd 0]].
Proof. by vm_compute. Qed.

(** [removeNode] of the middle node of the chain is delivered as one batch:
    the two links in enumeration order, then the node; no other node keeps
    a link afterwards. *)
Example removeNode_batch :
  let g := run (RemoveNode (NumId 2)) (run On chain) in
  emitted g
  = [[LinkChange CtRemove 0; LinkChange CtRemove 1; NodeChange CtRemove 1]] ∧
  getLinks (NumId 1) g = [] ∧ getLinks (NumId 3) g = [] ∧ linkCount g = 0%nat.
Proof. by vm_compute. Qed.

(** * Further properties of the code *)

(** ** The pool: slots *)

(** X1.  Two states taken one after the other are different objects:
    taking the second leaves the first as it was initialised, and leaves
    every slot other than its own as it was. *)
Theorem newState_twice_distinct node1 node2 p :
  let r1 := StatePool.newState node1 p in
  let r2 := StatePool.newState node2 r1.2 in
  r1.1 ≠ r2.1 ∧
  StatePool.state r1.1 r2.2 = NodeSearchState.new node1 ∧
  StatePool.state r2.1 r2.2 = NodeSearchState.new node2 ∧
  (∀ s, s ≠ r2.1 → StatePool.state s r2.2 = StatePool.state s r1.2).
Proof.
  rewrite (newState_eq node1 p). cbn [fst snd]. rewrite newState_eq.
  cbn [fst snd]. unfold StatePool.state.
  cbn [StatePool.currentInCache StatePool.nodeCache].
  rewrite !lookup_total_alt, lookup_insert_eq.
  rewrite lookup_insert_ne, lookup_insert_eq by lia.
  repeat split; [lia|].
  intros s Hs. by rewrite !lookup_total_alt, lookup_insert_ne.
Qed.

(** X2.  After [reset] the pool hands out its slots again from the first
    one, and as long as the cursor stays within the slots already
    allocated the cache does not grow. *)
Theorem reset_recycles node p :
  is_Some (StatePool.nodeCache p !! 0%nat) →
  let r := StatePool.newState node (StatePool.reset p) in
  r.1 = 0%nat ∧
  dom (StatePool.nodeCache r.2) = dom (StatePool.nodeCache p) ∧
  StatePool.state 0%nat r.2 = NodeSearchState.new node.
Proof.
  intros Hs. rewrite newState_eq. cbn. split; [done|]. split.
  - rewrite dom_insert_L. apply subseteq_union_1_L.
    by apply singleton_subseteq_l, elem_of_dom.
  - unfold StatePool.state. cbn. by rewrite lookup_total_insert_eq.
Qed.

Lemma reset_recycles_witness :
  let p := (StatePool.newState 4%nat StatePool.new).2 in
  let r := StatePool.newState 7%nat (StatePool.reset p) in
  r.1 = 0%nat ∧
  dom (StatePool.nodeCache r.2) = dom (StatePool.nodeCache p) ∧
  StatePool.state 0%nat r.2 = NodeSearchState.new 7%nat.
Proof.
  apply (reset_recycles 7%nat (StatePool.newState 4%nat StatePool.new).2).
  by eexists.
Defined.

(** ** Links: the other endpoint *)

(** X3.  For an endpoint [x] of a link, [otherId] answers an endpoint of
    the link, and asking again for the other endpoint of the answer gives
    [x] back; on a self-loop the answer is [x] itself. *)
Theorem otherId_involutive {LinkData} (l : Link.t LinkData) x :
  x = Link.fromId l ∨ x = Link.toId l →
  Link.otherId l (Link.otherId l x) = x ∧
  (Link.otherId l x = Link.fromId l ∨ Link.otherId l x = Link.toId l) ∧
  (Link.fromId l = Link.toId l → Link.otherId l x = x).
Proof.
  unfold Link.otherId. intros [->| ->]; repeat case_decide;
    naive_solver.
Qed.

Lemma otherId_involutive_witness :
  let l : Link.t string := Link.mk (NumId 1) (NumId 2) None "1👉2" in
  Link.otherId l (Link.otherId l (NumId 2)) = NumId 2 ∧
  (Link.otherId l (NumId 2) = Link.fromId l ∨
   Link.otherId l (NumId 2) = Link.toId l) ∧
  (Link.fromId l = Link.toId l → Link.otherId l (NumId 2) = NumId 2).
Proof.
  apply (otherId_involutive
           (Link.mk (NumId 1) (NumId 2) (None : option string) "1👉2")
           (NumId 2)).
  by right.
Defined.

(** ** Path reconstruction *)

Lemma reconstructFrom_chain p fuel s path :
  parentChain p s path → (length path ≤ fuel)%nat →
  reconstructFrom fuel p (Some s) = Some path.
Proof.
  intros Hc. revert fuel.
  induction Hc as [s Hs|s s' path Hs Hc IH]; intros [|fuel] Hlen;
    cbn in Hlen; try lia; cbn; rewrite Hs.
  - by destruct fuel.
  - rewrite IH by lia. done.
Qed.

Lemma reconstructFrom_sound p fuel s path :
  reconstructFrom fuel p (Some s) = Some path → parentChain p s path.
Proof.
  revert s path. induction fuel as [|fuel IH]; intros s path; [done|].
  cbn. destruct (NodeSearchState.parent (StatePool.state s p)) as [s'|] eqn:Hs.
  - destruct (reconstructFrom fuel p (Some s')) as [rest|] eqn:Hr; [|done].
    intros [= <-]. apply (parentChain_step p s s'); [done|]. by apply IH.
  - destruct fuel; intros [= <-]; by apply parentChain_root.
Qed.

(** X4.  [reconstructPath] returns the nodes of the states along the
    [parent] links, the given state's node first and the node of the state
    without parent last, and nothing else; the walk reaches the end of a
    chain that is no longer than the number of states handed out. *)
Theorem reconstructPath_chain p s path :
  (length path ≤ S (StatePool.currentInCache p))%nat →
  reconstructPath p s = Some path ↔ parentChain p s path.
Proof.
  intros Hlen. unfold reconstructPath. split.
  - destruct (NodeSearchState.parent (StatePool.state s p)) as [s'|] eqn:Hs.
    + destruct (reconstructFrom _ p (Some s')) as [rest|] eqn:Hr; [|done].
      intros [= <-]. apply (parentChain_step p s s'); [done|].
      by apply reconstructFrom_sound in Hr.
    + destruct (StatePool.currentInCache p); intros [= <-];
        by apply parentChain_root.
  - intros Hc. destruct Hc as [s Hs|s s' path Hs Hc]; rewrite Hs.
    + by destruct (StatePool.currentInCache p).
    + cbn in Hlen.
      rewrite (reconstructFrom_chain p _ s' path) by (done || lia).
      done.
Qed.

Lemma reconstructPath_chain_witness :
  reconstructPath threeStates 2%nat = Some [12; 11; 10]%nat ↔
  parentChain threeStates 2%nat [12; 11; 10]%nat.
Proof.
  apply (reconstructPath_chain threeStates 2%nat [12; 11; 10]%nat).
  vm_compute. lia.
Defined.

(** ** More on maps *)

Section jsmap_more.
Context {K V : Type} `{EqDecision K}.
Implicit Types (m : list (K * V)) (k : K) (v : V).

Lemma get_None_keys m k : JsMap.get k m = None ↔ k ∉ JsMap.keys m.
Proof.
  unfold JsMap.keys. induction m as [|[k' v'] m IH]; simpl.
  - split; [intros _ ?%elem_of_nil; done|done].
  - rewrite not_elem_of_cons. destruct (decide (k = k')) as [->|Hne].
    + split; [done|]. by intros [? _].
    + rewrite IH. split; [by intros ?; split|by intros [_ ?]].
Qed.

Lemma delete_absent m k : JsMap.get k m = None → JsMap.delete k m = m.
Proof.
  induction m as [|[k' v'] m IH]; simpl; [done|].
  destruct (decide (k = k')); [done|]. intros ?. by rewrite IH.
Qed.

Lemma keys_delete_subseteq m k : JsMap.keys (JsMap.delete k m) ⊆ JsMap.keys m.
Proof.
  unfold JsMap.keys. induction m as [|[k' v'] m IH]; simpl; [done|].
  destruct (decide (k = k')); simpl.
  - intros x Hx. right. by apply IH.
  - intros x [->|Hx]%elem_of_cons; [left|right; by apply IH].
Qed.

Lemma NoDup_keys_delete m k :
  NoDup (JsMap.keys m) → NoDup (JsMap.keys (JsMap.delete k m)).
Proof.
  unfold JsMap.keys. induction m as [|[k' v'] m IH]; simpl; [done|].
  intros [Hk Hm]%NoDup_cons. destruct (decide (k = k')); simpl; [by apply IH|].
  apply NoDup_cons. split; [|by apply IH].
  intros Hin. apply Hk. by apply (keys_delete_subseteq m k).
Qed.

Lemma keys_set m k v :
  JsMap.keys (JsMap.set k v m) =
    if JsMap.get k m is Some _ then JsMap.keys m
    else (JsMap.keys m ++ [k])%list.
Proof.
  unfold JsMap.keys. induction m as [|[k' v'] m IH]; simpl; [done|].
  destruct (decide (k = k')) as [->|Hne]; simpl; [done|].
  fold (@fmap list _ _ _ (@fst K V) (JsMap.set k v m)). rewrite IH.
  by destruct (JsMap.get k m).
Qed.

Lemma NoDup_keys_set m k v :
  NoDup (JsMap.keys m) → NoDup (JsMap.keys (JsMap.set k v m)).
Proof.
  intros Hm. rewrite keys_set.
  destruct (JsMap.get k m) eqn:Hk; [done|].
  apply NoDup_app. split_and!; [done| |apply NoDup_singleton].
  intros x Hx ->%list_elem_of_singleton. by apply get_None_keys in Hk.
Qed.

Lemma size_delete_present m k v :
  NoDup (JsMap.keys m) → JsMap.get k m = Some v →
  S (JsMap.size (JsMap.delete k m)) = JsMap.size m.
Proof.
  unfold JsMap.size, JsMap.keys.
  induction m as [|[k' v'] m IH]; simpl; [done|].
  intros [Hk Hm]%NoDup_cons. destruct (decide (k = k')) as [->|Hne]; simpl.
  - intros _. rewrite delete_absent; [done|]. by apply get_None_keys.
  - intros Hg. by rewrite IH.
Qed.

Lemma delete_set_absent m k v :
  JsMap.get k m = None → JsMap.delete k (JsMap.set k v m) = m.
Proof.
  induction m as [|[k' v'] m IH]; simpl.
  - by rewrite decide_True.
  - destruct (decide (k = k')) as [->|Hne]; simpl; [done|].
    intros Hm. by rewrite decide_False, IH.
Qed.

Lemma foldl_delete_keys m (ks : list K) :
  JsMap.keys m ⊆ ks → foldl (λ m k, JsMap.delete k m) m ks = [].
Proof.
  revert m. induction ks as [|k ks IH]; intros m Hsub; simpl.
  - destruct m as [|[k v] m]; [done|].
    exfalso. apply (not_elem_of_nil k), Hsub. unfold JsMap.keys. simpl. left.
  - apply IH. intros x Hx.
    assert (x ≠ k) as Hne.
    { intros ->. by apply (proj1 (get_None_keys _ _) (get_delete_eq m k)). }
    apply (keys_delete_subseteq m k), Hsub in Hx.
    by apply elem_of_cons in Hx as [->|Hx].
Qed.
End jsmap_more.

(** ** The graph store: what the calls do to the node map *)

(** One step of a proof that a method preserves a property of the graph,
    chosen by the head of the method's code; [prim] settles the steps that
    are not composed of others. *)
Ltac inv_step prim :=
  lazymatch goal with
  | |- preserves _ (_ ≫= _) => apply preserves_bind; [|intros ?]
  | |- preserves _ (mret _) => apply preserves_ret
  | |- preserves _ (gets _) => apply preserves_gets
  | |- preserves _ (forEach _ _) =>
      apply preserves_forEach; intros ?; cbv beta
  | |- preserves _ (match ?x with _ => _ end) => destruct x
  | |- _ => prim
  end.

Section store_more.
Context {NodeData LinkData : Type}.
Local Abbreviation Graph := (Graph NodeData LinkData).
Local Abbreviation M := (M NodeData LinkData).
Implicit Types (g : Graph).

Lemma preserves_sameNodes {A} (P : Graph → Prop) (m : M A) :
  (∀ g g', sameNodes g g' → P g → P g') →
  (∀ g, sameNodes g (m g).2) → preserves P m.
Proof. intros HP Hm g. apply HP, Hm. Qed.

Ltac same_nodes :=
  intros ?;
  first [ apply same_enter | apply same_exit | apply same_recordNode
        | apply same_recordLink | apply same_createLink | done ].

(** *** The node map and the identifiers of the node objects *)

Lemma keepsNodes_same g0 g g' :
  sameNodes g g' → keepsNodes g0 g → keepsNodes g0 g'.
Proof. unfold keepsNodes, nodeObj. by intros [-> ->]. Qed.

Lemma keepsNodes_updNode g0 r f :
  (∀ n, Node.id (f n) = Node.id n) →
  preserves (keepsNodes g0) (updNode r f : M unit).
Proof.
  intros Hf g [Hn Hi]. split; [done|]. intros r'. rewrite <-Hi.
  unfold nodeObj. cbn. rewrite !list_lookup_total_alt, list_lookup_alter.
  case_decide; [subst|done]. destruct (nodeObjs g !! r'); cbn; [apply Hf|done].
Qed.

Ltac keeps_prim :=
  first [ apply keepsNodes_updNode; by intros [? [?|] ?]
        | apply preserves_sameNodes; [apply keepsNodes_same|same_nodes] ].

Lemma keepsNodes_removeLinkInstance g0 link :
  preserves (keepsNodes g0) (removeLinkInstance link : M bool).
Proof. unfold removeLinkInstance, detachLink. repeat inv_step keeps_prim. Qed.

Lemma keepsNodes_refl g : keepsNodes g g.
Proof. done. Qed.

(** What [removeNode] does to the node map. *)
Lemma removeNode_nodes nodeId g :
  let r := removeNode nodeId g in
  r.1 = bool_decide (is_Some (getNode nodeId g)) ∧
  nodes r.2 = JsMap.delete nodeId (nodes g) ∧
  ∀ r', Node.id (nodeObj r' r.2) = Node.id (nodeObj r' g).
Proof.
  intros r. subst r. destruct (getNode nodeId g) as [node|] eqn:Hn.
  - assert (hoare (keepsNodes g)
      (prevLinks ← gets (λ g, Node.links (nodeObj node g));
       match prevLinks with
       | Some ls =>
           forEach removeLinkInstance ls ;;
           updNode node (Node.setLinks None)
       | None => mret tt
       end : M unit) (λ _, keepsNodes g)) as Hloop.
    { apply hoare_preserves.
      repeat inv_step ltac:(first [ apply keepsNodes_removeLinkInstance
                                  | keeps_prim ]). }
    assert (∃ X, removeNode nodeId g =
                   (true, (exitModification
                      (recordNodeChange node CtRemove
                         (set_nodes (JsMap.delete nodeId (nodes X)) X)).2).2) ∧
                 keepsNodes g X) as (X & -> & Hnodes & Hids).
    { eexists. split; [|by apply (Hloop (enterModification g).2)].
      unfold removeNode, mbind, M_bind, gets, mret, M_ret. cbn [fst snd].
      by rewrite Hn. }
    cbn [fst snd].
    match goal with |- context [exitModification ?x] =>
      destruct (same_exit x) as [He1 He2] end.
    match goal with |- context [recordNodeChange ?n ?c ?x] =>
      destruct (same_recordNode n c x) as [Hr1 Hr2] end.
    unfold nodeObj in *. rewrite He1, He2, Hr1, Hr2. cbn.
    rewrite Hnodes. split; [done|split; [done|apply Hids]].
  - rewrite (removeNode_absent g nodeId Hn). cbn.
    by rewrite delete_absent.
Qed.

(** *** The keys of the node map *)

Lemma preserves_nodes {A} (P : Graph → Prop) (m : M A) :
  (∀ g g', nodes g' = nodes g → P g → P g') →
  (∀ g, nodes (m g).2 = nodes g) → preserves P m.
Proof. intros HP Hm g. apply HP, Hm. Qed.

Lemma nodeKeysUnique_nodes g g' :
  nodes g' = nodes g → nodeKeysUnique g → nodeKeysUnique g'.
Proof. unfold nodeKeysUnique. by intros ->. Qed.

Ltac nodes_prim :=
  idtac;
  lazymatch goal with
  | |- preserves _ (modify (λ g, set_nodes (JsMap.delete _ _) _)) =>
      intros ? ?; by apply NoDup_keys_delete
  | |- preserves _ (modify (λ g, set_nodes (JsMap.set _ _ _) _)) =>
      intros ? ?; by apply NoDup_keys_set
  | |- _ =>
      apply preserves_nodes; [apply nodeKeysUnique_nodes|];
      intros ?;
      first [ apply (proj1 (same_enter _)) | apply (proj1 (same_exit _))
            | apply (proj1 (same_recordNode _ _ _))
            | apply (proj1 (same_recordLink _ _ _))
            | apply (proj1 (same_createLink _ _ _ _)) | done ]
  end.

Lemma nodeKeysUnique_addNode nodeId data :
  preserves nodeKeysUnique (addNode nodeId data : M nref).
Proof. unfold addNode. repeat inv_step nodes_prim. Qed.

Lemma nodeKeysUnique_removeLinkInstance link :
  preserves nodeKeysUnique (removeLinkInstance link : M bool).
Proof. unfold removeLinkInstance, detachLink. repeat inv_step nodes_prim. Qed.

Lemma nodeKeysUnique_removeNode nodeId :
  preserves nodeKeysUnique (removeNode nodeId : M bool).
Proof.
  unfold removeNode.
  repeat inv_step ltac:(first [ apply nodeKeysUnique_removeLinkInstance
                              | nodes_prim ]).
Qed.

Lemma nodeKeysUnique_run (c : Call NodeData LinkData) g :
  nodeKeysUnique g → nodeKeysUnique (run c g).
Proof.
  destruct c; cbn [run].
  - apply nodeKeysUnique_addNode.
  - apply nodeKeysUnique_removeNode.
  - assert (preserves nodeKeysUnique (addLink fromId toId data : M _)) as H;
      [|apply H].
    unfold addLink, getOrAddNode.
    repeat inv_step ltac:(first [ apply nodeKeysUnique_addNode
                                | nodes_prim ]).
  - assert (preserves nodeKeysUnique (removeLink arg : M _)) as H;
      [|apply H].
    unfold removeLink.
    repeat inv_step ltac:(first [ apply nodeKeysUnique_removeLinkInstance
                                | nodes_prim ]).
  - apply nodeKeysUnique_removeLinkInstance.
  - assert (preserves nodeKeysUnique (clear : M _)) as H; [|apply H].
    unfold clear.
    repeat inv_step ltac:(first [ apply nodeKeysUnique_removeNode
                                | nodes_prim ]).
  - done.
  - done.
Qed.

Lemma reachable_nodeKeysUnique g : reachable g → nodeKeysUnique g.
Proof.
  induction 1 as [multi|c g _ IH _].
  - apply NoDup_nil_2.
  - by apply nodeKeysUnique_run.
Qed.

(** What [addNode] does to the node map and to the node objects. *)
Lemma addNode_shape nodeId data g :
  let r := addNode nodeId data g in
  match getNode nodeId g with
  | Some node =>
      r.1 = node ∧ nodes r.2 = nodes g ∧
      nodeObjs r.2 = alter (Node.setData data) node (nodeObjs g)
  | None =>
      r.1 = length (nodeObjs g) ∧
      nodes r.2 = JsMap.set nodeId (length (nodeObjs g)) (nodes g) ∧
      nodeObjs r.2 = (nodeObjs g ++ [Node.mk nodeId None data])%list
  end.
Proof.
  intros r. subst r.
  unfold addNode, mbind, M_bind, gets, mret, M_ret. cbn [fst snd].
  match goal with |- context [exitModification ?x] =>
    destruct (same_exit x) as [-> ->] end.
  change (getNode nodeId (enterModification g).2) with (getNode nodeId g).
  destruct (getNode nodeId g) as [node|]; cbn [fst snd];
    match goal with |- context [recordNodeChange ?n ?c ?x] =>
      destruct (same_recordNode n c x) as [Hr1 Hr2] end.
  - by rewrite Hr1, Hr2.
  - unfold modify, set_nodes. cbn [fst snd nodes nodeObjs].
    by rewrite Hr1, Hr2.
Qed.

End store_more.

(** ** Nodes: insertion, lookup, removal *)

(** X5.  After [addNode(id, data)] on a graph built by public calls,
    [getNode(id)] is the node returned, which carries the identifier and
    the payload; every other identifier resolves as before, to a node
    object that is unchanged; [nodeCount] grows by one for a new
    identifier and stays for a known one, and [linkCount] stays. *)
Theorem addNode_getNode {NodeData LinkData} (g : Graph NodeData LinkData)
    nodeId data :
  reachable g →
  let r := addNode nodeId data g in
  getNode nodeId r.2 = Some r.1 ∧
  Node.id (nodeObj r.1 r.2) = nodeId ∧
  Node.data (nodeObj r.1 r.2) = data ∧
  (∀ k, k ≠ nodeId →
     getNode k r.2 = getNode k g ∧
     ∀ n, getNode k g = Some n → nodeObj n r.2 = nodeObj n g) ∧
  nodeCount r.2 =
    (if getNode nodeId g is Some _ then nodeCount g else S (nodeCount g)) ∧
  linkCount r.2 = linkCount g.
Proof.
  intros Hg r. pose proof (reachable_nodesConsistent g Hg) as Hc.
  pose proof (addNode_shape nodeId data g) as Hs. fold r in Hs.
  destruct (addNode_links nodeId data g) as (Hl & _). fold r in Hl.
  unfold linkCount. rewrite Hl. clearbody r.
  unfold getNode, nodeCount, nodeObj in *.
  destruct (JsMap.get nodeId (nodes g)) as [node|] eqn:Hn.
  - destruct Hs as (-> & -> & ->). destruct (Hc _ _ Hn) as (n & Hobj & Hid).
    rewrite !list_lookup_total_alt, list_lookup_alter_eq, Hobj. cbn.
    repeat split; try done.
    intros n' Hn'. rewrite !list_lookup_total_alt, list_lookup_alter_ne; [done|].
    intros ->. destruct (Hc _ _ Hn') as (n2 & Hobj2 & Hid2). congruence.
  - destruct Hs as (-> & -> & ->).
    rewrite get_set_eq, !list_lookup_total_alt, lookup_app_r, Nat.sub_diag
      by done. cbn.
    repeat split; try done.
    + by rewrite get_set_ne.
    + intros n' Hn'. destruct (Hc _ _ Hn') as (n2 & Hobj2 & Hid2).
      by rewrite !list_lookup_total_alt, (lookup_app_l_Some _ _ _ _ Hobj2),
        Hobj2.
    + by apply size_set_absent.
Qed.

Lemma addNode_getNode_witness :
  let r := addNode (NumId 9) (Some "nine") chain in
  getNode (NumId 9) r.2 = Some r.1 ∧
  Node.id (nodeObj r.1 r.2) = NumId 9 ∧
  Node.data (nodeObj r.1 r.2) = Some "nine" ∧
  (∀ k, k ≠ NumId 9 →
     getNode k r.2 = getNode k chain ∧
     ∀ n, getNode k chain = Some n → nodeObj n r.2 = nodeObj n chain) ∧
  nodeCount r.2 =
    (if getNode (NumId 9) chain is Some _ then nodeCount chain
     else S (nodeCount chain)) ∧
  linkCount r.2 = linkCount chain.
Proof. apply (addNode_getNode chain (NumId 9) (Some "nine") reachable_chain). Defined.

(** X6.  [removeNode(id)] of a node of a graph built by public calls
    returns true; afterwards [getNode(id)] is undefined, every other
    identifier resolves as before, and [nodeCount] is one less. *)
Theorem removeNode_getNode {NodeData LinkData} (g : Graph NodeData LinkData)
    nodeId :
  reachable g → is_Some (getNode nodeId g) →
  let r := removeNode nodeId g in
  r.1 = true ∧
  getNode nodeId r.2 = None ∧
  (∀ k, k ≠ nodeId → getNode k r.2 = getNode k g) ∧
  S (nodeCount r.2) = nodeCount g.
Proof.
  intros Hg [node Hn] r.
  destruct (removeNode_nodes nodeId g) as (H1 & H2 & _). fold r in H1, H2.
  clearbody r. unfold getNode, nodeCount in *. rewrite H1, H2, Hn.
  split; [by apply bool_decide_eq_true_2|].
  split; [apply get_delete_eq|]. split.
  - intros k Hk. by apply get_delete_ne.
  - apply (size_delete_present _ _ node); [|done].
    by apply reachable_nodeKeysUnique.
Qed.

Lemma removeNode_getNode_witness :
  let r := removeNode (NumId 2) chain in
  r.1 = true ∧
  getNode (NumId 2) r.2 = None ∧
  (∀ k, k ≠ NumId 2 → getNode k r.2 = getNode k chain) ∧
  S (nodeCount r.2) = nodeCount chain.
Proof.
  apply (removeNode_getNode chain (NumId 2) reachable_chain). by eexists.
Defined.

(** ** Clearing the graph *)

Section clearing.
Context {NodeData LinkData : Type}.
Implicit Types (g : Graph NodeData LinkData).

Lemma clear_loop (entries : list (NodeId * nref)) g :
  (∀ k r, (k, r) ∈ entries → Node.id (nodeObj r g) = k) →
  nodes (forEach
           (λ node, id ← gets (λ g, Node.id (nodeObj node g)); removeNode id)
           entries.*2 g).2
  = foldl (λ m k, JsMap.delete k m) (nodes g) entries.*1.
Proof.
  revert g. induction entries as [|[k r] entries IH]; intros g Hids; [done|].
  change (nodes (forEach
           (λ node, id ← gets (λ g, Node.id (nodeObj node g)); removeNode id)
           entries.*2 (removeNode (Node.id (nodeObj r g)) g).2).2
          = foldl (λ m k, JsMap.delete k m) (JsMap.delete k (nodes g))
              entries.*1).
  rewrite (Hids k r) by left.
  destruct (removeNode_nodes k g) as (_ & Hn & Hi).
  rewrite IH, Hn; [done|].
  intros k' r' Hin. rewrite Hi. apply Hids. by right.
Qed.

Lemma get_Some_elem {K V} `{EqDecision K} (m : list (K * V)) k v :
  NoDup (JsMap.keys m) → (k, v) ∈ m → JsMap.get k m = Some v.
Proof.
  unfold JsMap.keys. induction m as [|[k' v'] m IH]; simpl.
  - by intros _ ?%elem_of_nil.
  - intros [Hk Hm]%NoDup_cons [[= -> ->]|Hin]%elem_of_cons.
    + by rewrite decide_True.
    + rewrite decide_False; [by apply IH|].
      intros ->. apply Hk. by apply (list_elem_of_fmap_2 fst _ (k', v)).
Qed.

Lemma clear_nodes g :
  nodesConsistent g → nodeKeysUnique g → nodes (clear g).2 = [].
Proof.
  intros Hc Hu. unfold clear, mbind, M_bind, gets. cbn [fst snd].
  match goal with |- context [exitModification ?x] =>
    destruct (same_exit x) as [-> _] end.
  unfold nodesOf, JsMap.values.
  change (nodes (enterModification g).2) with (nodes g).
  rewrite clear_loop.
  - by apply foldl_delete_keys.
  - intros k r Hin.
    change (nodeObj r (enterModification g).2) with (nodeObj r g).
    apply nodeObj_consistent; [done|]. by apply get_Some_elem.
Qed.
End clearing.

(** ** Links: insertion, lookup, removal *)

Section linking.
Context {NodeData LinkData : Type}.
Implicit Types (g : Graph NodeData LinkData).

(** What [addLink] does to the maps and the objects, in terms of its
    steps. *)
Lemma addLink_shape fromId toId data g :
  let a := getOrAddNode fromId (enterModification g).2 in
  let b := getOrAddNode toId a.2 in
  let c := createLink fromId toId data b.2 in
  let r := addLink fromId toId data g in
  r.1 = c.1 ∧
  nodes r.2 = nodes b.2 ∧
  nodeObjs r.2 =
    (if decide (fromId ≠ toId) then alter (Node.addLink c.1) b.1 else id)
      (alter (Node.addLink c.1) a.1 (nodeObjs b.2)) ∧
  links r.2 = JsMap.set (Link.id (linkObj c.1 c.2)) c.1 (links c.2) ∧
  linkObjs r.2 = linkObjs c.2.
Proof.
  intros a b c r. subst r.
  unfold addLink, mbind, M_bind, gets, mret, M_ret. cbn [fst snd].
  fold a. fold b. fold c.
  destruct (same_createLink fromId toId data b.2) as [Hc1 Hc2]. fold c in Hc1, Hc2.
  clearbody c. clearbody b. clearbody a.
  match goal with |- context [exitModification ?x] =>
    destruct (same_exit x) as [-> ->];
    destruct (exit_links x) as (-> & -> & _) end.
  match goal with |- context [recordLinkChange ?n ?ct ?x] =>
    destruct (same_recordLink n ct x) as [-> ->];
    destruct (recordLink_links n ct x) as (-> & -> & _) end.
  unfold updNode, modify. case_decide; cbn; rewrite ?Hc1, ?Hc2; done.
Qed.

Lemma getOrAddNode_shape id g :
  nodesConsistent g →
  let a := getOrAddNode id g in
  getNode id a.2 = Some a.1 ∧
  nodesConsistent a.2 ∧
  (∀ k n, getNode k g = Some n → getNode k a.2 = Some n) ∧
  (∀ n, is_Some (nodeObjs g !! n) → nodeObj n a.2 = nodeObj n g).
Proof.
  intros Hc a. subst a. unfold getOrAddNode, mbind, M_bind, gets.
  cbn [fst snd]. destruct (getNode id g) as [node|] eqn:Hn; [done|].
  split_and!.
  - pose proof (addNode_shape id None g) as Hs. rewrite Hn in Hs.
    destruct Hs as (-> & Hs & _). unfold getNode. by rewrite Hs, get_set_eq.
  - by apply nodesConsistent_addNode.
  - pose proof (addNode_shape id None g) as Hs. rewrite Hn in Hs.
    destruct Hs as (_ & Hs & _). intros k n Hk. unfold getNode in *.
    rewrite Hs, get_set_ne; [done|]. intros ->. congruence.
  - pose proof (addNode_shape id None g) as Hs. rewrite Hn in Hs.
    destruct Hs as (_ & _ & Hs). intros n [x Hx]. unfold nodeObj.
    by rewrite Hs, !list_lookup_total_alt, (lookup_app_l_Some _ _ _ _ Hx), Hx.
Qed.

Lemma elem_addLink (link : lref) (n : Node.t NodeData) :
  link ∈ default [] (Node.links (Node.addLink link n)).
Proof.
  unfold Node.addLink. destruct (Node.links n) as [s|]; cbn; [|by left].
  unfold JsSet.add. case_bool_decide; [done|].
  apply elem_of_app. right. by left.
Qed.

Lemma elem_addLink_mono (link l : lref) (n : Node.t NodeData) :
  l ∈ default [] (Node.links n) →
  l ∈ default [] (Node.links (Node.addLink link n)).
Proof.
  unfold Node.addLink. destruct (Node.links n) as [s|]; cbn.
  - unfold JsSet.add. case_bool_decide; [done|].
    intros ?. apply elem_of_app. by left.
  - by intros ?%elem_of_nil.
Qed.

Lemma alter_addLink_mono (objs : list (Node.t NodeData)) link l r r' :
  l ∈ default [] (Node.links (objs !!! r')) →
  l ∈ default [] (Node.links (alter (Node.addLink link) r objs !!! r')).
Proof.
  rewrite !list_lookup_total_alt, list_lookup_alter.
  case_decide; [subst|done].
  destruct (objs !! r'); cbn; [apply elem_addLink_mono|done].
Qed.

Lemma alter_addLink_elem (objs : list (Node.t NodeData)) link r :
  is_Some (objs !! r) →
  link ∈ default [] (Node.links (alter (Node.addLink link) r objs !!! r)).
Proof.
  intros [n Hn]. rewrite !list_lookup_total_alt, list_lookup_alter_eq, Hn.
  apply elem_addLink.
Qed.

Lemma createLink_registered fromId toId data g :
  linksConsistent g →
  let c := createLink fromId toId data g in
  is_Some (linkObjs c.2 !! c.1).
Proof. intros Hc. by apply (linksConsistent_createLink fromId toId data g). Qed.

End linking.

(** X7.  [addLink(fromId, toId, data)] on a graph built by public calls
    leaves both endpoints in the graph, creating the missing ones; the
    link it returns is in the link set of each endpoint and is stored under
    its own identifier; no node is lost and no link leaves a link set. *)
Theorem addLink_attaches {NodeData LinkData} (g : Graph NodeData LinkData)
    fromId toId data :
  reachable g →
  let r := addLink fromId toId data g in
  is_Some (getNode fromId r.2) ∧
  is_Some (getNode toId r.2) ∧
  r.1 ∈ getLinks fromId r.2 ∧
  r.1 ∈ getLinks toId r.2 ∧
  JsMap.get (Link.id (linkObj r.1 r.2)) (links r.2) = Some r.1 ∧
  (∀ k n, getNode k g = Some n → getNode k r.2 = Some n) ∧
  (∀ k l, l ∈ getLinks k g → l ∈ getLinks k r.2).
Proof.
  intros Hg r.
  pose proof (reachable_nodesConsistent g Hg) as Hc.
  destruct (addLink_shape fromId toId data g) as (H1 & H2 & H3 & H4 & H5).
  fold r in H1, H2, H3, H4, H5.
  set (a := getOrAddNode fromId (enterModification g).2) in *.
  set (b := getOrAddNode toId a.2) in *.
  set (c := createLink fromId toId data b.2) in *.
  destruct (getOrAddNode_shape fromId (enterModification g).2 Hc)
    as (Ha1 & Ha2 & Ha3 & Ha4). fold a in Ha1, Ha2, Ha3, Ha4.
  destruct (getOrAddNode_shape toId a.2 Ha2) as (Hb1 & Hb2 & Hb3 & Hb4).
  fold b in Hb1, Hb2, Hb3, Hb4.
  pose proof (Hb3 _ _ Ha1) as Hfrom.
  destruct (Hb2 _ _ Hfrom) as (nf & Hnf & _).
  destruct (Hb2 _ _ Hb1) as (nt & Hnt & _).
  clearbody r c. unfold getLinks, getNode, nodeObj, linkObj in *.
  rewrite H1, H2, H3, H4, H5, Hfrom, Hb1, get_set_eq.
  split_and!; try done.
  - case_decide; unfold id; [apply alter_addLink_mono|];
      apply alter_addLink_elem; by eexists.
  - case_decide as Hne; unfold id.
    + apply alter_addLink_elem. rewrite list_lookup_alter.
      case_decide; rewrite ?fmap_is_Some; by eexists.
    + subst toId.
      rewrite Hfrom in Hb1. injection Hb1 as <-.
      apply alter_addLink_elem. by eexists.
  - intros k n Hk. by apply Hb3, Ha3.
  - intros k l. destruct (JsMap.get k (nodes g)) as [n|] eqn:Hk;
      [|by intros ?%elem_of_nil].
    rewrite (Hb3 _ _ (Ha3 _ _ Hk)).
    destruct (Hc _ _ Hk) as (x & Hx & _).
    assert (nodeObjs b.2 !!! n = nodeObjs g !!! n) as Hsame.
    { assert (is_Some (nodeObjs a.2 !! n)) as Hlive.
      { destruct (Ha2 _ _ (Ha3 _ _ Hk)) as (? & ? & _). by eexists. }
      rewrite (Hb4 n Hlive). apply (Ha4 n). by eexists. }
    intros Hl. rewrite <-Hsame in Hl.
    case_decide; unfold id; [apply alter_addLink_mono|];
      by apply alter_addLink_mono.
Qed.

Lemma addLink_attaches_witness :
  let r := addLink (NumId 3) (NumId 8) (Some "new") chain in
  is_Some (getNode (NumId 3) r.2) ∧
  is_Some (getNode (NumId 8) r.2) ∧
  r.1 ∈ getLinks (NumId 3) r.2 ∧
  r.1 ∈ getLinks (NumId 8) r.2 ∧
  JsMap.get (Link.id (linkObj r.1 r.2)) (links r.2) = Some r.1 ∧
  (∀ k n, getNode k chain = Some n → getNode k r.2 = Some n) ∧
  (∀ k l, l ∈ getLinks k chain → l ∈ getLinks k r.2).
Proof.
  apply (addLink_attaches chain (NumId 3) (NumId 8) (Some "new")
           reachable_chain).
Defined.

(** *** Graphs that are not multigraphs *)

Section linking_single.
Context {NodeData LinkData : Type}.
Implicit Types (g : Graph NodeData LinkData).

(** [addLink] for a pair whose identifier the link map of a graph that is
    not a multigraph does not hold: a new Link object is created and
    stored. *)
Lemma addLink_new fromId toId data g :
  multigraph g = false →
  let key := Link.makeId (idString fromId) (idString toId) in
  JsMap.get key (links g) = None →
  let r := addLink fromId toId data g in
  r.1 = length (linkObjs g) ∧
  links r.2 = JsMap.set key r.1 (links g) ∧
  linkObjs r.2 = (linkObjs g ++ [Link.mk fromId toId data key])%list.
Proof.
  intros Hm key Hkey r.
  destruct (addLink_shape fromId toId data g) as (H1 & _ & _ & H4 & H5).
  fold r in H1, H4, H5.
  set (a := getOrAddNode fromId (enterModification g).2) in *.
  set (b := getOrAddNode toId a.2) in *.
  destruct (getOrAddNode_links toId a.2) as (Hb1 & Hb2 & Hb3).
  destruct (getOrAddNode_links fromId (enterModification g).2)
    as (Ha1 & Ha2 & Ha3).
  fold a in Ha1, Ha2, Ha3. fold b in Hb1, Hb2, Hb3.
  rewrite Ha1 in Hb1. rewrite Ha2 in Hb2. rewrite Ha3 in Hb3.
  change (links (enterModification g).2) with (links g) in Hb1.
  change (linkObjs (enterModification g).2) with (linkObjs g) in Hb2.
  change (multigraph (enterModification g).2) with (multigraph g) in Hb3.
  clearbody r b. clear a Ha1 Ha2 Ha3.
  rewrite H1, H4, H5. clear H1 H4 H5.
  unfold createLink. rewrite Hb3, Hm.
  unfold createSingleLink, mbind, M_bind, gets, newLink, linkObj.
  cbn [fst snd]. fold key. rewrite Hb1, Hkey. cbn. rewrite Hb1, Hb2.
  by rewrite list_lookup_total_alt, lookup_app_r, Nat.sub_diag.
Qed.

Lemma removeLink_ByLink link g :
  removeLink (ByLink link) g =
    (Return (removeLinkInstance link g).1, (removeLinkInstance link g).2).
Proof. reflexivity. Qed.

Lemma removeLink_ByEndpoints fromId toId link g :
  getLink fromId toId g = Some link →
  removeLink (ByEndpoints fromId toId) g =
    (Return (removeLinkInstance link g).1, (removeLinkInstance link g).2).
Proof.
  intros Hl. unfold removeLink, mbind, M_bind, gets, mret, M_ret.
  cbn [fst snd]. by rewrite Hl.
Qed.
End linking_single.



(** X9.  On a graph that is not a multigraph, adding a link for a pair
    (with truthy identifiers) that has none and then removing it gives the
    link map back: both overloads of [removeLink] return true and do the
    same, the link map is the one before [addLink], [getLink] no longer
    finds the pair, and the link is in neither endpoint's link set. *)
Theorem addLink_removeLink {NodeData LinkData} (g : Graph NodeData LinkData)
    fromId toId data :
  reachable g → multigraph g = false →
  falsy fromId = false → falsy toId = false →
  getLink fromId toId g = None →
  let r := addLink fromId toId data g in
  let r' := removeLink (ByEndpoints fromId toId) r.2 in
  r'.1 = Return true ∧
  removeLink (ByLink r.1) r.2 = r' ∧
  links r'.2 = links g ∧
  getLink fromId toId r'.2 = None ∧
  (r.1 ∉ getLinks fromId r'.2) ∧
  (r.1 ∉ getLinks toId r'.2).
Proof.
  intros Hg Hm Hf Ht Hnone r r'.
  pose proof (reachable_linksConsistent g Hg) as Hc.
  unfold getLink in Hnone. rewrite Hf, Ht in Hnone. cbn [orb] in Hnone.
  destruct (addLink_single g fromId toId data Hm Hc) as (_ & Hget & _).
  destruct (addLink_new fromId toId data g Hm Hnone) as (H1 & H2 & H3).
  fold r in Hget, H1, H2, H3. clearbody r.
  assert (linkObj r.1 r.2 =
          Link.mk fromId toId data
            (Link.makeId (idString fromId) (idString toId))) as Hobj.
  { unfold linkObj.
    by rewrite H3, H1, list_lookup_total_alt, lookup_app_r, Nat.sub_diag. }
  assert (getLink fromId toId r.2 = Some r.1) as Hget'.
  { unfold getLink. by rewrite Hf, Ht. }
  subst r'. rewrite (removeLink_ByEndpoints _ _ _ _ Hget'), removeLink_ByLink.
  destruct (removeLinkInstance_registered r.2 r.1)
    as (R1 & _ & R3 & _ & R5 & R6).
  { rewrite Hobj. cbn [Link.id]. by eexists. }
  rewrite Hobj in R3, R5, R6. cbn [Link.id Link.fromId Link.toId] in R3, R5, R6.
  cbn [fst snd]. split; [by rewrite R1|]. split; [reflexivity|].
  unfold getLink. rewrite Hf, Ht. cbn [orb].
  rewrite R3, H2, delete_set_absent by done. done.
Qed.

Lemma addLink_removeLink_witness :
  let r := addLink (NumId 1) (NumId 3) (Some "short cut") chain in
  let r' := removeLink (ByEndpoints (NumId 1) (NumId 3)) r.2 in
  r'.1 = Return true ∧
  removeLink (ByLink r.1) r.2 = r' ∧
  links r'.2 = links chain ∧
  getLink (NumId 1) (NumId 3) r'.2 = None ∧
  (r.1 ∉ getLinks (NumId 1) r'.2) ∧
  (r.1 ∉ getLinks (NumId 3) r'.2).
Proof.
  apply (addLink_removeLink chain (NumId 1) (NumId 3) (Some "short cut")
           reachable_chain); reflexivity.
Defined.

(** X10.  A link can be removed once: after [removeLinkInstance(link)]
    has returned true, a second call with the same link returns false and
    changes nothing. *)
Theorem removeLinkInstance_twice {NodeData LinkData}
    (g : Graph NodeData LinkData) link :
  (removeLinkInstance link g).1 = true →
  removeLinkInstance link (removeLinkInstance link g).2 =
    (false, (removeLinkInstance link g).2).
Proof.
  intros Htrue.
  destruct (JsMap.get (Link.id (linkObj link g)) (links g)) as [x|] eqn:Hx.
  - destruct (removeLinkInstance_registered g link) as (_ & _ & H3 & H4 & _);
      [by eexists|].
    apply removeLinkInstance_unregistered. unfold linkObj.
    rewrite H3, H4. apply get_delete_eq.
  - rewrite (removeLinkInstance_unregistered g link Hx) in Htrue. done.
Qed.

Lemma removeLinkInstance_twice_witness :
  removeLinkInstance 0%nat (removeLinkInstance 0%nat chain).2 =
    (false, (removeLinkInstance 0%nat chain).2).
Proof. apply (removeLinkInstance_twice chain 0%nat). reflexivity. Defined.

(** ** Neighbour enumeration *)

Section enumeration.
Context {NodeData LinkData : Type}.
Implicit Types (g : Graph NodeData LinkData).

Lemma nonOrientedLinks_yields g node ls :
  let k := Node.id (nodeObj node g) in
  let ys := nonOrientedLinks g node ls in
  (λ y, y.1.2) <$> ys.1 `prefix_of` ls ∧
  Forall (λ y, y.1.1 = node ∧
               getNode (Link.otherId (linkObj y.1.2 g) k) g = Some y.2) ys.1 ∧
  (ys.2 = None → (λ y, y.1.2) <$> ys.1 = ls) ∧
  (ys.2 = None ↔
     Forall (λ l, is_Some (getNode (Link.otherId (linkObj l g) k) g)) ls) ∧
  (∀ message, ys.2 = Some message → message = "Invalid link").
Proof.
  intros k. induction ls as [|l ls IH]; cbn [nonOrientedLinks].
  - cbn. split_and!; try done; by intros ? [=].
  - fold k. change (if decide (Link.fromId (linkObj l g) = k)
                    then Link.toId (linkObj l g) else Link.fromId (linkObj l g))
              with (Link.otherId (linkObj l g) k).
    destruct (getNode (Link.otherId (linkObj l g) k) g) as [other|] eqn:Ho.
    + destruct (nonOrientedLinks g node ls) as [ys e].
      cbn in IH |- *. destruct IH as (I1 & I2 & I3 & I4 & I5).
      split_and!; try done.
      * by apply prefix_cons.
      * by constructor.
      * intros He. by rewrite I3.
      * rewrite I4, Forall_cons. split; [intros ?; split; [by eexists|done]|].
        by intros [_ ?].
    + cbn. split_and!; try done.
      * apply prefix_nil.
      * split; [done|]. intros [[? ?] _]%Forall_cons. congruence.
      * by intros ? [= <-].
Qed.

Lemma orientedLinks_yields g node ls :
  let k := Node.id (nodeObj node g) in
  let out := filter (λ l, Link.fromId (linkObj l g) = k) ls in
  let ys := orientedLinks g node ls in
  (λ y, y.1.2) <$> ys.1 `prefix_of` out ∧
  Forall (λ y, y.1.1 = node ∧
               getNode (Link.toId (linkObj y.1.2 g)) g = Some y.2) ys.1 ∧
  (ys.2 = None → (λ y, y.1.2) <$> ys.1 = out) ∧
  (ys.2 = None ↔
     Forall (λ l, is_Some (getNode (Link.toId (linkObj l g)) g)) out) ∧
  (∀ message, ys.2 = Some message → message = "Invalid node state").
Proof.
  intros k. induction ls as [|l ls IH]; cbn [orientedLinks].
  - cbn. split_and!; try done; by intros ? [=].
  - fold k. rewrite filter_cons.
    destruct (decide (Link.fromId (linkObj l g) = k)) as [Hk|Hk]; [|done].
    destruct (getNode (Link.toId (linkObj l g)) g) as [other|] eqn:Ho.
    + destruct (orientedLinks g node ls) as [ys e].
      cbn in IH |- *. destruct IH as (I1 & I2 & I3 & I4 & I5).
      split_and!; try done.
      * by apply prefix_cons.
      * by constructor.
      * intros He. by rewrite I3.
      * rewrite I4, Forall_cons. split; [intros ?; split; [by eexists|done]|].
        by intros [_ ?].
    + cbn. split_and!; try done.
      * apply prefix_nil.
      * split; [done|]. intros [[? ?] _]%Forall_cons. congruence.
      * by intros ? [= <-].
Qed.
End enumeration.





(** X13.  [find(x, x)] on a graph built by public calls returns the array
    that holds only the node [x], whatever the options and the state of the
    pool. *)
Theorem find_same_node_path {NodeData LinkData} (g : Graph NodeData LinkData)
    opts x node fuel p :
  reachable g → getNode x g = Some node →
  (find (S fuel) g opts x x p).1 = Path [node].
Proof.
  intros Hg Hx.
  rewrite (find_result fuel g opts x x p node node
             (reachable_nodesConsistent g Hg) Hx Hx).
  by rewrite decide_True.
Qed.

Lemma find_same_node_path_witness :
  (find 1 chain defaultOptions (NumId 3) (NumId 3) StatePool.new).1
  = Path [2%nat].
Proof.
  apply (find_same_node_path chain defaultOptions (NumId 3) 2%nat 0%nat
           StatePool.new reachable_chain).
  reflexivity.
Defined.

(** ** Change tracking without a listener *)

Section silence.
Context {NodeData LinkData : Type}.
Local Abbreviation Graph := (Graph NodeData LinkData).
Local Abbreviation M := (M NodeData LinkData).
Implicit Types (g : Graph).

Lemma silent_same {A} (m : M A) :
  (∀ g, sameEvents g (m g).2) → preserves silent m.
Proof. intros Hm g Hg. destruct (Hm g) as (H1 & H2 & H3). unfold silent. by rewrite H1, H2, H3. Qed.

Lemma silent_recordNode node ct :
  preserves silent (recordNodeChange node ct : M unit).
Proof.
  intros g Hg. unfold recordNodeChange.
  destruct (listening g) eqn:Hl; [|done]. unfold silent. cbn. by rewrite Hl.
Qed.

Lemma silent_recordLink link ct :
  preserves silent (recordLinkChange link ct : M unit).
Proof.
  intros g Hg. unfold recordLinkChange.
  destruct (listening g) eqn:Hl; [|done]. unfold silent. cbn. by rewrite Hl.
Qed.

Lemma silent_exit : preserves silent (exitModification : M unit).
Proof.
  intros g Hg. unfold exitModification, silent in *. cbn.
  destruct (listening g) eqn:Hl.
  - case_match; cbn; by rewrite Hl.
  - destruct (Hg eq_refl) as [Hc He]. rewrite Hc. cbn.
    rewrite andb_false_r. cbn. by rewrite Hl, Hc, He.
Qed.

Lemma sameEvents_createLink fromId toId data g :
  sameEvents g (createLink (NodeData:=NodeData) fromId toId data g).2.
Proof.
  unfold createLink, createUniqueLink, createSingleLink.
  unfold mbind, M_bind, mret, M_ret, gets, modify, updLink, newLink.
  simpl. repeat case_match; done.
Qed.

Ltac silent_prim :=
  idtac;
  lazymatch goal with
  | |- preserves _ exitModification => apply silent_exit
  | |- preserves _ (recordNodeChange _ _) => apply silent_recordNode
  | |- preserves _ (recordLinkChange _ _) => apply silent_recordLink
  | |- _ =>
      apply silent_same; intros ?;
      first [ apply sameEvents_createLink | done ]
  end.

Lemma silent_addNode nodeId data :
  preserves silent (addNode nodeId data : M nref).
Proof. unfold addNode. repeat inv_step silent_prim. Qed.

Lemma silent_removeLinkInstance link :
  preserves silent (removeLinkInstance link : M bool).
Proof. unfold removeLinkInstance, detachLink. repeat inv_step silent_prim. Qed.

Lemma silent_removeNode nodeId :
  preserves silent (removeNode nodeId : M bool).
Proof.
  unfold removeNode.
  repeat inv_step ltac:(first [ apply silent_removeLinkInstance
                              | silent_prim ]).
Qed.

Lemma silent_run (c : Call NodeData LinkData) g : silent g → silent (run c g).
Proof.
  destruct c; cbn [run].
  - apply silent_addNode.
  - apply silent_removeNode.
  - assert (preserves silent (addLink fromId toId data : M _)) as H;
      [|apply H].
    unfold addLink, getOrAddNode.
    repeat inv_step ltac:(first [ apply silent_addNode | silent_prim ]).
  - assert (preserves silent (removeLink arg : M _)) as H; [|apply H].
    unfold removeLink.
    repeat inv_step ltac:(first [ apply silent_removeLinkInstance
                                | silent_prim ]).
  - apply silent_removeLinkInstance.
  - assert (preserves silent (clear : M _)) as H; [|apply H].
    unfold clear.
    repeat inv_step ltac:(first [ apply silent_removeNode | silent_prim ]).
  - by intros _ [=].
  - done.
Qed.

Lemma deaf_same {A} (m : M A) :
  (∀ g, sameEvents g (m g).2) → preserves (λ g, listening g = false) m.
Proof. intros Hm g Hg. destruct (Hm g) as (H1 & _). by rewrite H1. Qed.

Lemma sameEvents_exit_deaf g :
  listening (exitModification g).2 = listening g.
Proof. unfold exitModification. by case_match. Qed.

Ltac deaf_prim :=
  idtac;
  lazymatch goal with
  | |- preserves _ exitModification =>
      intros ? ?; by rewrite sameEvents_exit_deaf
  | |- preserves _ (recordNodeChange _ _) =>
      intros ? ?; unfold recordNodeChange; by case_match
  | |- preserves _ (recordLinkChange _ _) =>
      intros ? ?; unfold recordLinkChange; by case_match
  | |- _ =>
      apply deaf_same; intros ?;
      first [ apply sameEvents_createLink | done ]
  end.

Lemma deaf_addNode nodeId data :
  preserves (λ g, listening g = false) (addNode nodeId data : M nref).
Proof. unfold addNode. repeat inv_step deaf_prim. Qed.

Lemma deaf_removeLinkInstance link :
  preserves (λ g, listening g = false) (removeLinkInstance link : M bool).
Proof. unfold removeLinkInstance, detachLink. repeat inv_step deaf_prim. Qed.

Lemma deaf_removeNode nodeId :
  preserves (λ g, listening g = false) (removeNode nodeId : M bool).
Proof.
  unfold removeNode.
  repeat inv_step ltac:(first [ apply deaf_removeLinkInstance | deaf_prim ]).
Qed.

Lemma deaf_run (c : Call NodeData LinkData) g :
  c ≠ On → listening g = false → listening (run c g) = false.
Proof.
  intros Hc. destruct c; cbn [run]; try done.
  - apply deaf_addNode.
  - apply deaf_removeNode.
  - assert (preserves (λ g, listening g = false)
              (addLink fromId toId data : M _)) as H; [|apply H].
    unfold addLink, getOrAddNode.
    repeat inv_step ltac:(first [ apply deaf_addNode | deaf_prim ]).
  - assert (preserves (λ g, listening g = false) (removeLink arg : M _)) as H;
      [|apply H].
    unfold removeLink.
    repeat inv_step ltac:(first [ apply deaf_removeLinkInstance
                                | deaf_prim ]).
  - apply deaf_removeLinkInstance.
  - assert (preserves (λ g, listening g = false) (clear : M _)) as H;
      [|apply H].
    unfold clear.
    repeat inv_step ltac:(first [ apply deaf_removeNode | deaf_prim ]).
Qed.

Lemma runAll_deaf_silent (cs : list (Call NodeData LinkData)) g :
  Forall (λ c, c ≠ On) cs → listening g = false → silent g →
  listening (runAll cs g) = false ∧ silent (runAll cs g).
Proof.
  intros Hcs. revert g. induction Hcs as [|c cs Hc _ IH]; intros g Hl Hs;
    [done|].
  apply IH; [by apply deaf_run|by apply silent_run].
Qed.
End silence.

(** X14.  Until a listener is registered with [on], the graph keeps no
    record of changes and emits nothing: after any sequence of calls other
    than [on] on a new graph, no batch was delivered and none is
    pending. *)
Theorem no_listener_no_changes {NodeData LinkData}
    (cs : list (Call NodeData LinkData)) multi :
  Forall (λ c, c ≠ On) cs →
  let g := runAll cs (newGraph multi) in
  listening g = false ∧ changes g = [] ∧ emitted g = [].
Proof.
  intros Hcs g.
  destruct (runAll_deaf_silent cs (newGraph multi) Hcs) as [Hl Hs]; try done.
  split; [done|]. by apply Hs.
Qed.

Lemma no_listener_no_changes_witness :
  let g : Graph string string :=
    runAll [AddLink (NumId 1) (NumId 2) None; RemoveNode (NumId 1); Clear]
      (newGraph false) in
  listening g = false ∧ changes g = [] ∧ emitted g = [].
Proof.
  apply (no_listener_no_changes
           [AddLink (NumId 1) (NumId 2) None; RemoveNode (NumId 1); Clear]
           false).
  repeat constructor; done.
Defined.

(** ** The link map and the link sets *)

Section attachment.
Context {NodeData LinkData : Type}.
Local Abbreviation Graph := (Graph NodeData LinkData).
Local Abbreviation M := (M NodeData LinkData).
Implicit Types (g : Graph).

Lemma attachedAt_extends g g' link k :
  nodesConsistent g → extends g g' →
  attachedAt g link k → attachedAt g' link k.
Proof.
  intros Hc (H1 & H2 & _) (n & Hn & Hl). exists n. split; [by apply H1|].
  apply H2; [|done]. destruct (Hc _ _ Hn) as (x & Hx & _). by eexists.
Qed.

Lemma extends_refl g : extends g g.
Proof. done. Qed.

Lemma extends_trans g1 g2 g3 : extends g1 g2 → extends g2 g3 → extends g1 g3.
Proof.
  intros (A1 & A2 & A3) (B1 & B2 & B3). split_and!.
  - intros k n Hk. by apply B1, A1.
  - intros n Hn. destruct (A2 n Hn) as [Hn2 Hin2].
    destruct (B2 n Hn2) as [Hn3 Hin3]. split; [done|].
    intros l Hl. by apply Hin3, Hin2.
  - intros r Hr. destruct (A3 r Hr) as (Hr2 & <- & <-). by apply B3.
Qed.

Lemma extends_addNode nodeId data g :
  nodesConsistent g → extends g (addNode nodeId data g).2.
Proof.
  intros Hc. pose proof (addNode_shape nodeId data g) as Hs.
  destruct (addNode_links nodeId data g) as (_ & Hlo & _).
  unfold extends, getNode, nodeObj, linkObj in *. rewrite Hlo.
  destruct (JsMap.get nodeId (nodes g)) as [node|] eqn:Hn.
  - destruct Hs as (_ & -> & ->). split_and!; try done.
    intros n [x Hx]. rewrite !list_lookup_total_alt, list_lookup_alter, Hx.
    case_decide; subst; rewrite ?Hx; cbn; (split; [by eexists|done]).
  - destruct Hs as (_ & -> & ->). split_and!; try done.
    + intros k n Hk. rewrite get_set_ne; [done|]. intros ->. congruence.
    + intros n [x Hx].
      rewrite !list_lookup_total_alt, (lookup_app_l_Some _ _ _ _ Hx), Hx.
      split; [by eexists|done].
Qed.

Lemma extends_getOrAddNode id g :
  nodesConsistent g → extends g (getOrAddNode id g).2.
Proof.
  intros Hc. unfold getOrAddNode, mbind, M_bind, gets. cbn [fst snd].
  destruct (getNode id g); [done|]. by apply extends_addNode.
Qed.

(** The result of [createLink]: a new Link object, or the one the link
    map holds, with the new payload. *)
Lemma createLink_cases fromId toId data g :
  let c := createLink fromId toId data g in
  nodes c.2 = nodes g ∧ nodeObjs c.2 = nodeObjs g ∧ links c.2 = links g ∧
  ((c.1 = length (linkObjs g) ∧
    ∃ id, linkObjs c.2 = (linkObjs g ++ [Link.mk fromId toId data id])%list) ∨
   (∃ key, JsMap.get key (links g) = Some c.1 ∧
           linkObjs c.2 = alter (Link.setData data) c.1 (linkObjs g))).
Proof.
  unfold createLink, createUniqueLink, createSingleLink.
  unfold mbind, M_bind, mret, M_ret, gets, modify, updLink, newLink.
  cbn. repeat case_match; cbn; split_and!; try done;
    first [ left; split; [done|by eexists]
          | right; eexists; split; [eassumption|done] ].
Qed.

Lemma extends_createLink fromId toId data g :
  extends g (createLink fromId toId data g).2.
Proof.
  destruct (createLink_cases fromId toId data g) as (H1 & H2 & _ & Hcase).
  unfold extends, getNode, nodeObj, linkObj. rewrite H1, H2.
  split_and!; try done. intros r [x Hx].
  destruct Hcase as [(_ & id' & ->)|(key & _ & ->)].
  - rewrite !list_lookup_total_alt, (lookup_app_l_Some _ _ _ _ Hx), Hx.
    split; [by eexists|done].
  - rewrite !list_lookup_total_alt, list_lookup_alter, Hx.
    case_decide; subst; rewrite ?Hx; cbn; (split; [by eexists|done]).
Qed.

Lemma extends_attach (link : lref) (rs : list nref) g g' :
  nodes g' = nodes g → linkObjs g' = linkObjs g →
  nodeObjs g' = foldr (λ r, alter (Node.addLink link) r) (nodeObjs g) rs →
  extends g g'.
Proof.
  intros H1 H2 H3. unfold extends, getNode, nodeObj, linkObj.
  rewrite H1, H2, H3. clear. split_and!; try done.
  intros n Hn. induction rs as [|r rs [IH1 IH2]]; cbn; [done|]. split.
  - rewrite list_lookup_alter. case_decide; [subst|done].
    by apply fmap_is_Some.
  - intros l Hl. by apply alter_addLink_mono, IH2.
Qed.

Lemma addLink_extends fromId toId data g :
  nodesConsistent g → extends g (addLink fromId toId data g).2.
Proof.
  intros Hc.
  destruct (addLink_shape fromId toId data g) as (_ & H2 & H3 & _ & H5).
  set (r := addLink fromId toId data g) in *.
  set (a := getOrAddNode fromId (enterModification g).2) in *.
  set (b := getOrAddNode toId a.2) in *.
  set (c := createLink fromId toId data b.2) in *.
  destruct (getOrAddNode_shape fromId (enterModification g).2 Hc)
    as (_ & Ha2 & _). fold a in Ha2.
  pose proof (extends_getOrAddNode fromId (enterModification g).2 Hc) as Ea.
  fold a in Ea.
  pose proof (extends_getOrAddNode toId a.2 Ha2) as Eb. fold b in Eb.
  pose proof (extends_createLink fromId toId data b.2) as Ec. fold c in Ec.
  destruct (createLink_cases fromId toId data b.2) as (C1 & C2 & _).
  fold c in C1, C2.
  assert (extends c.2 r.2) as Er.
  { apply (extends_attach c.1
             (if decide (fromId ≠ toId) then [b.1; a.1] else [a.1]));
      [congruence|done|].
    rewrite H3, C2. by case_decide. }
  apply (extends_trans _ a.2); [exact Ea|].
  apply (extends_trans _ b.2); [exact Eb|].
  by apply (extends_trans _ c.2).
Qed.

Lemma attached_extends g g' :
  nodesConsistent g → linksConsistent g → attached g → extends g g' →
  ∀ s link, JsMap.get s (links g) = Some link →
    attachedAt g' link (Link.fromId (linkObj link g')) ∧
    attachedAt g' link (Link.toId (linkObj link g')).
Proof.
  intros Hc Hlc Ha He s link Hs.
  destruct (Hlc _ _ Hs) as (x & Hx & _).
  destruct He as (E1 & E2 & E3).
  destruct (E3 link) as (_ & -> & ->); [by eexists|].
  destruct (Ha _ _ Hs) as [Hf Ht].
  split; by apply (attachedAt_extends g).
Qed.

Lemma attached_addNode nodeId data g :
  wellFormed g → attached (addNode nodeId data g).2.
Proof.
  intros (Hc & Hlc & Ha) s link.
  destruct (addNode_links nodeId data g) as (-> & _).
  by apply attached_extends, extends_addNode.
Qed.

Lemma attached_addLink fromId toId data g :
  wellFormed g → attached (addLink fromId toId data g).2.
Proof.
  intros (Hc & Hlc & Ha).
  pose proof (addLink_extends fromId toId data g Hc) as He.
  destruct (addLink_shape fromId toId data g) as (_ & H2 & H3 & H4 & H5).
  set (r := addLink fromId toId data g) in *.
  set (a := getOrAddNode fromId (enterModification g).2) in *.
  set (b := getOrAddNode toId a.2) in *.
  set (c := createLink fromId toId data b.2) in *.
  destruct (getOrAddNode_shape fromId (enterModification g).2 Hc)
    as (Ha1 & Ha2 & _). fold a in Ha1, Ha2.
  destruct (getOrAddNode_shape toId a.2 Ha2) as (Hb1 & Hb2 & Hb3 & _).
  fold b in Hb1, Hb2, Hb3.
  destruct (getOrAddNode_links toId a.2) as (Lb1 & Lb2 & _).
  destruct (getOrAddNode_links fromId (enterModification g).2)
    as (La1 & La2 & _).
  fold a in La1, La2, Lb1, Lb2. fold b in Lb1, Lb2.
  rewrite La1 in Lb1. rewrite La2 in Lb2.
  change (links (enterModification g).2) with (links g) in Lb1.
  change (linkObjs (enterModification g).2) with (linkObjs g) in Lb2.
  destruct (createLink_cases fromId toId data b.2) as (_ & _ & C3 & Hcase).
  fold c in C3, Hcase. rewrite Lb1 in C3. rewrite Lb1, Lb2 in Hcase.
  pose proof (Hb3 _ _ Ha1) as Hfrom.
  destruct (Hb2 _ _ Hfrom) as (nf & Hnf & _).
  destruct (Hb2 _ _ Hb1) as (nt & Hnt & _).
  intros s link. rewrite H4, C3.
  destruct (decide (Link.id (linkObj c.1 c.2) = s)) as [<-|Hne];
    [|rewrite get_set_ne by done; by apply attached_extends].
  rewrite get_set_eq. intros [= <-].
  destruct Hcase as [(Hnew & id' & Hobjs)|(key & Hkey & Hobjs)];
    [|by apply (attached_extends g _ Hc Hlc Ha He key)].
  assert (linkObj c.1 r.2 = Link.mk fromId toId data id') as ->.
  { unfold linkObj.
    by rewrite H5, Hobjs, Hnew, list_lookup_total_alt, lookup_app_r,
      Nat.sub_diag. }
  cbn [Link.fromId Link.toId]. unfold attachedAt, getNode, nodeObj in *.
  rewrite H2, H3. split.
  - exists a.1. split; [done|].
    case_decide; unfold id; [apply alter_addLink_mono|];
      apply alter_addLink_elem; by eexists.
  - exists b.1. split; [done|]. case_decide as Hne; unfold id.
    + apply alter_addLink_elem. rewrite list_lookup_alter.
      case_decide; rewrite ?fmap_is_Some; by eexists.
    + subst toId. rewrite Hfrom in Hb1. injection Hb1 as <-.
      apply alter_addLink_elem. by eexists.
Qed.

(** *** Removing a link *)

Lemma detached_same link g0 g g' :
  sameNodes g g' → detached link g0 g → detached link g0 g'.
Proof. unfold detached, nodeObj. by intros [_ ->]. Qed.

Lemma detached_updNode link g0 r :
  preserves (detached link g0) (updNode r (Node.deleteLink link) : M unit).
Proof.
  intros g Hg n l. destruct (Hg n l) as [H1 H2].
  unfold nodeObj, updNode, modify in *. cbn [snd nodeObjs set_nodeObjs].
  rewrite links_alter_deleteLink. case_decide; [subst|done].
  destruct (Node.links (nodeObjs g !!! n)) as [ls|]; cbn in *; [|done].
  rewrite JsSet_delete_elem. split; [by intros [_ ?%H1]|].
  intros Hne Hl. split; [done|]. by apply H2.
Qed.

Ltac detached_prim :=
  first [ apply detached_updNode
        | apply preserves_sameNodes; [apply detached_same|];
          intros ?;
          first [ apply same_enter | apply same_exit | apply same_recordNode
                | apply same_recordLink | done ] ].

Lemma detached_removeLinkInstance link g :
  detached link g (removeLinkInstance link g).2.
Proof.
  assert (preserves (detached link g) (removeLinkInstance link : M bool)) as H.
  { unfold removeLinkInstance, detachLink. repeat inv_step detached_prim. }
  by apply H.
Qed.

Lemma attached_removeLinkInstance link g :
  wellFormed g → attached (removeLinkInstance link g).2.
Proof.
  intros (Hc & Hlc & Ha).
  destruct (JsMap.get (Link.id (linkObj link g)) (links g)) as [x|] eqn:Hx;
    [|by rewrite (removeLinkInstance_unregistered g link Hx)].
  pose proof (detached_removeLinkInstance link g) as Hd.
  destruct (removeLinkInstance_registered g link) as (_ & H2 & H3 & H4 & _);
    [by eexists|].
  intros s l. rewrite H3. intros Hs.
  assert (s ≠ Link.id (linkObj link g)) as Hne.
  { intros ->. by rewrite get_delete_eq in Hs. }
  rewrite get_delete_ne in Hs by done.
  assert (l ≠ link) as Hl.
  { intros ->. destruct (Hlc _ _ Hs) as (y & Hy & Hid). apply Hne.
    unfold linkObj. by rewrite (list_lookup_total_correct _ _ _ Hy). }
  destruct (Ha _ _ Hs) as [(nf & Hf1 & Hf2) (nt & Ht1 & Ht2)].
  unfold attachedAt, getNode, linkObj in *. rewrite H2, H4.
  split; [exists nf|exists nt]; (split; [done|]); by apply Hd.
Qed.

Lemma wellFormed_removeLinkInstance link :
  preserves wellFormed (removeLinkInstance link : M bool).
Proof.
  intros g Hg. split_and!.
  - apply nodesConsistent_removeLinkInstance, Hg.
  - apply linksConsistent_removeLinkInstance, Hg.
  - by apply attached_removeLinkInstance.
Qed.

Lemma removeLinkInstance_facts link g :
  let g1 := (removeLinkInstance link g).2 in
  nodes g1 = nodes g ∧ linkObjs g1 = linkObjs g ∧
  (∀ s y, JsMap.get s (links g1) = Some y → JsMap.get s (links g) = Some y) ∧
  JsMap.get (Link.id (linkObj link g)) (links g1) = None.
Proof.
  destruct (JsMap.get (Link.id (linkObj link g)) (links g)) as [x|] eqn:Hx.
  - destruct (removeLinkInstance_registered g link) as (_ & H2 & H3 & H4 & _);
      [by eexists|].
    cbn zeta. rewrite H2, H3, H4. split_and!; try done.
    + intros s y. apply get_delete_Some.
    + apply get_delete_eq.
  - by rewrite (removeLinkInstance_unregistered g link Hx).
Qed.

(** The loop of [removeNode] over the link set of the node: afterwards no
    link left in the set is known to the link map. *)
Lemma removeNode_loop (node : nref) (ls : list lref) g :
  wellFormed g →
  let g' := (forEach removeLinkInstance ls g).2 in
  wellFormed g' ∧ nodes g' = nodes g ∧ linkObjs g' = linkObjs g ∧
  (∀ s y, JsMap.get s (links g') = Some y → JsMap.get s (links g) = Some y) ∧
  (∀ l, l ∈ default [] (Node.links (nodeObj node g')) →
        l ∈ default [] (Node.links (nodeObj node g)) ∧
        (l ∈ ls → JsMap.get (Link.id (linkObj l g)) (links g') = None)).
Proof.
  revert g. induction ls as [|x ls IH]; intros g Hg.
  - cbn. split_and!; try done. intros l Hl. split; [done|].
    by intros ?%elem_of_nil.
  - change ((forEach removeLinkInstance (x :: ls) g).2)
      with ((forEach removeLinkInstance ls (removeLinkInstance x g).2).2).
    cbn zeta.
    destruct (removeLinkInstance_facts x g) as (F1 & F2 & F3 & F4).
    pose proof (detached_removeLinkInstance x g) as Hd.
    pose proof (wellFormed_removeLinkInstance x g Hg) as Hg1.
    set (g1 := (removeLinkInstance x g).2) in *.
    destruct (IH g1 Hg1) as (I1 & I2 & I3 & I4 & I5).
    set (g' := (forEach removeLinkInstance ls g1).2) in *.
    split_and!; try done; try congruence.
    + intros s y Hs. by apply F3, I4.
    + intros l Hl. destruct (I5 l Hl) as [J1 J2]. split; [by apply Hd|].
      unfold linkObj in *. rewrite F2 in J2.
      intros [->|Hin]%elem_of_cons; [|by apply J2].
      destruct (JsMap.get (Link.id (linkObjs g !!! x)) (links g')) as [y|]
        eqn:Hy; [|done].
      apply I4 in Hy. congruence.
Qed.

Lemma attached_removeNode nodeId g :
  wellFormed g → attached (removeNode nodeId g).2.
Proof.
  intros Hg. destruct (getNode nodeId g) as [node|] eqn:Hn;
    [|rewrite (removeNode_absent g nodeId Hn); apply Hg].
  set (ls := default [] (Node.links (nodeObj node g))).
  assert (∃ X Y, removeNode nodeId g =
                 (true, (exitModification
                    (recordNodeChange node CtRemove
                       (set_nodes (JsMap.delete nodeId (nodes Y)) Y)).2).2) ∧
               X = (forEach removeLinkInstance ls (enterModification g).2).2 ∧
               nodes Y = nodes X ∧ links Y = links X ∧
               linkObjs Y = linkObjs X ∧
               (∀ n, n ≠ node → nodeObj n Y = nodeObj n X))
    as (X & Y & -> & HX & Y1 & Y2 & Y3 & Y4).
  { unfold removeNode, mbind, M_bind, gets, mret, M_ret. cbn [fst snd].
    change (getNode nodeId (enterModification g).2) with (getNode nodeId g).
    rewrite Hn. cbn [fst snd].
    change (nodeObj node (enterModification g).2) with (nodeObj node g).
    subst ls. destruct (Node.links (nodeObj node g)) as [ls|].
    - eexists _, _. split; [reflexivity|]. split; [reflexivity|].
      split_and!; try done. intros n Hne. unfold nodeObj. cbn.
      by rewrite !list_lookup_total_alt, list_lookup_alter_ne.
    - eexists _, _. split; [reflexivity|]. by split. }
  destruct (removeNode_loop node ls (enterModification g).2 Hg)
    as (W & N & LO & _ & Sets).
  rewrite <-HX in W, N, LO, Sets. clear HX.
  change (nodes (enterModification g).2) with (nodes g) in N.
  change (linkObjs (enterModification g).2) with (linkObjs g) in LO.
  change (nodeObj node (enterModification g).2) with (nodeObj node g) in Sets.
  change (linkObj ?l (enterModification g).2) with (linkObj l g) in Sets.
  fold ls in Sets.
  destruct W as (Wc & Wl & Wa).
  cbn [snd].
  match goal with |- attached (exitModification ?x).2 =>
    destruct (same_exit x) as [E1 E2];
    destruct (exit_links x) as (E3 & E4 & _);
    set (F := (exitModification x).2) in * end.
  match type of E1 with context [recordNodeChange ?n ?c ?x] =>
    destruct (same_recordNode n c x) as [R1 R2];
    destruct (recordNode_links n c x) as (R3 & R4 & _) end.
  rewrite R1 in E1. rewrite R2 in E2. rewrite R3 in E3. rewrite R4 in E4.
  cbn in E1, E2, E3, E4. clear R1 R2 R3 R4. clearbody F.
  rewrite Y1 in E1. rewrite Y2 in E3. rewrite Y3 in E4.
  assert (∀ link k, JsMap.get (Link.id (linkObj link X)) (links X) = Some link →
            attachedAt X link k → attachedAt F link k) as Hkeep.
  { intros link k Hreg (n' & Hk & Hin).
    assert (n' ≠ node) as Hne.
    { intros ->. destruct (Sets link Hin) as [Hin' Hun].
      specialize (Hun Hin'). unfold linkObj in *. rewrite LO in Hreg.
      congruence. }
    assert (k ≠ nodeId) as Hk'.
    { intros ->. unfold getNode in *. rewrite N in Hk. congruence. }
    exists n'. unfold getNode, nodeObj in *. rewrite E1, E2.
    rewrite get_delete_ne by done. split; [done|].
    by rewrite (Y4 n' Hne). }
  intros s link. rewrite E3. intros Hs.
  destruct (Wl _ _ Hs) as (x & Hx & Hid).
  assert (JsMap.get (Link.id (linkObj link X)) (links X) = Some link) as Hreg.
  { unfold linkObj. by rewrite (list_lookup_total_correct _ _ _ Hx), Hid. }
  destruct (Wa _ _ Hs) as [Hf Ht].
  unfold linkObj in *. rewrite E4.
  split; by apply Hkeep.
Qed.

Lemma wellFormed_addNode nodeId data :
  preserves wellFormed (addNode nodeId data : M nref).
Proof.
  intros g Hg. split_and!.
  - apply nodesConsistent_addNode, Hg.
  - apply linksConsistent_addNode, Hg.
  - by apply attached_addNode.
Qed.

Lemma wellFormed_removeNode nodeId :
  preserves wellFormed (removeNode nodeId : M bool).
Proof.
  intros g Hg. split_and!.
  - apply nodesConsistent_removeNode, Hg.
  - apply linksConsistent_removeNode, Hg.
  - by apply attached_removeNode.
Qed.

Lemma wellFormed_same g g' :
  sameNodes g g' → sameLinks g g' → wellFormed g → wellFormed g'.
Proof.
  intros [N1 N2] [L1 L2] (Hc & Hl & Ha). split_and!.
  - by apply (nodesConsistent_same g).
  - by apply (linksConsistent_same g).
  - unfold attached, attachedAt, getNode, nodeObj, linkObj in *.
    rewrite N1, N2, L1, L2. apply Ha.
Qed.

Lemma wellFormed_newLink fromId toId data id g :
  wellFormed g → wellFormed (newLink fromId toId data id g).2.
Proof.
  intros (Hc & Hl & Ha). split_and!.
  - by apply (nodesConsistent_same g).
  - intros s r Hs. destruct (Hl s r Hs) as (x & Hx & Hid). exists x.
    split; [|done]. cbn. by apply lookup_app_l_Some.
  - intros s r Hs. destruct (Hl s r Hs) as (x & Hx & Hid).
    destruct (Ha s r Hs) as [Hf Ht].
    assert (linkObj r (newLink fromId toId data id g).2 = linkObj r g) as ->.
    { unfold linkObj, newLink. cbn [snd linkObjs set_linkObjs].
      by rewrite !list_lookup_total_alt, (lookup_app_l_Some _ _ _ _ Hx), Hx. }
    done.
Qed.

Lemma wellFormed_run (c : Call NodeData LinkData) g :
  wellFormed g → wellFormed (run c g).
Proof.
  destruct c; cbn [run].
  - apply wellFormed_addNode.
  - apply wellFormed_removeNode.
  - intros Hg. split_and!.
    + apply nodesConsistent_addLink, Hg.
    + apply linksConsistent_addLink, Hg.
    + by apply attached_addLink.
  - assert (preserves wellFormed (removeLink arg : M _)) as H; [|apply H].
    unfold removeLink.
    repeat inv_step ltac:(apply wellFormed_removeLinkInstance).
  - apply wellFormed_removeLinkInstance.
  - assert (preserves wellFormed (clear : M _)) as H; [|apply H].
    unfold clear.
    repeat inv_step ltac:(first [ apply wellFormed_removeNode
                                | intros ? ?; eapply wellFormed_same;
                                  [| |eassumption];
                                  first [ apply same_enter | apply same_exit
                                        | apply same_exit_links | done ] ]).
  - by apply wellFormed_same.
  - apply wellFormed_newLink.
Qed.

Lemma reachable_wellFormed g : reachable g → wellFormed g.
Proof.
  induction 1 as [multi|c g _ IH _]; [|by apply wellFormed_run].
  split_and!; by intros ? ? ?.
Qed.

End attachment.

(** *** The keys of the link map *)

Section link_keys.
Context {NodeData LinkData : Type}.
Local Abbreviation Graph := (Graph NodeData LinkData).
Local Abbreviation M := (M NodeData LinkData).
Implicit Types (g : Graph).

Lemma preserves_links {A} (P : Graph → Prop) (m : M A) :
  (∀ g g', links g' = links g → P g → P g') →
  (∀ g, links (m g).2 = links g) → preserves P m.
Proof. intros HP Hm g. apply HP, Hm. Qed.

Lemma linkKeysUnique_links g g' :
  links g' = links g → linkKeysUnique g → linkKeysUnique g'.
Proof. unfold linkKeysUnique. by intros ->. Qed.

Ltac links_prim :=
  idtac;
  lazymatch goal with
  | |- preserves _ (modify (λ g, set_links (JsMap.delete _ _) _)) =>
      intros ? ?; by apply NoDup_keys_delete
  | |- preserves _ (modify (λ g, set_links (JsMap.set _ _ _) _)) =>
      intros ? ?; by apply NoDup_keys_set
  | |- _ =>
      apply preserves_links; [apply linkKeysUnique_links|];
      intros ?;
      first [ apply (proj1 (same_exit_links _))
            | apply (proj1 (same_recordNode_links _ _ _))
            | apply (proj1 (same_recordLink_links _ _ _))
            | apply (createLink_cases _ _ _ _) | done ]
  end.

Lemma linkKeysUnique_addNode nodeId data :
  preserves linkKeysUnique (addNode nodeId data : M nref).
Proof. unfold addNode. repeat inv_step links_prim. Qed.

Lemma linkKeysUnique_removeLinkInstance link :
  preserves linkKeysUnique (removeLinkInstance link : M bool).
Proof. unfold removeLinkInstance, detachLink. repeat inv_step links_prim. Qed.

Lemma linkKeysUnique_removeNode nodeId :
  preserves linkKeysUnique (removeNode nodeId : M bool).
Proof.
  unfold removeNode.
  repeat inv_step ltac:(first [ apply linkKeysUnique_removeLinkInstance
                              | links_prim ]).
Qed.

Lemma linkKeysUnique_run (c : Call NodeData LinkData) g :
  linkKeysUnique g → linkKeysUnique (run c g).
Proof.
  destruct c; cbn [run].
  - apply linkKeysUnique_addNode.
  - apply linkKeysUnique_removeNode.
  - assert (preserves linkKeysUnique (addLink fromId toId data : M _)) as H;
      [|apply H].
    unfold addLink, getOrAddNode.
    repeat inv_step ltac:(first [ apply linkKeysUnique_addNode
                                | links_prim ]).
  - assert (preserves linkKeysUnique (removeLink arg : M _)) as H;
      [|apply H].
    unfold removeLink.
    repeat inv_step ltac:(first [ apply linkKeysUnique_removeLinkInstance
                                | links_prim ]).
  - apply linkKeysUnique_removeLinkInstance.
  - assert (preserves linkKeysUnique (clear : M _)) as H; [|apply H].
    unfold clear.
    repeat inv_step ltac:(first [ apply linkKeysUnique_removeNode
                                | links_prim ]).
  - done.
  - done.
Qed.

Lemma reachable_linkKeysUnique g : reachable g → linkKeysUnique g.
Proof.
  induction 1 as [multi|c g _ IH _].
  - apply NoDup_nil_2.
  - by apply linkKeysUnique_run.
Qed.

Lemma linksOf_registered g link :
  linkKeysUnique g → link ∈ linksOf g →
  ∃ s, JsMap.get s (links g) = Some link.
Proof.
  intros Hu [[s l] [-> Hin]]%list_elem_of_fmap. exists s.
  by apply get_Some_elem.
Qed.

End link_keys.

(** X15.  In a graph built by public calls, every link of [links()] is in
    the link sets of the nodes stored under its two endpoints; both
    endpoints are nodes of the graph. *)
Theorem links_attached {NodeData LinkData} (g : Graph NodeData LinkData)
    link :
  reachable g → link ∈ linksOf g →
  is_Some (getNode (Link.fromId (linkObj link g)) g) ∧
  is_Some (getNode (Link.toId (linkObj link g)) g) ∧
  link ∈ getLinks (Link.fromId (linkObj link g)) g ∧
  link ∈ getLinks (Link.toId (linkObj link g)) g.
Proof.
  intros Hg Hin.
  destruct (linksOf_registered g link (reachable_linkKeysUnique g Hg) Hin)
    as [s Hs].
  destruct (reachable_wellFormed g Hg) as (_ & _ & Ha).
  destruct (Ha s link Hs) as [(nf & Hf1 & Hf2) (nt & Ht1 & Ht2)].
  unfold getLinks. rewrite Hf1, Ht1. split_and!; try done; by eexists.
Qed.

Lemma links_attached_witness :
  is_Some (getNode (Link.fromId (linkObj 1%nat chain)) chain) ∧
  is_Some (getNode (Link.toId (linkObj 1%nat chain)) chain) ∧
  1%nat ∈ getLinks (Link.fromId (linkObj 1%nat chain)) chain ∧
  1%nat ∈ getLinks (Link.toId (linkObj 1%nat chain)) chain.
Proof.
  apply (links_attached chain 1%nat reachable_chain).
  vm_compute. right. left.
Defined.

(** X16.  After [removeNode(id)] on a graph built by public calls, no link
    of [links()] has [id] as an endpoint. *)
Theorem removeNode_unlinks {NodeData LinkData} (g : Graph NodeData LinkData)
    nodeId link :
  reachable g →
  let g' := (removeNode nodeId g).2 in
  link ∈ linksOf g' →
  Link.fromId (linkObj link g') ≠ nodeId ∧
  Link.toId (linkObj link g') ≠ nodeId.
Proof.
  intros Hg g' Hin.
  assert (reachable g') as Hg'.
  { apply (reachable_run (RemoveNode nodeId) g Hg I). }
  assert (getNode nodeId g' = None) as Hnone.
  { destruct (removeNode_nodes nodeId g) as (_ & Hn & _).
    unfold getNode. subst g'. rewrite Hn. apply get_delete_eq. }
  destruct (linksOf_registered g' link (reachable_linkKeysUnique g' Hg') Hin)
    as [s Hs].
  destruct (reachable_wellFormed g' Hg') as (_ & _ & Ha).
  destruct (Ha s link Hs) as [(nf & Hf1 & _) (nt & Ht1 & _)].
  split; intros Heq; rewrite Heq in *; congruence.
Qed.

Lemma removeNode_unlinks_witness :
  let g' := (removeNode (NumId 1) chain).2 in
  Link.fromId (linkObj 1%nat g') ≠ NumId 1 ∧
  Link.toId (linkObj 1%nat g') ≠ NumId 1.
Proof.
  apply (removeNode_unlinks chain (NumId 1) 1%nat reachable_chain).
  vm_compute. left.
Defined.

(** X17.  [clear()] on a graph built by public calls leaves a graph with
    no node and no link. *)
Theorem clear_empties {NodeData LinkData} (g : Graph NodeData LinkData) :
  reachable g →
  nodeCount (clear g).2 = 0%nat ∧ linkCount (clear g).2 = 0%nat ∧
  nodesOf (clear g).2 = [] ∧ linksOf (clear g).2 = [].
Proof.
  intros Hg.
  assert (nodes (clear g).2 = []) as Hn.
  { apply clear_nodes;
      [by apply reachable_nodesConsistent|by apply reachable_nodeKeysUnique]. }
  assert (links (clear g).2 = []) as Hl.
  { assert (reachable (clear g).2) as Hg'.
    { apply (reachable_run Clear g Hg I). }
    destruct (reachable_wellFormed _ Hg') as (_ & _ & Ha).
    destruct (links (clear g).2) as [|[s r] rest] eqn:Hlinks; [done|].
    destruct (Ha s r) as [(nf & Hf & _) _].
    - rewrite Hlinks. cbn. by rewrite decide_True.
    - unfold getNode in Hf. by rewrite Hn in Hf. }
  unfold nodeCount, linkCount, nodesOf, linksOf. by rewrite Hn, Hl.
Qed.

Lemma clear_empties_witness :
  nodeCount (clear chain).2 = 0%nat ∧ linkCount (clear chain).2 = 0%nat ∧
  nodesOf (clear chain).2 = [] ∧ linksOf (clear chain).2 = [].
Proof. apply (clear_empties chain reachable_chain). Defined.

(** X18.  A [removeLink] that returns true, on a graph built by public
    calls, takes exactly one link out of the link map and leaves the node
    map as it is. *)
Theorem removeLink_count {NodeData LinkData} (g : Graph NodeData LinkData)
    arg :
  reachable g → (removeLink arg g).1 = Return true →
  S (linkCount (removeLink arg g).2) = linkCount g ∧
  nodes (removeLink arg g).2 = nodes g.
Proof.
  intros Hg. unfold removeLink, mbind, M_bind, gets, mret, M_ret.
  cbn [fst snd].
  destruct (match arg with
            | ByLink link => Some link
            | ByEndpoints f t => getLink f t g
            end) as [link|]; [|done].
  cbn [fst snd]. intros [= Htrue].
  destruct (JsMap.get (Link.id (linkObj link g)) (links g)) as [x|] eqn:Hx.
  - destruct (removeLinkInstance_registered g link) as (_ & H2 & H3 & _);
      [by eexists|].
    unfold linkCount. rewrite H2, H3. split; [|done].
    apply (size_delete_present _ _ x); [|done].
    by apply reachable_linkKeysUnique.
  - by rewrite (removeLinkInstance_unregistered g link Hx) in Htrue.
Qed.

Lemma removeLink_count_witness :
  S (linkCount (removeLink (ByEndpoints (NumId 2) (NumId 3)) chain).2)
  = linkCount chain ∧
  nodes (removeLink (ByEndpoints (NumId 2) (NumId 3)) chain).2 = nodes chain.
Proof.
  apply (removeLink_count chain (ByEndpoints (NumId 2) (NumId 3))
           reachable_chain).
  reflexivity.
Defined.

(** ** Link identifiers of numeric pairs *)

Lemma avoids_app c s1 s2 : avoids c s1 → avoids c s2 → avoids c (s1 +:+ s2).
Proof. intros H1 H2. induction s1 as [|c' s1 IH]; [done|]. cbn in *. split; [apply H1|apply IH, H1]. Qed.





(** *** Other pairs *)

Section numeric_pairs.
Context {NodeData LinkData : Type}.
Implicit Types (g : Graph NodeData LinkData).

End numeric_pairs.





(** ** Link sets hold each link once *)

Section link_sets.
Context {NodeData LinkData : Type}.
Local Abbreviation Graph := (Graph NodeData LinkData).
Local Abbreviation M := (M NodeData LinkData).
Implicit Types (g : Graph).

Lemma linkSetsUnique_objs g g' :
  nodeObjs g' = nodeObjs g → linkSetsUnique g → linkSetsUnique g'.
Proof. unfold linkSetsUnique. by intros ->. Qed.

Lemma linkSetsUnique_updNode r (f : Node.t NodeData → Node.t NodeData) :
  (∀ n ls', Node.links (f n) = Some ls' →
     ∃ ls, Node.links n = Some ls ∧ (NoDup ls → NoDup ls')) →
  preserves linkSetsUnique (updNode r f : M unit).
Proof.
  intros Hf g Hg r' n' ls'. cbn. rewrite list_lookup_alter.
  case_decide; [subst|by apply Hg].
  destruct (nodeObjs g !! r') as [n|] eqn:Hn; [|done]. cbn.
  intros [= <-] Hls. destruct (Hf n ls' Hls) as (ls & Hl & Hnd).
  by apply Hnd, (Hg r' n ls).
Qed.

Lemma linkSetsUnique_attach r link :
  preserves linkSetsUnique (updNode r (Node.addLink link) : M unit).
Proof.
  intros g Hg r' n' ls'. cbn. rewrite list_lookup_alter.
  case_decide; [subst|by apply Hg].
  destruct (nodeObjs g !! r') as [n|] eqn:Hn; [|done]. cbn.
  intros [= <-]. unfold Node.addLink.
  destruct (Node.links n) as [ls|] eqn:Hl; cbn; intros [= <-];
    [|apply NoDup_singleton].
  pose proof (Hg r' n ls Hn Hl) as Hnd. unfold JsSet.add.
  case_bool_decide as Hin; [done|].
  apply NoDup_app. split_and!; [done| |apply NoDup_singleton].
  by intros x Hx ->%list_elem_of_singleton.
Qed.

Lemma linkSetsUnique_newNode nodeId data :
  preserves linkSetsUnique (newNode nodeId data : M nref).
Proof.
  intros g Hg r n ls. cbn. intros [Hn|[_ Hn]]%lookup_app_Some.
  - by apply (Hg r n).
  - apply list_lookup_singleton_Some in Hn as [_ <-]. done.
Qed.

Ltac sets_prim :=
  idtac;
  lazymatch goal with
  | |- preserves _ (updNode _ (Node.addLink _)) =>
      apply linkSetsUnique_attach
  | |- preserves _ (updNode _ (Node.deleteLink _)) =>
      apply linkSetsUnique_updNode; intros [? [?|] ?] ?; cbn;
      first [ by intros [=]
            | intros [= <-]; eexists; split; [reflexivity|];
              apply NoDup_filter ]
  | |- preserves _ (updNode _ _) =>
      apply linkSetsUnique_updNode; intros [? [?|] ?] ?; cbn;
      first [ by intros [=]
            | intros [= <-]; eexists; split; [reflexivity|done] ]
  | |- preserves _ (newNode _ _) => apply linkSetsUnique_newNode
  | |- _ =>
      intros ? ?; eapply linkSetsUnique_objs; [|eassumption];
      first [ apply (proj2 (same_enter _)) | apply (proj2 (same_exit _))
            | apply (proj2 (same_recordNode _ _ _))
            | apply (proj2 (same_recordLink _ _ _))
            | apply (proj2 (same_createLink _ _ _ _)) | done ]
  end.

Lemma linkSetsUnique_addNode nodeId data :
  preserves linkSetsUnique (addNode nodeId data : M nref).
Proof. unfold addNode. repeat inv_step sets_prim. Qed.

Lemma linkSetsUnique_removeLinkInstance link :
  preserves linkSetsUnique (removeLinkInstance link : M bool).
Proof. unfold removeLinkInstance, detachLink. repeat inv_step sets_prim. Qed.

Lemma linkSetsUnique_removeNode nodeId :
  preserves linkSetsUnique (removeNode nodeId : M bool).
Proof.
  unfold removeNode.
  repeat inv_step ltac:(first [ apply linkSetsUnique_removeLinkInstance
                              | sets_prim ]).
Qed.

Lemma linkSetsUnique_run (c : Call NodeData LinkData) g :
  linkSetsUnique g → linkSetsUnique (run c g).
Proof.
  destruct c; cbn [run].
  - apply linkSetsUnique_addNode.
  - apply linkSetsUnique_removeNode.
  - assert (preserves linkSetsUnique (addLink fromId toId data : M _)) as H;
      [|apply H].
    unfold addLink, getOrAddNode.
    repeat inv_step ltac:(first [ apply linkSetsUnique_addNode
                                | sets_prim ]).
  - assert (preserves linkSetsUnique (removeLink arg : M _)) as H;
      [|apply H].
    unfold removeLink.
    repeat inv_step ltac:(first [ apply linkSetsUnique_removeLinkInstance
                                | sets_prim ]).
  - apply linkSetsUnique_removeLinkInstance.
  - assert (preserves linkSetsUnique (clear : M _)) as H; [|apply H].
    unfold clear.
    repeat inv_step ltac:(first [ apply linkSetsUnique_removeNode
                                | sets_prim ]).
  - done.
  - done.
Qed.

Lemma reachable_linkSetsUnique g : reachable g → linkSetsUnique g.
Proof.
  induction 1 as [multi|c g _ IH _]; [by intros ? ? ? ?|].
  by apply linkSetsUnique_run.
Qed.

Lemma getLinks_NoDup g k : linkSetsUnique g → NoDup (getLinks k g).
Proof.
  intros Hg. unfold getLinks. destruct (getNode k g) as [node|];
    [|apply NoDup_nil_2].
  unfold nodeObj. rewrite list_lookup_total_alt.
  destruct (nodeObjs g !! node) as [n|] eqn:Hn; cbn; [|apply NoDup_nil_2].
  destruct (Node.links n) as [ls|] eqn:Hl; cbn; [|apply NoDup_nil_2].
  by apply (Hg node n).
Qed.

Lemma NoDup_prefix {A} (l1 l2 : list A) :
  l1 `prefix_of` l2 → NoDup l2 → NoDup l1.
Proof. intros [k ->] [? _]%NoDup_app. done. Qed.

End link_sets.

(** X21.  In a graph built by public calls a node's link set holds each
    link once (a self-loop included), and a neighbour enumeration yields
    each link at most once. *)
Theorem linkedNodes_once {NodeData LinkData} (g : Graph NodeData LinkData)
    k oriented :
  reachable g →
  NoDup (getLinks k g) ∧
  NoDup ((λ y, y.1.2) <$> (linkedNodes k oriented g).1).
Proof.
  intros Hg. pose proof (reachable_linkSetsUnique g Hg) as Hu.
  pose proof (getLinks_NoDup g k Hu) as Hnd. split; [done|].
  unfold linkedNodes, getLinks in *.
  destruct (getNode k g) as [node|]; [|apply NoDup_nil_2].
  destruct (Node.links (nodeObj node g)) as [ls|]; [|apply NoDup_nil_2].
  cbn in Hnd. destruct oriented.
  - destruct (orientedLinks_yields g node ls) as (Hp & _).
    eapply NoDup_prefix; [exact Hp|]. by apply NoDup_filter.
  - destruct (nonOrientedLinks_yields g node ls) as (Hp & _).
    by eapply NoDup_prefix.
Qed.

Lemma linkedNodes_once_witness :
  let g : Graph string string :=
    run (AddLink (NumId 4) (NumId 4) None) (newGraph false) in
  NoDup (getLinks (NumId 4) g) ∧
  NoDup ((λ y, y.1.2) <$> (linkedNodes (NumId 4) false g).1).
Proof.
  apply (linkedNodes_once
           (run (AddLink (NumId 4) (NumId 4) None) (newGraph false))
           (NumId 4) false).
  apply (reachable_run (AddLink (NumId 4) (NumId 4) None) (newGraph false));
    [apply reachable_new|exact I].
Defined.

(** ** The maps and the objects they hold *)

(** X22.  In a graph built by public calls every node is stored under its
    own identifier and every link of [links()] under its own identifier:
    [getNode(id).id] is [id], and looking up the identifier of a link of
    the graph gives that link. *)
Theorem store_keys_consistent {NodeData LinkData}
    (g : Graph NodeData LinkData) :
  reachable g →
  (∀ k node, getNode k g = Some node → Node.id (nodeObj node g) = k) ∧
  (∀ link, link ∈ linksOf g →
     JsMap.get (Link.id (linkObj link g)) (links g) = Some link).
Proof.
  intros Hg. split.
  - intros k node. apply nodeObj_consistent.
    by apply reachable_nodesConsistent.
  - intros link Hin.
    destruct (linksOf_registered g link (reachable_linkKeysUnique g Hg) Hin)
      as [s Hs].
    destruct (reachable_linksConsistent g Hg s link Hs) as (l & Hl & Hid).
    unfold linkObj. by rewrite (list_lookup_total_correct _ _ _ Hl), Hid.
Qed.

Lemma store_keys_consistent_witness :
  (∀ k node, getNode k doubled = Some node →
     Node.id (nodeObj node doubled) = k) ∧
  (∀ link, link ∈ linksOf doubled →
     JsMap.get (Link.id (linkObj link doubled)) (links doubled) = Some link).
Proof. apply (store_keys_consistent doubled reachable_doubled). Defined.

(** X23.  Between public calls no modification is in progress and no
    change waits for delivery: on every graph built by public calls the
    nesting counter is 0 and the list of pending changes is empty. *)
Theorem at_rest_between_calls {NodeData LinkData}
    (g : Graph NodeData LinkData) :
  reachable g → suspendEvents g = 0 ∧ changes g = [].
Proof. apply reachable_quiescent. Qed.

Lemma at_rest_between_calls_witness :
  suspendEvents (run (RemoveNode (NumId 2)) (run On chain)) = 0 ∧
  changes (run (RemoveNode (NumId 2)) (run On chain)) = [].
Proof.
  apply (at_rest_between_calls (run (RemoveNode (NumId 2)) (run On chain))).
  apply (reachable_run (RemoveNode (NumId 2)) (run On chain)); [|exact I].
  apply (reachable_run On chain); [apply reachable_chain|exact I].
Defined.

(** ** Integer arithmetic *)

Section math_facts.
Import Math.

Lemma mod_spec x y : y ≠ 0 → mod_ x y = Return (x `mod` y).
Proof.
  intros Hy. unfold mod_. rewrite bool_decide_eq_false_2 by done. f_equal.
  pose proof (Z.quot_rem' x y) as H1.
  pose proof (Z.quot_rem' (Z.rem x y + y) y) as H2.
  pose proof (Z.rem_bound_abs x y Hy) as Hb.
  apply (Z.mod_unique x y
           (Z.quot x y + Z.quot (Z.rem x y + y) y - 1)); [|lia].
  destruct (Z.lt_trichotomy y 0) as [Hneg|[->|Hpos]]; [right|done|left].
  - pose proof (Z.rem_nonpos (Z.rem x y + y) y Hy) as H3.
    pose proof (Z.rem_bound_abs (Z.rem x y + y) y Hy) as H4. lia.
  - pose proof (Z.rem_nonneg (Z.rem x y + y) y Hy) as H3.
    pose proof (Z.rem_bound_abs (Z.rem x y + y) y Hy) as H4. lia.
Qed.

Lemma quot_div x y :
  y ≠ 0 →
  Z.quot x y =
    x / y +
    (if bool_decide (x `mod` y ≠ 0 ∧ (x < 0 < y ∨ y < 0 < x)) then 1 else 0).
Proof.
  intros Hy.
  pose proof (Z.quot_rem' x y) as H1.
  pose proof (Z.div_mod x y Hy) as H2.
  pose proof (Z.rem_bound_abs x y Hy) as Hb.
  pose proof (Z.rem_sign_mul x y Hy) as Hs.
  assert (0 < y → 0 ≤ x `mod` y < y) as Hpos by (intros; by apply Z.mod_pos_bound).
  assert (y < 0 → y < x `mod` y ≤ 0) as Hneg by (intros; by apply Z.mod_neg_bound).
  assert (y * (Z.quot x y - x / y) = x `mod` y - Z.rem x y) as Hk by lia.
  assert (-1 ≤ Z.quot x y - x / y ≤ 1) as Hr by nia.
  assert (x = 0 → Z.rem x y = 0) as Hx0 by (intros ->; apply Z.rem_0_l, Hy).
  case_bool_decide as Hc; nia.
Qed.

Lemma divmod_eq x y :
  y ≠ 0 →
  divmod x y =
    Return (x / y + (if offFloor x y then 1 else 0), x `mod` y).
Proof.
  intros Hy. unfold divmod, quotient.
  rewrite (mod_spec x y Hy), bool_decide_eq_false_2 by done.
  rewrite (quot_div x y Hy). unfold offFloor.
  pose proof (Z.div_mod x y Hy) as H2.
  assert (0 < y → 0 ≤ x `mod` y < y) as Hpos
    by (intros; by apply Z.mod_pos_bound).
  assert (y < 0 → y < x `mod` y ≤ 0) as Hneg
    by (intros; by apply Z.mod_neg_bound).
  repeat case_bool_decide; cbn [andb orb]; f_equal; f_equal; nia.
Qed.

Lemma gcdLoop_eq fuel a b :
  Z.abs b ≤ Z.of_nat fuel →
  gcdLoop fuel a b =
    Some (Return (if bool_decide (b = 0) then a else Z.sgn b * Z.gcd a b)).
Proof.
  revert a b. induction fuel as [|fuel IH]; intros a b Hb; cbn [gcdLoop].
  - assert (b = 0) as -> by lia. done.
  - case_bool_decide as Hb0.
    + rewrite (mod_spec a b Hb0), bool_decide_eq_false_2 by done.
      assert (0 < b → 0 ≤ a `mod` b < b) as Hpos
        by (intros; by apply Z.mod_pos_bound).
      assert (b < 0 → b < a `mod` b ≤ 0) as Hneg
        by (intros; by apply Z.mod_neg_bound).
      rewrite IH by lia. f_equal. f_equal. case_bool_decide as Hr.
      * apply Z.mod_divide in Hr; [|done].
        apply Z.divide_abs_l in Hr.
        rewrite (Z.gcd_comm a b), <-Z.gcd_abs_l.
        rewrite (proj1 (Z.divide_gcd_iff (Z.abs b) a (Z.abs_nonneg b)) Hr).
        lia.
      * rewrite (Z.gcd_comm b), Z.gcd_mod, (Z.gcd_comm b a) by done.
        f_equal. lia.
    + by rewrite bool_decide_eq_true_2.
Qed.

Lemma egcdLoop_eq fuel (A B a b s0 s1 t0 t1 : Z) :
  0 ≤ a → 0 ≤ b → b ≤ Z.of_nat fuel →
  A * s0 + B * t0 = a → A * s1 + B * t1 = b →
  ∃ s t, egcdLoop fuel a b s0 s1 t0 t1 = Some (Return (Z.gcd a b, s, t)) ∧
         A * s + B * t = 0.
Proof.
  revert a b s0 s1 t0 t1.
  induction fuel as [|fuel IH]; intros a b s0 s1 t0 t1 Ha Hb Hf H0 H1;
    cbn [egcdLoop].
  - assert (b = 0) as -> by lia. rewrite bool_decide_eq_false_2 by lia.
    exists s1, t1. by rewrite Z.gcd_0_r, Z.abs_eq.
  - case_bool_decide as Hb0.
    + rewrite (divmod_eq a b Hb0).
      assert (offFloor a b = false) as ->.
      { unfold offFloor. rewrite (bool_decide_eq_false_2 (- b < a < 0)),
          (bool_decide_eq_false_2 (b < 0)) by lia.
        by rewrite andb_false_r. }
      rewrite Z.add_0_r.
      pose proof (Z.mod_pos_bound a b) as Hm.
      pose proof (Z.div_mod a b Hb0) as Hd.
      destruct (IH b (a `mod` b) s1 (s0 - a / b * s1) t1 (t0 - a / b * t1))
        as (s & t & -> & Hst); [lia..|done|nia|].
      exists s, t. split; [|done].
      by rewrite (Z.gcd_comm b), Z.gcd_mod, (Z.gcd_comm b a).
    + exists s1, t1. rewrite Hb0, Z.gcd_0_r, Z.abs_eq by done.
      split; [done|lia].
Qed.

End math_facts.

(** X24.  On bigints, [mod(x, y)] throws 'Division by zero' for [y = 0n]
    and otherwise returns the remainder of the floored division: it has
    the sign of [y] and is smaller than [y] in absolute value. *)
Theorem mod_floor (x y : Z) :
  y ≠ 0 →
  Math.mod_ x 0 = Throw "Division by zero" ∧
  Math.mod_ x y = Return (x `mod` y) ∧
  (0 < y → 0 ≤ x `mod` y < y) ∧ (y < 0 → y < x `mod` y ≤ 0).
Proof.
  intros Hy. split; [done|]. split; [by apply mod_spec|].
  split; intros ?; [by apply Z.mod_pos_bound|by apply Z.mod_neg_bound].
Qed.

Lemma mod_floor_witness :
  Math.mod_ (-5) 0 = Throw "Division by zero" ∧
  Math.mod_ (-5) (-4) = Return ((-5) `mod` (-4)) ∧
  (0 < -4 → 0 ≤ (-5) `mod` (-4) < -4) ∧
  (-4 < 0 → -4 < (-5) `mod` (-4) ≤ 0).
Proof. apply (mod_floor (-5) (-4)). lia. Defined.

(** X25.  On bigints with [y] not [0n], [divmod(x, y)] returns the
    floored quotient and its remainder, and then [q * y + r = x], except on
    the pairs of [offFloor] ([-y < x < 0 < y], and [y < 0 < x] with [y] not
    dividing [x]), where the quotient is one more than the floor; [div]
    returns the same quotient. *)
Theorem divmod_floor (x y : Z) :
  y ≠ 0 →
  Math.divmod x y =
    Return (x / y + (if offFloor x y then 1 else 0), x `mod` y) ∧
  Math.div x y = Return (x / y + (if offFloor x y then 1 else 0)) ∧
  (∀ q r, Math.divmod x y = Return (q, r) →
     (q * y + r = x ↔ offFloor x y = false)).
Proof.
  intros Hy. pose proof (divmod_eq x y Hy) as Hdm. split; [done|]. split.
  - unfold Math.divmod in Hdm. unfold Math.div.
    destruct (Math.quotient x y) as [q|]; [|done].
    destruct (Math.mod_ x y) as [r|]; [|done].
    destruct (_ && _); by injection Hdm as <- _.
  - intros q r. rewrite Hdm. intros [= <- <-].
    pose proof (Z.div_mod x y Hy). destruct (offFloor x y); split; try done;
      intros; nia.
Qed.

Lemma divmod_floor_witness :
  Math.divmod (-5) 4 =
    Return (-5 / 4 + (if offFloor (-5) 4 then 1 else 0), (-5) `mod` 4) ∧
  Math.div (-5) 4 = Return (-5 / 4 + (if offFloor (-5) 4 then 1 else 0)) ∧
  (∀ q r, Math.divmod (-5) 4 = Return (q, r) →
     (q * 4 + r = -5 ↔ offFloor (-5) 4 = false)).
Proof. apply (divmod_floor (-5) 4). lia. Defined.

(** X26.  [gcd(a, b)] on bigints comes to an end and returns [a] when [b]
    is [0n], and otherwise the greatest common divisor of [a] and [b] with
    the sign of [b]. *)
Theorem gcd_pair (fuel : nat) (a b : Z) :
  Z.abs b ≤ Z.of_nat fuel →
  Math.gcd fuel [a; b] =
    Some (Return (if bool_decide (b = 0) then a else Z.sgn b * Z.gcd a b)).
Proof. apply gcdLoop_eq. Qed.

Lemma gcd_pair_witness :
  Math.gcd 12 [8; 12] =
    Some (Return (if bool_decide (12 = 0) then 8 else Z.sgn 12 * Z.gcd 8 12)).
Proof. apply (gcd_pair 12 8 12). lia. Defined.

(** X27.  [egcd(0n, b)] is [[b, 0n, 1n]].  For [a] not [0n], [egcd(a, b)]
    comes to an end and returns [[g, s, t]] where [g] is the greatest
    common divisor of [a] and [b] and [a * s + b * t = 0]. *)
Theorem egcd_result (fuel : nat) (a b : Z) :
  a ≠ 0 → Z.abs b ≤ Z.of_nat fuel →
  Math.egcd fuel 0 b = Some (Return (b, 0, 1)) ∧
  ∃ s t, Math.egcd fuel a b = Some (Return (Z.gcd a b, s, t)) ∧
         a * s + b * t = 0.
Proof.
  intros Ha Hf. split; [done|]. unfold Math.egcd.
  rewrite bool_decide_eq_false_2 by done.
  assert (Math.abs a = Z.abs a ∧ Math.abs b = Z.abs b) as [-> ->].
  { unfold Math.abs. split; case_bool_decide; lia. }
  destruct (egcdLoop_eq fuel (Z.abs a) (Z.abs b) (Z.abs a) (Z.abs b) 1 0 0 1)
    as (s & t & -> & Hst); [lia..|].
  exists (Math.sign a * s), (Math.sign b * t).
  rewrite Z.gcd_abs_l, Z.gcd_abs_r. split; [done|].
  unfold Math.sign. repeat case_bool_decide; lia.
Qed.

Lemma egcd_result_witness :
  Math.egcd 46 0 46 = Some (Return (46, 0, 1)) ∧
  ∃ s t, Math.egcd 46 240 46 = Some (Return (Z.gcd 240 46, s, t)) ∧
         240 * s + 46 * t = 0.
Proof. apply (egcd_result 46 240 46); lia. Defined.

(** *** [gcd] and [lcm] of a list *)

Section math_lists.
Import Math.

Lemma gcdLoop_abs fuel t v :
  Z.abs v ≤ Z.of_nat fuel →
  ∃ g, gcdLoop fuel t v = Some (Return g) ∧ Z.abs g = Z.gcd (Z.abs t) v.
Proof.
  intros Hv. rewrite (gcdLoop_eq fuel t v Hv). eexists. split; [done|].
  rewrite Z.gcd_abs_l. case_bool_decide as Hv0.
  - subst v. by rewrite Z.gcd_0_r.
  - pose proof (Z.gcd_nonneg t v). lia.
Qed.

Lemma gcd_fold fuel (rest : list Z) t :
  Forall (λ v, Z.abs v ≤ Z.of_nat fuel) rest →
  ∃ g, foldl (λ acc v,
                match acc with
                | Some (Return t) => gcdLoop fuel t v
                | other => other
                end) (Some (Return t)) rest = Some (Return g) ∧
       Z.abs g = foldl Z.gcd (Z.abs t) rest.
Proof.
  intros Hrest. revert t. induction Hrest as [|v rest Hv _ IH]; intros t.
  - by exists t.
  - cbn [foldl]. destruct (gcdLoop_abs fuel t v Hv) as (g & -> & Hg).
    destruct (IH g) as (g' & -> & Hg'). exists g'. split; [done|].
    by rewrite Hg', Hg.
Qed.

Lemma lcm_fold fuel (l : list Z) t :
  0 < t → Forall (λ v, 0 < v ≤ Z.of_nat fuel) l →
  foldl (λ acc v,
           match acc with
           | Some (Return t) =>
               match gcd fuel [t; v] with
               | Some (Return g) => Some (quotient (t * v) g)
               | other => other
               end
           | other => other
           end) (Some (Return t)) l
  = Some (Return (foldl Z.lcm t l)).
Proof.
  intros Ht Hl. revert t Ht. induction Hl as [|v l Hv _ IH]; intros t Ht;
    [done|].
  cbn [foldl gcd]. rewrite gcdLoop_eq, bool_decide_eq_false_2 by lia.
  assert (Z.sgn v * Z.gcd t v = Z.gcd t v) as -> by lia.
  pose proof (Z.gcd_nonneg t v) as Hg0.
  assert (Z.gcd t v ≠ 0) as Hg.
  { intros [_ ?]%Z.gcd_eq_0. lia. }
  destruct (Z.gcd_divide_r t v) as [k Hk].
  assert (0 < k) as Hk0 by nia.
  assert (v / Z.gcd t v = k) as Hdiv.
  { symmetry. apply Z.div_unique_exact; [done|lia]. }
  assert (quotient (t * v) (Z.gcd t v) = Return (Z.lcm t v)) as ->.
  { unfold quotient. rewrite bool_decide_eq_false_2 by done. f_equal.
    rewrite Z.quot_div_nonneg by lia.
    rewrite Z.divide_div_mul_exact by (done || by exists k).
    unfold Z.lcm. rewrite Hdiv. lia. }
  apply IH. unfold Z.lcm. rewrite Hdiv. lia.
Qed.
End math_lists.

(** X28.  [gcd()] throws 'Invalid input'; for one or more bigints
    [gcd(...n)] comes to an end and returns, up to its sign, the greatest
    common divisor of all its arguments. *)
Theorem gcd_list (fuel : nat) (n : list Z) :
  n ≠ [] → Forall (λ v, Z.abs v ≤ Z.of_nat fuel) n →
  Math.gcd fuel [] = Some (Throw "Invalid input") ∧
  ∃ g, Math.gcd fuel n = Some (Return g) ∧ Z.abs g = foldl Z.gcd 0 n.
Proof.
  intros Hn Hf. split; [done|].
  destruct n as [|a rest]; [done|]. apply Forall_cons in Hf as [_ Hrest].
  destruct (gcd_fold fuel rest a Hrest) as (g & Hg & Habs).
  exists g. split; [|exact Habs].
  destruct rest as [|b [|c rest]]; done.
Qed.

Lemma gcd_list_witness :
  Math.gcd 16 [] = Some (Throw "Invalid input") ∧
  ∃ g, Math.gcd 16 [8; 12; 16] = Some (Return g) ∧
       Z.abs g = foldl Z.gcd 0 [8; 12; 16].
Proof.
  apply (gcd_list 16 [8; 12; 16]); [done|]. repeat constructor; lia.
Defined.

(** X29.  For positive bigints [lcm(...n)] comes to an end and returns
    their least common multiple; [lcm()] is [1n]. *)
Theorem lcm_positive (fuel : nat) (n : list Z) :
  Forall (λ v, 0 < v ≤ Z.of_nat fuel) n →
  Math.lcm fuel n = Some (Return (foldl Z.lcm 1 n)) ∧
  Math.lcm fuel [] = Some (Return 1).
Proof. intros Hn. split; [|done]. by apply lcm_fold. Qed.

Lemma lcm_positive_witness :
  Math.lcm 12 [8; 12] = Some (Return (foldl Z.lcm 1 [8; 12])) ∧
  Math.lcm 12 [] = Some (Return 1).
Proof. apply (lcm_positive 12 [8; 12]). repeat constructor; lia. Defined.

(** ** The ring buffer *)

Section ring_facts.
Context {T : Type}.
Implicit Types (r : Ring.t T) (v : T).

Lemma Ring_get_push r v :
  (0 < Ring.length r)%nat → length (Ring.buf r) = Ring.length r →
  Ring.get (Ring.push v r) =
    ((if bool_decide (Ring.length r ≤ Ring.count r)%nat
      then drop 1 (Ring.get r) else Ring.get r) ++ [Some v])%list.
Proof.
  destruct r as [n b c]. cbn [Ring.length Ring.buf Ring.count].
  intros Hn Hb. unfold Ring.get, Ring.push.
  cbn [Ring.length Ring.buf Ring.count].
  rewrite !(bool_decide_eq_false_2 (n = 0%nat)) by lia.
  destruct (decide (c < n)%nat) as [Hc|Hc].
  - rewrite (bool_decide_eq_true_2 (c < n)%nat),
      (bool_decide_eq_false_2 (n ≤ c)%nat), (Nat.mod_small c n) by lia.
    assert (take (S c) (<[c:=Some v]> b) = (take c b ++ [Some v])%list) as Ht.
    { rewrite (take_S_r _ _ (Some v)) by (apply list_lookup_insert_eq; lia).
      by rewrite take_insert_ge. }
    case_bool_decide as Hc'; [done|].
    assert (S c = n) as HS by lia.
    rewrite <-Ht, HS, Nat.Div0.mod_same, bool_decide_eq_true_2 by done.
    rewrite take_ge; [done|]. rewrite length_insert. lia.
  - rewrite (bool_decide_eq_false_2 (c < n)%nat),
      (bool_decide_eq_true_2 (n ≤ c)%nat),
      (bool_decide_eq_false_2 (S c < n)%nat) by lia.
    pose proof (Nat.mod_upper_bound c n) as Hp.
    set (p := (c `mod` n)%nat) in *.
    assert (p < n)%nat as Hpn by lia. clear Hp.
    assert (S c `mod` n = if decide (S p = n) then 0 else S p)%nat as ->.
    { subst p. replace (S c) with (1 + c)%nat by lia.
      rewrite <-Nat.Div0.add_mod_idemp_r. case_decide as HS.
      - replace (1 + c `mod` n)%nat with n by lia. apply Nat.Div0.mod_same.
      - apply Nat.mod_small. lia. }
    assert (drop 1 (if bool_decide (p = 0%nat) then b
                    else drop p b ++ take p b)
            = drop (S p) b ++ take p b)%list as ->.
    { case_bool_decide as Hp0.
      - subst p. rewrite Hp0. by rewrite take_0, app_nil_r.
      - rewrite drop_app_le by (rewrite length_drop; lia).
        by rewrite drop_drop, Nat.add_1_r. }
    case_decide as HS.
    + rewrite bool_decide_eq_true_2 by done.
      rewrite (drop_ge b (S p)), app_nil_l by lia.
      rewrite <-(take_drop p (<[p:=Some v]> b)).
      rewrite take_insert_ge by lia. f_equal.
      rewrite drop_insert_ge, Nat.sub_diag by lia.
      destruct (drop p b) as [|x rest] eqn:Hd.
      { apply (f_equal length) in Hd. rewrite length_drop in Hd.
        cbn in Hd. lia. }
      cbn. f_equal. apply (f_equal length) in Hd.
      rewrite length_drop in Hd. cbn in Hd.
      destruct rest; [done|]. cbn in Hd. lia.
    + rewrite bool_decide_eq_false_2 by lia.
      rewrite drop_insert_lt by lia. rewrite <-app_assoc. f_equal.
      rewrite (take_S_r _ _ (Some v)) by (apply list_lookup_insert_eq; lia).
      by rewrite take_insert_ge.
Qed.

Lemma Ring_pushes n (vs : list T) :
  let r := foldl (λ r v, Ring.push v r) (Ring.new n) vs in
  Ring.length r = n ∧ length (Ring.buf r) = n ∧ Ring.count r = length vs ∧
  Ring.get r = Some <$> drop (length vs - n) vs.
Proof.
  induction vs as [|v vs IH] using rev_ind.
  - cbn. split_and!; try done; [apply length_replicate|].
    unfold Ring.get. cbn. destruct n; [done|].
    by rewrite bool_decide_eq_true_2 by lia.
  - rewrite foldl_app. cbn [foldl]. cbn zeta in *.
    destruct IH as (H1 & H2 & H3 & H4).
    set (r := foldl (λ r v, Ring.push v r) (Ring.new n) vs) in *.
    rewrite length_app. cbn [length].
    split_and!; [done| |cbn; lia|].
    + unfold Ring.push. cbn. case_bool_decide; [done|].
      by rewrite length_insert.
    + destruct (decide (n = 0)%nat) as [->|Hn].
      { unfold Ring.get, Ring.push. cbn [Ring.length Ring.buf Ring.count].
        rewrite H1, bool_decide_eq_false_2, !bool_decide_eq_true_2 by lia.
        rewrite (drop_ge (vs ++ [v])) by (rewrite length_app; cbn; lia).
        destruct (Ring.buf r); [done|]. cbn in H2. lia. }
      rewrite Ring_get_push by lia. rewrite H1, H3, H4.
      case_bool_decide as Hfull.
      * replace (length vs + 1 - n)%nat with (S (length vs - n)) by lia.
        rewrite drop_app_le by lia. rewrite fmap_app. cbn. f_equal.
        by rewrite <-fmap_drop, drop_drop, Nat.add_1_r.
      * replace (length vs + 1 - n)%nat with 0%nat by lia.
        replace (length vs - n)%nat with 0%nat by lia.
        by rewrite !drop_0, fmap_app.
Qed.
End ring_facts.

(** X30.  After any sequence of [push] calls on a new ring buffer of
    length [n], [get()] returns the last [n] values pushed (all of them
    when fewer were pushed), oldest first; [count] is the number of pushes,
    [size] the smaller of that number and [n], and [full] says whether at
    least [n] values were pushed. *)
Theorem ring_get_last {T} (n : nat) (vs : list T) :
  let r := foldl (λ r v, Ring.push v r) (Ring.new n) vs in
  Ring.get r = Some <$> drop (length vs - n) vs ∧
  Ring.count r = length vs ∧
  Ring.size r = (length vs `min` n)%nat ∧
  Ring.full r = bool_decide (n ≤ length vs)%nat.
Proof.
  destruct (Ring_pushes n vs) as (H1 & _ & H3 & H4). cbn zeta.
  unfold Ring.size, Ring.full. rewrite H1, H3, H4.
  split_and!; try done. case_bool_decide; lia.
Qed.
